(** * hw2_signer: the concurrent signing pipeline of signer.go

    The four functions of [signer.go] ([SingleHash], [MultiHash],
    [CombineResults], [ExecutePipeline]) are embedded as small state machines:
    every goroutine has a program counter that names the source line it is
    about to run, a scheduler picks which goroutine moves next, and a
    rendezvous on an unbuffered channel is one joint move of the sender and
    the receiver.  Properties are proved for every schedule. *)

From Stdlib Require Import ZArith String Ascii Lia.
From stdpp Require Import base tactics option list strings sorting pretty numbers.

Open Scope string_scope.
Open Scope list_scope.

(** ** Values, goroutine names, observable actions *)

(** A value of type [interface{}] travelling on a channel: an [int], a
    [string], or a value of any other dynamic type. *)
Inductive value :=
| VInt (n : Z)
| VString (s : string)
| VOther (tag : nat).

#[global] Instance value_eq_dec : EqDecision value.
Proof. solve_decision. Defined.

(** Goroutines of one job: the job function itself, the goroutine it starts
    for the [k]-th item, and the goroutines started by that one. *)
Inductive tid :=
| Main
| Worker (k : nat)
| Sub (k i : nat).

#[global] Instance tid_eq_dec : EqDecision tid.
Proof. solve_decision. Defined.

(** What the environment hands to a goroutine that moves: nothing, the value
    a receive on [in] yields, or the news that [in] is closed. *)
Inductive input :=
| INone
| IVal (v : value)
| IClosed.

(** What a move looks like from outside the job. *)
Inductive label :=
| LRecv (v : value)
| LEnd
| LSend (v : value)
| LTau
| LPanic (msg : string)
| LRet.

#[global] Instance label_eq_dec : EqDecision label.
Proof. solve_decision. Defined.

(** [type job func(in, out chan interface{})]: a job is known by the moves its
    goroutines can make on its two channels. *)
Record job := Job {
  jstate : Type;
  jinit : jstate;
  jstep : jstate -> tid -> input -> option (label * jstate)
}.

Definition schedule := list (tid * input).

Fixpoint run (j : job) (s : jstate j) (sched : schedule)
  : option (list label * jstate j) :=
  match sched with
  | [] => Some ([], s)
  | (t, i) :: rest =>
      match jstep j s t i with
      | Some (l, s') =>
          match run j s' rest with
          | Some (ls, s'') => Some (l :: ls, s'')
          | None => None
          end
      | None => None
      end
  end.

Definition recv_of (l : label) : list value :=
  match l with LRecv v => [v] | _ => [] end.

Definition send_of (l : label) : list value :=
  match l with LSend v => [v] | _ => [] end.

(** The values received from [in] and sent on [out], in order. *)
Definition recvs (ls : list label) : list value := ls ≫= recv_of.
Definition sends (ls : list label) : list value := ls ≫= send_of.

(** How many elements of a list pass a test. *)
Fixpoint count {A} (f : A -> bool) (l : list A) : nat :=
  match l with
  | [] => 0
  | x :: rest => (if f x then 1 else 0) + count f rest
  end.

(** A schedule leads from the start of job [j] to state [s], the job showing
    the actions [ls] on the way. *)
Definition reaches (j : job) (ls : list label) (s : jstate j) : Prop :=
  exists sched, run j (jinit j) sched = Some (ls, s).

(** ** Library functions used by the stages *)

(** [strconv.Itoa]: decimal digits, with a leading minus sign below zero. *)
Definition Itoa (n : Z) : string := pretty n.

(** [strings.Join]. *)
Fixpoint Join (elems : list string) (sep : string) : string :=
  match elems with
  | [] => ""
  | [e] => e
  | e :: rest => e +:+ sep +:+ Join rest sep
  end.

(** [sort.Strings]: ascending order of Go's [<] on strings, which compares
    byte by byte. *)
Definition sortStrings (l : list string) : list string :=
  merge_sort String.le l.

(** Program counter of a stage function that ranges over [in]. *)
Inductive mpc :=
| MLoop              (* for unit := range in *)
| MItem (u : value)  (* unit received: type assertion and spawn *)
| MWait              (* wg.Wait() *)
| MRet               (* returned *)
| MPanic.            (* panic("type assertion failed") *)

#[global] Instance mpc_eq_dec : EqDecision mpc.
Proof. solve_decision. Defined.

Definition typeAssertionFailed : string := "type assertion failed".

(** ** ExecutePipeline (signer.go, lines 78-101) *)

(** The goroutine that [ExecutePipeline] starts for a job:
    [defer wg.Done(); defer close(chOut); worker(chIn, chOut)].  Deferred calls
    run last-in first-out, and they also run when the job panics, before the
    runtime stops the program. *)
Inductive wphase :=
| WRun                              (* worker(chIn, chOut) *)
| WClose (panicking : option string) (* deferred close(chOut) *)
| WDone (panicking : option string)  (* deferred wg.Done() *)
| WExit                             (* the goroutine has ended *)
| WFatal (msg : string).            (* unrecovered panic: the program stops *)

Record worker := MkWorker {
  wjob : job;
  wst : jstate wjob;
  wIn : option nat;       (* chIn: [None] is the nil channel *)
  wOut : nat;             (* chOut *)
  wphase_of : wphase;
  whist : list label      (* what the job has done so far *)
}.

(** Program counter of [ExecutePipeline] itself. *)
Inductive epc :=
| EStart (jobs : list job)            (* 79-88: out := make; firstJob := jobs[0]; go *)
| EFor (inChan : nat) (jobs : list job) (* 90-99: for _, j := range jobs *)
| EWait                               (* 100: wg.Wait() *)
| EReturned.

Record pstate := PState {
  exec : epc;
  pwg : nat;                (* counter of wg *)
  chans : list bool;        (* the channels made so far; [true] once closed *)
  workers : list worker;
  crashed : option string   (* the program has stopped with this panic *)
}.

Definition indexOutOfRange : string := "index out of range".

Definition launch (j : job) (chIn : option nat) (chOut : nat) : worker :=
  MkWorker j (jinit j) chIn chOut WRun [].

Definition exec_step (p : pstate) : option pstate :=
  match exec p with
  | EStart [] =>
      Some (PState (EStart []) (pwg p) (chans p ++ [false]) (workers p)
                   (Some indexOutOfRange))
  | EStart (firstJob :: jobs) =>
      let out := length (chans p) in
      Some (PState (EFor out jobs) (S (pwg p)) (chans p ++ [false])
                   (workers p ++ [launch firstJob None out]) None)
  | EFor inChan (j :: jobs) =>
      let outChan := length (chans p) in
      Some (PState (EFor outChan jobs) (S (pwg p)) (chans p ++ [false])
                   (workers p ++ [launch j (Some inChan) outChan]) None)
  | EFor _ [] => Some (PState EWait (pwg p) (chans p) (workers p) None)
  | EWait =>
      if decide (pwg p = 0)
      then Some (PState EReturned (pwg p) (chans p) (workers p) None)
      else None
  | EReturned => None
  end.

Definition set_worker (p : pstate) (a : nat) (w : worker) : pstate :=
  PState (exec p) (pwg p) (chans p) (<[a:=w]> (workers p)) (crashed p).

Definition moved (w : worker) (l : label) (s : jstate (wjob w)) (ph : wphase) : worker :=
  MkWorker (wjob w) s (wIn w) (wOut w) ph (whist w ++ [l]).

Definition set_phase (w : worker) (ph : wphase) : worker :=
  MkWorker (wjob w) (wst w) (wIn w) (wOut w) ph (whist w).

(** A move that touches no channel. *)
Definition local_step (p : pstate) (a : nat) (t : tid) : option pstate :=
  w ← workers p !! a;
  '(l, s) ← jstep (wjob w) (wst w) t INone;
  match l with
  | LTau => Some (set_worker p a (moved w l s (wphase_of w)))
  | LRet =>
      match t, wphase_of w with
      | Main, WRun => Some (set_worker p a (moved w l s (WClose None)))
      | _, _ => None
      end
  | LPanic msg =>
      match t, wphase_of w with
      | Main, WRun => Some (set_worker p a (moved w l s (WClose (Some msg))))
      | Main, _ => None
      | _, _ => Some (PState (exec p) (pwg p) (chans p)
                             (<[a := moved w l s (wphase_of w)]> (workers p)) (Some msg))
      end
  | _ => None
  end.

(** Goroutine [ts] of job [a] sends on its [out]; goroutine [tr] of job [b],
    whose [in] is that channel, receives. *)
Definition xfer_step (p : pstate) (a : nat) (ts : tid) (b : nat) (tr : tid)
  : option pstate :=
  wa ← workers p !! a;
  wb ← workers p !! b;
  if decide (a ≠ b ∧ wIn wb = Some (wOut wa) ∧ chans p !! wOut wa = Some false) then
    '(la, sa) ← jstep (wjob wa) (wst wa) ts INone;
    match la with
    | LSend v =>
        '(lb, sb) ← jstep (wjob wb) (wst wb) tr (IVal v);
        if decide (lb = LRecv v) then
          Some (set_worker (set_worker p a (moved wa la sa (wphase_of wa)))
                           b (moved wb lb sb (wphase_of wb)))
        else None
    | _ => None
    end
  else None.

(** Goroutine [tr] of job [b] finds its [in] closed. *)
Definition end_step (p : pstate) (b : nat) (tr : tid) : option pstate :=
  wb ← workers p !! b;
  c ← wIn wb;
  if decide (chans p !! c = Some true) then
    '(lb, sb) ← jstep (wjob wb) (wst wb) tr IClosed;
    match lb with
    | LEnd => Some (set_worker p b (moved wb lb sb (wphase_of wb)))
    | _ => None
    end
  else None.

(** The next deferred call of the goroutine of job [a]. *)
Definition defer_step (p : pstate) (a : nat) : option pstate :=
  w ← workers p !! a;
  match wphase_of w with
  | WClose pn =>
      Some (PState (exec p) (pwg p) (<[wOut w := true]> (chans p))
                   (<[a := set_phase w (WDone pn)]> (workers p)) (crashed p))
  | WDone pn =>
      match pwg p with
      | S n =>
          Some (PState (exec p) n (chans p)
                       (<[a := set_phase w (match pn with
                                            | Some msg => WFatal msg
                                            | None => WExit
                                            end)]> (workers p))
                       (crashed p))
      | O => None
      end
  | WFatal msg =>
      Some (PState (exec p) (pwg p) (chans p) (workers p) (Some msg))
  | _ => None
  end.

Inductive pevent :=
| PExec                                       (* ExecutePipeline's own next statement *)
| PStep (a : nat) (t : tid)                   (* a move inside job [a] *)
| PXfer (a : nat) (ts : tid) (b : nat) (tr : tid) (* a value passes from [a] to [b] *)
| PEnd (b : nat) (tr : tid)                   (* [b] sees its input closed *)
| PDefer (a : nat).                           (* a deferred call of [a]'s goroutine *)

(** Once the program has stopped nothing moves. *)
Definition pstep (p : pstate) (e : pevent) : option pstate :=
  match crashed p with
  | Some _ => None
  | None =>
      match e with
      | PExec => exec_step p
      | PStep a t => local_step p a t
      | PXfer a ts b tr => xfer_step p a ts b tr
      | PEnd b tr => end_step p b tr
      | PDefer a => defer_step p a
      end
  end.

Fixpoint prun (p : pstate) (es : list pevent) : option pstate :=
  match es with
  | [] => Some p
  | e :: rest => p' ← pstep p e; prun p' rest
  end.

(** The call [ExecutePipeline(jobs...)]. *)
Definition ExecutePipeline (jobs : list job) : pstate :=
  PState (EStart jobs) 0 [] [] None.

(** ** The caller's jobs *)

(** The first job of a pipeline gets the nil channel as [in]; the caller
    passes one that writes the input values to [out] and returns. *)
Inductive feed_state :=
| Feeding (rest : list value)
| Fed.

Definition produce_step (s : feed_state) (t : tid) (i : input)
  : option (label * feed_state) :=
  match t, i, s with
  | Main, INone, Feeding (v :: rest) => Some (LSend v, Feeding rest)
  | Main, INone, Feeding [] => Some (LRet, Fed)
  | _, _, _ => None
  end.

Definition produce (vals : list value) : job :=
  Job feed_state (Feeding vals) produce_step.

(** The last job of a pipeline reads what [CombineResults] sends: the output
    sink. *)
Record sink_state := Sink {
  got : list value;
  sink_open : bool;       (* still ranging over [in] *)
  sink_ret : bool
}.

Definition consume_step (s : sink_state) (t : tid) (i : input)
  : option (label * sink_state) :=
  match t, i with
  | Main, IVal v =>
      if sink_open s then Some (LRecv v, Sink (got s ++ [v]) true false) else None
  | Main, IClosed =>
      if sink_open s then Some (LEnd, Sink (got s) false false) else None
  | Main, INone =>
      if sink_open s || sink_ret s then None
      else Some (LRet, Sink (got s) false true)
  | _, _ => None
  end.

Definition consume : job := Job sink_state (Sink [] true false) consume_step.

(** ** Stand-ins for the hash functions

    [common.go] is not among the sources; to run the machines on concrete
    inputs any two functions on strings will do. *)
Definition crc32_stub (s : string) : string := "c(" +:+ s +:+ ")".
Definition md5_stub (s : string) : string := "m(" +:+ s +:+ ")".

(** ** Schedules of the five-job pipeline

    Position 0 is the producer, 1 SingleHash, 2 MultiHash, 3 CombineResults,
    4 the sink. *)

(** SingleHash receives the next integer and its [k]-th worker computes. *)
Definition through_SingleHash (k : nat) : list pevent :=
  [PXfer 0 Main 1 Main; PStep 1 Main] ++
  (PStep 1 <$> replicate 5 (Worker k) ++ [Sub k 0; Worker k]).

(** The [k]-th worker of SingleHash sends; MultiHash starts a worker. *)
Definition to_MultiHash (k : nat) : list pevent :=
  [PXfer 1 (Worker k) 2 Main; PStep 1 (Worker k); PStep 2 Main].

(** The [k]-th worker of MultiHash computes, its six goroutines running in
    the order [order]. *)
Definition through_MultiHash (k : nat) (order : list nat) : list pevent :=
  PStep 2 <$> replicate 8 (Worker k) ++ (order ≫= λ i, [Sub k i; Sub k i]) ++ [Worker k].

(** The [k]-th worker of MultiHash sends; CombineResults appends. *)
Definition to_CombineResults (k : nat) : list pevent :=
  [PXfer 2 (Worker k) 3 Main; PStep 2 (Worker k); PStep 3 Main].

(** The producer returns, and one after the other the jobs see their input
    closed, return, and have their output closed. *)
Definition closing_events : list pevent :=
  [PStep 0 Main; PDefer 0; PDefer 0;
   PEnd 1 Main; PStep 1 Main; PDefer 1; PDefer 1;
   PEnd 2 Main; PStep 2 Main; PDefer 2; PDefer 2;
   PEnd 3 Main; PStep 3 Main; PXfer 3 Main 4 Main; PStep 3 Main; PDefer 3; PDefer 3;
   PEnd 4 Main; PStep 4 Main; PDefer 4; PDefer 4;
   PExec].

(** Two integers, one after the other. *)
Definition run_in_turn : list pevent :=
  replicate 6 PExec ++
  through_SingleHash 0 ++ to_MultiHash 0 ++ through_MultiHash 0 [0; 1; 2; 3; 4; 5] ++
  to_CombineResults 0 ++
  through_SingleHash 1 ++ to_MultiHash 1 ++ through_MultiHash 1 [0; 1; 2; 3; 4; 5] ++
  to_CombineResults 1 ++
  closing_events.

(** Two integers, the second overtaking the first at every stage, and the
    six goroutines of each item finishing out of order. *)
Definition run_overtaking : list pevent :=
  replicate 6 PExec ++
  through_SingleHash 0 ++ through_SingleHash 1 ++
  to_MultiHash 1 ++ to_MultiHash 0 ++
  through_MultiHash 1 [5; 4; 3; 2; 1; 0] ++ through_MultiHash 0 [2; 0; 4; 1; 5; 3] ++
  to_CombineResults 1 ++ to_CombineResults 0 ++
  closing_events.

(** Two integers are in SingleHash; the first worker has taken the mutex. *)
Definition run_two_items : list pevent :=
  replicate 6 PExec ++
  [PXfer 0 Main 1 Main; PStep 1 Main; PXfer 0 Main 1 Main; PStep 1 Main;
   PStep 1 (Worker 0)].

(** One integer goes through; then a value of another type reaches
    SingleHash, which panics; its goroutine runs the deferred
    [close(chOut)]; the later jobs see their input closed, and
    CombineResults sends before the goroutine of SingleHash gets to stop
    the program. *)
Definition run_fault : list pevent :=
  replicate 6 PExec ++
  through_SingleHash 0 ++ to_MultiHash 0 ++ through_MultiHash 0 [0; 1; 2; 3; 4; 5] ++
  to_CombineResults 0 ++
  [PXfer 0 Main 1 Main; PStep 1 Main; PDefer 1;
   PEnd 2 Main; PStep 2 Main; PDefer 2; PDefer 2;
   PEnd 3 Main; PStep 3 Main; PXfer 3 Main 4 Main].

(** Tests on the state a run ends in: a run is checked by evaluating it. *)
Definition checked {A} (chk : A -> bool) (o : option A) : bool :=
  match o with Some x => chk x | None => false end.

Definition returned (p : pstate) : bool :=
  match exec p with EReturned => true | _ => false end.

Definition has_worker (a : nat) (p : pstate) : bool :=
  match workers p !! a with Some _ => true | None => false end.

Definition panicked (a : nat) (p : pstate) : bool :=
  match workers p !! a with
  | Some w => bool_decide (LPanic typeAssertionFailed ∈ whist w)
  | None => false
  end.

Definition received (a : nat) (vs : list value) (p : pstate) : bool :=
  match workers p !! a with
  | Some w => bool_decide (recvs (whist w) = vs)
  | None => false
  end.


Section Signer.

(** The two hash functions of the course's [common.go], which is not part of
    the sources at hand: any pair of functions on strings. *)
Variable DataSignerCrc32 : string -> string.
Variable DataSignerMd5 : string -> string.

(* A proof depends on the hash functions only where its statement does. *)
Set Default Proof Using "Type".

(** ** SingleHash (signer.go, lines 10-36) *)

Inductive sh_pc :=
| ShLock                (* 24: mu.Lock() *)
| ShMd5                 (* 26: md5 = DataSignerMd5(data), mutex held *)
| ShUnlock              (* 25: deferred mu.Unlock() *)
| ShGo                  (* 28-31: ch2 := make(chan string); go func() *)
| ShCrc                 (* 32: DataSignerCrc32(data) *)
| ShRecv (crc : string) (* 32: <-ch2 *)
| ShSend (res : string) (* 32: out <- ... *)
| ShDone                (* 21: deferred wg.Done() *)
| ShExit.

#[global] Instance sh_pc_eq_dec : EqDecision sh_pc.
Proof. solve_decision. Defined.

Inductive sh_sub :=
| SubNone               (* not started *)
| SubCrc                (* 30: DataSignerCrc32(md5) *)
| SubSend (v : string)  (* 30: ch2 <- ... *)
| SubExit.

Record sh_worker := ShWorker {
  sh_data : string;
  sh_md5 : string;
  sh_at : sh_pc;
  sh_ch2 : sh_sub
}.

Record sh_state := ShState {
  sh_main : mpc;
  sh_mu : bool;            (* mu is locked *)
  sh_wg : nat;             (* counter of wg *)
  sh_workers : list sh_worker
}.

Definition sh_set_main (s : sh_state) (m : mpc) : sh_state :=
  ShState m (sh_mu s) (sh_wg s) (sh_workers s).

Definition sh_set_worker (s : sh_state) (k : nat) (w : sh_worker) : sh_state :=
  ShState (sh_main s) (sh_mu s) (sh_wg s) (<[k:=w]> (sh_workers s)).

Definition sh_set_mu (s : sh_state) (b : bool) : sh_state :=
  ShState (sh_main s) b (sh_wg s) (sh_workers s).

Definition sh_set_wg (s : sh_state) (n : nat) : sh_state :=
  ShState (sh_main s) (sh_mu s) n (sh_workers s).

Definition sh_goto (w : sh_worker) (pc : sh_pc) : sh_worker :=
  ShWorker (sh_data w) (sh_md5 w) pc (sh_ch2 w).

(** Lines 18-20: [data := strconv.Itoa(num); wg.Add(1); go func(data)]. *)
Definition sh_spawn (s : sh_state) (num : Z) : sh_state :=
  ShState MLoop (sh_mu s) (S (sh_wg s))
          (sh_workers s ++ [ShWorker (Itoa num) "" ShLock SubNone]).

Definition sh_main_step (s : sh_state) (i : input) : option (label * sh_state) :=
  match sh_main s, i with
  | MLoop, IVal v => Some (LRecv v, sh_set_main s (MItem v))
  | MLoop, IClosed => Some (LEnd, sh_set_main s MWait)
  | MItem (VInt num), INone => Some (LTau, sh_spawn s num)
  | MItem _, INone => Some (LPanic typeAssertionFailed, sh_set_main s MPanic)
  | MWait, INone =>
      if decide (sh_wg s = 0) then Some (LRet, sh_set_main s MRet) else None
  | _, _ => None
  end.

Definition sh_worker_step (s : sh_state) (k : nat) (w : sh_worker)
  : option (label * sh_state) :=
  match sh_at w with
  | ShLock =>
      if sh_mu s then None
      else Some (LTau, sh_set_worker (sh_set_mu s true) k (sh_goto w ShMd5))
  | ShMd5 =>
      Some (LTau, sh_set_worker s k
                    (ShWorker (sh_data w) (DataSignerMd5 (sh_data w)) ShUnlock (sh_ch2 w)))
  | ShUnlock =>
      Some (LTau, sh_set_worker (sh_set_mu s false) k (sh_goto w ShGo))
  | ShGo =>
      Some (LTau, sh_set_worker s k (ShWorker (sh_data w) (sh_md5 w) ShCrc SubCrc))
  | ShCrc =>
      Some (LTau, sh_set_worker s k (sh_goto w (ShRecv (DataSignerCrc32 (sh_data w)))))
  | ShRecv crc =>
      match sh_ch2 w with
      | SubSend v =>
          Some (LTau, sh_set_worker s k
                        (ShWorker (sh_data w) (sh_md5 w) (ShSend (crc +:+ "~" +:+ v)) SubExit))
      | _ => None
      end
  | ShSend res =>
      Some (LSend (VString res), sh_set_worker s k (sh_goto w ShDone))
  | ShDone =>
      match sh_wg s with
      | S n => Some (LTau, sh_set_worker (sh_set_wg s n) k (sh_goto w ShExit))
      | O => None
      end
  | ShExit => None
  end.

Definition sh_sub_step (s : sh_state) (k : nat) (w : sh_worker)
  : option (label * sh_state) :=
  match sh_ch2 w with
  | SubCrc =>
      Some (LTau, sh_set_worker s k
                    (ShWorker (sh_data w) (sh_md5 w) (sh_at w)
                              (SubSend (DataSignerCrc32 (sh_md5 w)))))
  | _ => None
  end.

Definition sh_step (s : sh_state) (t : tid) (i : input)
  : option (label * sh_state) :=
  match t with
  | Main => sh_main_step s i
  | Worker k =>
      match i with
      | INone => w ← sh_workers s !! k; sh_worker_step s k w
      | _ => None
      end
  | Sub k 0 =>
      match i with
      | INone => w ← sh_workers s !! k; sh_sub_step s k w
      | _ => None
      end
  | Sub _ _ => None
  end.

Definition SingleHash : job := Job sh_state (ShState MLoop false 0 []) sh_step.

(** What one item contributes (line 32). *)
Definition singleHashOf (data : string) : string :=
  DataSignerCrc32 data +:+ "~" +:+ DataSignerCrc32 (DataSignerMd5 data).

(** Calls to [DataSignerMd5] that have started and not yet returned. *)
Definition md5_in_flight (s : sh_state) : nat :=
  count (λ w, bool_decide (sh_at w = ShMd5)) (sh_workers s).


(** ** MultiHash (signer.go, lines 38-63) *)

Definition numHashes : nat := 6.

Inductive mh_pc :=
| MhInit                (* 48-51: var multiRes [numHashes]string; wgIn.Add(numHashes) *)
| MhFor (i : nat)       (* 52-57: for i := 0; i < numHashes; i++ { go func(i) } *)
| MhWaitIn              (* 58: wgIn.Wait() *)
| MhSend (res : string) (* 59: out <- strings.Join(multiRes[:], "") *)
| MhDone                (* 47: deferred wg.Done() *)
| MhExit.

#[global] Instance mh_pc_eq_dec : EqDecision mh_pc.
Proof. solve_decision. Defined.

Inductive mh_sub :=
| MsCrc                 (* 55: multiRes[i] = DataSignerCrc32(strconv.Itoa(i) + data) *)
| MsDone                (* 54: deferred wgIn.Done() *)
| MsExit.

#[global] Instance mh_sub_eq_dec : EqDecision mh_sub.
Proof. solve_decision. Defined.

Record mh_worker := MhWorker {
  mh_data : string;
  multiRes : list string;
  wgIn : nat;
  mh_at : mh_pc;
  mh_subs : list mh_sub     (* the goroutine of index i is at position i *)
}.

Record mh_state := MhState {
  mh_main : mpc;
  mh_wg : nat;
  mh_workers : list mh_worker
}.

Definition mh_set_main (s : mh_state) (m : mpc) : mh_state :=
  MhState m (mh_wg s) (mh_workers s).

Definition mh_set_worker (s : mh_state) (k : nat) (w : mh_worker) : mh_state :=
  MhState (mh_main s) (mh_wg s) (<[k:=w]> (mh_workers s)).

Definition mh_set_wg (s : mh_state) (n : nat) : mh_state :=
  MhState (mh_main s) n (mh_workers s).

Definition mh_goto (w : mh_worker) (pc : mh_pc) : mh_worker :=
  MhWorker (mh_data w) (multiRes w) (wgIn w) pc (mh_subs w).

(** Lines 45-46: [wg.Add(1); go func(data)]. *)
Definition mh_spawn (s : mh_state) (data : string) : mh_state :=
  MhState MLoop (S (mh_wg s)) (mh_workers s ++ [MhWorker data [] 0 MhInit []]).

Definition mh_main_step (s : mh_state) (i : input) : option (label * mh_state) :=
  match mh_main s, i with
  | MLoop, IVal v => Some (LRecv v, mh_set_main s (MItem v))
  | MLoop, IClosed => Some (LEnd, mh_set_main s MWait)
  | MItem (VString data), INone => Some (LTau, mh_spawn s data)
  | MItem _, INone => Some (LPanic typeAssertionFailed, mh_set_main s MPanic)
  | MWait, INone =>
      if decide (mh_wg s = 0) then Some (LRet, mh_set_main s MRet) else None
  | _, _ => None
  end.

Definition mh_worker_step (s : mh_state) (k : nat) (w : mh_worker)
  : option (label * mh_state) :=
  match mh_at w with
  | MhInit =>
      Some (LTau, mh_set_worker s k
                    (MhWorker (mh_data w) (replicate numHashes "")
                              (wgIn w + numHashes) (MhFor 0) (mh_subs w)))
  | MhFor i =>
      if decide (i < numHashes) then
        Some (LTau, mh_set_worker s k
                      (MhWorker (mh_data w) (multiRes w) (wgIn w)
                                (MhFor (S i)) (mh_subs w ++ [MsCrc])))
      else Some (LTau, mh_set_worker s k (mh_goto w MhWaitIn))
  | MhWaitIn =>
      if decide (wgIn w = 0) then
        Some (LTau, mh_set_worker s k (mh_goto w (MhSend (Join (multiRes w) ""))))
      else None
  | MhSend res =>
      Some (LSend (VString res), mh_set_worker s k (mh_goto w MhDone))
  | MhDone =>
      match mh_wg s with
      | S n => Some (LTau, mh_set_worker (mh_set_wg s n) k (mh_goto w MhExit))
      | O => None
      end
  | MhExit => None
  end.

Definition mh_sub_step (s : mh_state) (k : nat) (w : mh_worker) (i : nat)
  : option (label * mh_state) :=
  match mh_subs w !! i with
  | Some MsCrc =>
      if decide (i < length (multiRes w)) then
        Some (LTau, mh_set_worker s k
                      (MhWorker (mh_data w)
                         (<[i := DataSignerCrc32 (Itoa (Z.of_nat i) +:+ mh_data w)]> (multiRes w))
                         (wgIn w) (mh_at w) (<[i := MsDone]> (mh_subs w))))
      else None
  | Some MsDone =>
      match wgIn w with
      | S n =>
          Some (LTau, mh_set_worker s k
                        (MhWorker (mh_data w) (multiRes w) n (mh_at w)
                                  (<[i := MsExit]> (mh_subs w))))
      | O => None
      end
  | _ => None
  end.

Definition mh_step (s : mh_state) (t : tid) (i : input)
  : option (label * mh_state) :=
  match t, i with
  | Main, _ => mh_main_step s i
  | Worker k, INone => w ← mh_workers s !! k; mh_worker_step s k w
  | Sub k n, INone => w ← mh_workers s !! k; mh_sub_step s k w n
  | _, _ => None
  end.

Definition MultiHash : job := Job mh_state (MhState MLoop 0 []) mh_step.

(** What one item contributes: the six salted hashes in index order. *)
Definition multiHashOf (data : string) : string :=
  Join ((λ i, DataSignerCrc32 (Itoa (Z.of_nat i) +:+ data)) <$> seq 0 numHashes) "".

(** ** CombineResults (signer.go, lines 65-76) *)

Inductive cr_pc :=
| CrLoop                (* 67: for unit := range in *)
| CrItem (u : value)    (* 68-72: type assertion, append *)
| CrSort                (* 74: sort.Strings(result) *)
| CrSend                (* 75: out <- strings.Join(result, "_") *)
| CrDone                (* 76: return *)
| CrRet
| CrPanic.

#[global] Instance cr_pc_eq_dec : EqDecision cr_pc.
Proof. solve_decision. Defined.

Record cr_state := CrState {
  cr_at : cr_pc;
  result : list string
}.

Definition cr_step (s : cr_state) (t : tid) (i : input)
  : option (label * cr_state) :=
  match t, cr_at s, i with
  | Main, CrLoop, IVal v => Some (LRecv v, CrState (CrItem v) (result s))
  | Main, CrLoop, IClosed => Some (LEnd, CrState CrSort (result s))
  | Main, CrItem (VString data), INone =>
      Some (LTau, CrState CrLoop (result s ++ [data]))
  | Main, CrItem _, INone => Some (LPanic typeAssertionFailed, CrState CrPanic (result s))
  | Main, CrSort, INone => Some (LTau, CrState CrSend (sortStrings (result s)))
  | Main, CrSend, INone =>
      Some (LSend (VString (Join (result s) "_")), CrState CrDone (result s))
  | Main, CrDone, INone => Some (LRet, CrState CrRet (result s))
  | _, _, _ => None
  end.

Definition CombineResults : job := Job cr_state (CrState CrLoop []) cr_step.


(** ** The pipeline of the assignment *)

(** The pipeline of the assignment: integers, [SingleHash], [MultiHash],
    [CombineResults], one final string. *)
Definition signer (vals : list value) : list job :=
  [produce vals; SingleHash; MultiHash; CombineResults; consume].


(** ** Invariants of SingleHash *)

(** The worker holds [mu]. *)
Definition sh_holds (w : sh_worker) : bool :=
  match sh_at w with ShMd5 | ShUnlock => true | _ => false end.

(** The worker has not yet called [wg.Done]. *)
Definition sh_live (w : sh_worker) : bool :=
  match sh_at w with ShExit => false | _ => true end.

(** The worker has sent its result. *)
Definition sh_sent (w : sh_worker) : bool :=
  match sh_at w with ShDone | ShExit => true | _ => false end.

Definition sh_outs (ws : list sh_worker) : list value :=
  ws ≫= λ w, if sh_sent w then [VString (singleHashOf (sh_data w))] else [].

Definition sh_md5_set (w : sh_worker) : Prop :=
  sh_md5 w = DataSignerMd5 (sh_data w).

Definition sh_ch2_busy (w : sh_worker) : Prop :=
  sh_ch2 w = SubCrc \/ sh_ch2 w = SubSend (DataSignerCrc32 (sh_md5 w)).

Definition sh_worker_ok (w : sh_worker) : Prop :=
  match sh_at w with
  | ShLock | ShMd5 => sh_ch2 w = SubNone
  | ShUnlock | ShGo => sh_md5_set w /\ sh_ch2 w = SubNone
  | ShCrc => sh_md5_set w /\ sh_ch2_busy w
  | ShRecv crc =>
      sh_md5_set w /\ crc = DataSignerCrc32 (sh_data w) /\ sh_ch2_busy w
  | ShSend res => res = singleHashOf (sh_data w) /\ sh_ch2 w = SubExit
  | ShDone | ShExit => sh_ch2 w = SubExit
  end.

(** What the stage function has received, given where it stands and the
    integers [nums] it has started workers for. *)
Definition sh_recvd (m : mpc) (nums : list Z) (r : list value) : Prop :=
  match m with
  | MLoop | MWait | MRet => r = VInt <$> nums
  | MItem v => r = (VInt <$> nums) ++ [v]
  | MPanic => exists v, r = (VInt <$> nums) ++ [v] /\ forall n, v <> VInt n
  end.

Record sh_inv (ls : list label) (s : sh_state) : Prop := ShInv {
  sh_inv_ok : Forall sh_worker_ok (sh_workers s);
  sh_inv_mu : count sh_holds (sh_workers s) = Nat.b2n (sh_mu s);
  sh_inv_wg : sh_wg s = count sh_live (sh_workers s);
  sh_inv_out : sends ls ≡ₚ sh_outs (sh_workers s);
  sh_inv_in : exists nums,
      sh_data <$> sh_workers s = Itoa <$> nums /\ sh_recvd (sh_main s) nums (recvs ls);
  sh_inv_ret : sh_main s = MRet -> sh_wg s = 0
}.

(** ** Invariants of MultiHash *)

Definition mh_live (w : mh_worker) : bool :=
  match mh_at w with MhExit => false | _ => true end.

Definition mh_sent (w : mh_worker) : bool :=
  match mh_at w with MhDone | MhExit => true | _ => false end.

Definition mh_outs (ws : list mh_worker) : list value :=
  ws ≫= λ w, if mh_sent w then [VString (multiHashOf (mh_data w))] else [].

Definition ms_exited (sb : mh_sub) : bool :=
  match sb with MsExit => true | _ => false end.

(** The hash salted with index [i]. *)
Definition saltedHash (data : string) (i : nat) : string :=
  DataSignerCrc32 (Itoa (Z.of_nat i) +:+ data).

(** What [multiRes[i]] holds, given where the goroutine of index [i] is. *)
Definition mh_slot (data : string) (i : nat) (sb : option mh_sub) : string :=
  match sb with
  | Some MsDone | Some MsExit => saltedHash data i
  | _ => ""
  end.

Definition mh_started (w : mh_worker) : Prop :=
  length (multiRes w) = numHashes /\
  (forall i, i < numHashes ->
     multiRes w !! i = Some (mh_slot (mh_data w) i (mh_subs w !! i))) /\
  wgIn w + count ms_exited (mh_subs w) = numHashes.

Definition mh_worker_ok (w : mh_worker) : Prop :=
  match mh_at w with
  | MhInit => multiRes w = [] /\ wgIn w = 0 /\ mh_subs w = []
  | MhFor i => mh_started w /\ length (mh_subs w) = i /\ i <= numHashes
  | MhWaitIn => mh_started w /\ length (mh_subs w) = numHashes
  | MhSend res =>
      mh_started w /\ length (mh_subs w) = numHashes /\ wgIn w = 0 /\
      res = multiHashOf (mh_data w)
  | MhDone | MhExit =>
      mh_started w /\ length (mh_subs w) = numHashes /\ wgIn w = 0
  end.

Definition mh_recvd (m : mpc) (strs : list string) (r : list value) : Prop :=
  match m with
  | MLoop | MWait | MRet => r = VString <$> strs
  | MItem v => r = (VString <$> strs) ++ [v]
  | MPanic => exists v, r = (VString <$> strs) ++ [v] /\ forall d, v <> VString d
  end.

Record mh_inv (ls : list label) (s : mh_state) : Prop := MhInv {
  mh_inv_ok : Forall mh_worker_ok (mh_workers s);
  mh_inv_wg : mh_wg s = count mh_live (mh_workers s);
  mh_inv_out : sends ls ≡ₚ mh_outs (mh_workers s);
  mh_inv_in : exists strs,
      mh_data <$> mh_workers s = strs /\ mh_recvd (mh_main s) strs (recvs ls);
  mh_inv_ret : mh_main s = MRet -> mh_wg s = 0
}.

(** ** Invariants of CombineResults and of the caller's jobs *)

Definition cr_inv (ls : list label) (s : cr_state) : Prop :=
  match cr_at s with
  | CrLoop =>
      recvs ls = VString <$> result s /\ sends ls = [] /\ LEnd ∉ ls
  | CrItem v =>
      recvs ls = (VString <$> result s) ++ [v] /\ sends ls = [] /\ LEnd ∉ ls
  | CrPanic =>
      (exists v, recvs ls = (VString <$> result s) ++ [v] /\ forall d, v <> VString d) /\
      sends ls = [] /\ LEnd ∉ ls
  | CrSort =>
      recvs ls = VString <$> result s /\ sends ls = [] /\ LEnd ∈ ls
  | CrSend =>
      (exists strs, recvs ls = VString <$> strs /\ result s = sortStrings strs) /\
      sends ls = [] /\ LEnd ∈ ls
  | CrDone | CrRet =>
      (exists strs, recvs ls = VString <$> strs /\
         sends ls = [VString (Join (sortStrings strs) "_")]) /\
      LEnd ∈ ls
  end.

Definition produce_inv (vals : list value) (ls : list label) (s : feed_state) : Prop :=
  recvs ls = [] /\
  match s with
  | Feeding rest => sends ls ++ rest = vals
  | Fed => sends ls = vals
  end.

Definition consume_inv (ls : list label) (s : sink_state) : Prop :=
  got s = recvs ls /\ sends ls = [].

(** ** Invariants of ExecutePipeline *)

(** The goroutine has closed its output channel. *)
Definition has_closed (ph : wphase) : bool :=
  match ph with WDone _ | WExit | WFatal _ => true | _ => false end.

(** The goroutine has not yet called [wg.Done()]. *)
Definition pending (w : worker) : bool :=
  match wphase_of w with WRun | WClose _ | WDone _ => true | _ => false end.

(** The input channel of the job at position [a]: nil for the first job, the
    output channel of its predecessor for the others. *)
Definition chIn_of (a : nat) : option nat :=
  match a with O => None | S a' => Some a' end.

(** How the goroutine left the job function, as its history shows it. *)
Definition left_by (ph : wphase) (hist : list label) : Prop :=
  match ph with
  | WRun => True
  | WClose None | WDone None | WExit => LRet ∈ hist
  | WClose (Some msg) | WDone (Some msg) | WFatal msg => LPanic msg ∈ hist
  end.

Record winv (p : pstate) (a : nat) (w : worker) : Prop := WInv {
  w_out : wOut w = a;
  w_in : wIn w = chIn_of a;
  w_chan : chans p !! a = Some (has_closed (wphase_of w));
  w_hist : reaches (wjob w) (whist w) (wst w);
  w_left : left_by (wphase_of w) (whist w);
  w_recv : recvs (whist w) =
           match a with
           | O => []
           | S a' => default [] ((λ w', sends (whist w')) <$> workers p !! a')
           end;
  w_send : workers p !! S a = None -> sends (whist w) = [];
  w_end : LEnd ∈ whist w ->
          exists a' w', a = S a' /\ workers p !! a' = Some w' /\
                        has_closed (wphase_of w') = true
}.

Definition exec_inv (jobs : list job) (p : pstate) : Prop :=
  match exec p with
  | EStart js =>
      js = jobs /\ workers p = [] /\ pwg p = 0 /\
      (crashed p = None -> chans p = []) /\ (crashed p <> None -> js = [])
  | EFor c js =>
      jobs = (wjob <$> workers p) ++ js /\ S c = length (workers p) /\
      length (chans p) = length (workers p)
  | EWait =>
      jobs = wjob <$> workers p /\ jobs <> [] /\
      length (chans p) = length (workers p)
  | EReturned =>
      jobs = wjob <$> workers p /\ jobs <> [] /\
      length (chans p) = length (workers p) /\ pwg p = 0
  end.

Record pinv (jobs : list job) (p : pstate) : Prop := PInv {
  pi_workers : forall a w, workers p !! a = Some w -> winv p a w;
  pi_wg : pwg p = count pending (workers p);
  pi_exec : exec_inv jobs p
}.

Definition is_int (v : value) : Prop := exists n, v = VInt n.
Definition is_string (v : value) : Prop := exists d, v = VString d.

(** ** How a job function has left, as seen in its state *)

Definition mpc_ctl (ls : list label) (m : mpc) : Prop :=
  (LRet ∈ ls -> m = MRet) /\
  (forall msg, LPanic msg ∈ ls -> m = MPanic) /\
  (m = MWait \/ m = MRet -> LEnd ∈ ls) /\
  (m = MPanic -> LPanic typeAssertionFailed ∈ ls).

Definition sh_ctl (ls : list label) (s : sh_state) : Prop := mpc_ctl ls (sh_main s).

Definition mh_ctl (ls : list label) (s : mh_state) : Prop := mpc_ctl ls (mh_main s).

Definition cr_ctl (ls : list label) (s : cr_state) : Prop :=
  (LRet ∈ ls -> cr_at s = CrRet) /\
  (forall msg, LPanic msg ∈ ls -> cr_at s = CrPanic) /\
  (cr_at s = CrPanic -> LPanic typeAssertionFailed ∈ ls).

(** What one move does to the program counter of a stage function [m]:
    returning and panicking are final, and show in the label. *)
Definition ctl_step (m m' : mpc) (l : label) : Prop :=
  (m = MRet -> m' = MRet) /\ (m = MPanic -> m' = MPanic) /\
  (l = LRet -> m' = MRet) /\ (forall msg, l = LPanic msg -> m' = MPanic) /\
  (m' = MWait \/ m' = MRet -> m = MWait \/ m = MRet \/ l = LEnd) /\
  (m' = MPanic -> m = MPanic \/ l = LPanic typeAssertionFailed).

Definition produce_ctl (ls : list label) (s : feed_state) : Prop :=
  (LRet ∈ ls -> s = Fed) /\ (forall msg, LPanic msg ∉ ls).

Definition consume_ctl (ls : list label) (s : sink_state) : Prop :=
  forall msg, LPanic msg ∉ ls.

(** ** The signature and where it arrives *)

(** The string the pipeline is to produce for the integers [nums]. *)
Definition signatureOf (nums : list Z) : string :=
  Join (sortStrings ((λ n, multiHashOf (singleHashOf (Itoa n))) <$> nums)) "_".

(** What job [a] has received so far. *)
Definition received_by (p : pstate) (a : nat) : list value :=
  default [] ((λ w, recvs (whist w)) <$> workers p !! a).

(** What the output sink of [signer] -- its fifth job -- has received. *)
Definition delivered (p : pstate) : list value := received_by p 4.

Definition str_of (v : value) : string :=
  match v with VString d => d | _ => "" end.

(** ** Schedules that take one item through a stage *)

Definition steps (t : tid) (n : nat) : schedule := replicate n (t, INone).

(** One integer through [SingleHash]; [k] is the number of workers started
    before. *)
Definition sh_item_sched (k : nat) (num : Z) : schedule :=
  [(Main, IVal (VInt num)); (Main, INone)] ++ steps (Worker k) 5 ++
  [(Sub k 0, INone)] ++ steps (Worker k) 3.

Definition closing_sched : schedule := [(Main, IClosed); (Main, INone)].

(** One string through [MultiHash]: the worker starts its six goroutines,
    they run in the order [order], the worker joins and sends. *)
Definition mh_item_sched_in (k : nat) (data : string) (order : list nat) : schedule :=
  [(Main, IVal (VString data)); (Main, INone)] ++ steps (Worker k) 8 ++
  (order ≫= λ i, steps (Sub k i) 2) ++ steps (Worker k) 3.

Definition mh_item_sched (k : nat) (data : string) : schedule :=
  mh_item_sched_in k data (seq 0 numHashes).

(** ** The running pipeline of [signer], all five goroutines in their job *)

(** The producer still has [rest] to send; [s1], [s2], [s3] are the states
    of the three stages; the sink has received nothing. *)
Definition sig_at (vals rest : list value) (s1 : sh_state) (s2 : mh_state)
    (s3 : cr_state) (p : pstate) : Prop :=
  exists h0 h1 h2 h3 h4,
    p = PState EWait 5 [false; false; false; false; false]
          [MkWorker (produce vals) (Feeding rest) None 0 WRun h0;
           MkWorker SingleHash s1 (Some 0) 1 WRun h1;
           MkWorker MultiHash s2 (Some 1) 2 WRun h2;
           MkWorker CombineResults s3 (Some 2) 3 WRun h3;
           MkWorker consume (Sink [] true false) (Some 3) 4 WRun h4]
          None.

Definition silent (ts : list tid) : schedule := (λ t, (t, INone)) <$> ts.

(** The pipeline is between two items: every stage function is at its
    [range] loop and no worker is alive. *)
Definition sig_idle (vals rest : list value) (p : pstate) : Prop :=
  exists ws1 ws2 res,
    sig_at vals rest (ShState MLoop false 0 ws1) (MhState MLoop 0 ws2)
           (CrState CrLoop res) p.


(** ** A job function that met a value of the wrong type *)

(** The job function has not returned; the only move it can still make is
    the panic; and it has panicked or is about to. *)
Definition aborted (j : job) (ls : list label) (s : jstate j) : Prop :=
  (LRet ∉ ls) /\
  (forall i l s', jstep j s Main i = Some (l, s') ->
                  i = INone /\ l = LPanic typeAssertionFailed) /\
  (LPanic typeAssertionFailed ∈ ls \/
   exists s', jstep j s Main INone = Some (LPanic typeAssertionFailed, s')).

(** The goroutine is running its deferred calls because of a panic. *)
Definition unwinding (ph : wphase) : Prop :=
  match ph with
  | WClose (Some _) | WDone (Some _) | WFatal _ => True
  | _ => False
  end.

Definition panic_inv (p : pstate) : Prop :=
  forall a w msg, workers p !! a = Some w -> LPanic msg ∈ whist w ->
                  crashed p <> None \/ unwinding (wphase_of w).

(** ** Two sentences of the specification, as they are written *)

(** "If a value of the wrong type reaches a stage ... the run produces no
    final output": once a job has panicked, the sink has received
    nothing. *)
Definition fault_leaves_no_output : Prop :=
  forall vals es p a w msg,
    prun (ExecutePipeline (signer vals)) es = Some p ->
    workers p !! a = Some w -> LPanic msg ∈ whist w ->
    delivered p = [].

(** ** Schedules of single stages, for concrete runs *)

(** SingleHash is given 7 and -3; the worker of -3 runs first, then the
    worker of 7; then the input is closed. *)
Definition sh_demo_sched : schedule :=
  [(Main, IVal (VInt 7)); (Main, INone); (Main, IVal (VInt (-3))); (Main, INone)] ++
  steps (Worker 1) 5 ++ [(Sub 1 0, INone)] ++ steps (Worker 1) 3 ++
  steps (Worker 0) 5 ++ [(Sub 0 0, INone)] ++ steps (Worker 0) 3 ++
  closing_sched.

(** SingleHash is given 0 and 1, and the first worker takes the mutex. *)
Definition sh_two_items_sched : schedule :=
  [(Main, IVal (VInt 0)); (Main, INone); (Main, IVal (VInt 1)); (Main, INone);
   (Worker 0, INone)].

(** SingleHash is given 1 and then a string. *)
Definition sh_fault_sched : schedule :=
  [(Main, IVal (VInt 1)); (Main, INone); (Main, IVal (VString "1"))].

(** MultiHash is given ["x"]; the six goroutines finish in the order
    5, 3, 1, 0, 2, 4. *)
Definition mh_demo_sched : schedule :=
  mh_item_sched_in 0 "x" [5; 3; 1; 0; 2; 4] ++ closing_sched.

(** CombineResults is given ["b"], ["a"], ["ab"]. *)
Definition cr_demo_sched : schedule :=
  [(Main, IVal (VString "b")); (Main, INone);
   (Main, IVal (VString "a")); (Main, INone);
   (Main, IVal (VString "ab")); (Main, INone);
   (Main, IClosed); (Main, INone); (Main, INone); (Main, INone)].

(** ** The work a stage still has to do

    Every goroutine of a stage runs straight through its statements, so the
    number of moves it still has to make can be read off its program
    counter. *)

(** The goroutine of line 29-31 has one move to make once it is started. *)
Definition sh_sub_left (sb : sh_sub) : nat :=
  match sb with SubCrc => 1 | _ => 0 end.

(** Moves left to a worker of SingleHash and to the goroutine it starts. *)
Definition sh_steps_left (w : sh_worker) : nat :=
  match sh_at w with
  | ShLock => 9
  | ShMd5 => 8
  | ShUnlock => 7
  | ShGo => 6
  | ShCrc => 4 + sh_sub_left (sh_ch2 w)
  | ShRecv _ => 3 + sh_sub_left (sh_ch2 w)
  | ShSend _ => 2
  | ShDone => 1
  | ShExit => 0
  end.


Definition ms_steps_left (sb : mh_sub) : nat :=
  match sb with MsCrc => 2 | MsDone => 1 | MsExit => 0 end.

(** Moves left to a worker of MultiHash and to the goroutines it has
    started and has yet to start. *)
Definition mh_steps_left (w : mh_worker) : nat :=
  match mh_at w with
  | MhInit => 23
  | MhFor i => 3 * (numHashes - i) + 4
  | MhWaitIn => 3
  | MhSend _ => 2
  | MhDone => 1
  | MhExit => 0
  end + sum_list_with ms_steps_left (mh_subs w).


(** ** A goroutine that is inside its job function *)

(** As long as the goroutine of a job is at [worker(chIn, chOut)], the job
    function has not returned. *)
Definition in_job (p : pstate) : Prop :=
  forall a w, workers p !! a = Some w -> wphase_of w = WRun -> LRet ∉ whist w.

(** ** Counting moves

    What a stage function still has to do at most, given where it stands;
    [per_item] is what one worker and its goroutines do. *)
Definition mpc_left (per_item : nat) (m : mpc) : nat :=
  match m with
  | MLoop => 2
  | MItem _ => per_item + 3
  | MWait => 1
  | MRet | MPanic => 0
  end.

Definition sh_all_left (s : sh_state) : nat :=
  mpc_left 9 (sh_main s) + sum_list_with sh_steps_left (sh_workers s).

Definition mh_all_left (s : mh_state) : nat :=
  mpc_left 23 (mh_main s) + sum_list_with mh_steps_left (mh_workers s).

Definition cr_all_left (s : cr_state) : nat :=
  match cr_at s with
  | CrLoop => 4
  | CrItem _ => 5
  | CrSort => 3
  | CrSend => 2
  | CrDone => 1
  | CrRet | CrPanic => 0
  end.

Definition feed_left (s : feed_state) : nat :=
  match s with Feeding rest => length rest + 1 | Fed => 0 end.

Definition sink_left (s : sink_state) : nat :=
  if sink_open s then 2 else if sink_ret s then 0 else 1.

(** The moves made so far in a run of [ExecutePipeline]: every event adds
    to the history of a job, takes a goroutine to its next deferred call,
    or is a statement of [ExecutePipeline] itself. *)
Definition phase_rank (ph : wphase) : nat :=
  match ph with
  | WRun => 0
  | WClose _ => 1
  | WDone _ => 2
  | WExit | WFatal _ => 3
  end.

Definition worker_rank (w : worker) : nat :=
  length (whist w) + phase_rank (wphase_of w).

Definition exec_rank (e : epc) : nat :=
  match e with
  | EStart _ | EFor _ _ => 0
  | EWait => 1
  | EReturned => 2
  end.

Definition moves_made (p : pstate) : nat :=
  exec_rank (exec p) + length (workers p) +
  (match crashed p with Some _ => 1 | None => 0 end) +
  sum_list_with worker_rank (workers p).

(** ** Schedules for concrete runs of these properties *)


(** MultiHash is given ["x"], the input is closed, and the worker starts
    its first two goroutines. *)
Definition mh_closed_sched : schedule :=
  [(Main, IVal (VString "x")); (Main, INone); (Main, IClosed)] ++ steps (Worker 0) 3.



(** * Proofs *)

(** ** Lists, counting, schedules *)

Lemma count_app {A} (f : A -> bool) (l1 l2 : list A) :
  count f (l1 ++ l2) = count f l1 + count f l2.
Proof. induction l1 as [|x l1 IH]; simpl; [done | rewrite IH; lia]. Qed.

Lemma count_zero {A} (f : A -> bool) (l : list A) :
  count f l = 0 -> Forall (λ x, f x = false) l.
Proof.
  induction l as [|x l IH]; simpl; intros H; constructor.
  - destruct (f x); [lia | done].
  - apply IH. destruct (f x); lia.
Qed.

(** Writing slot [k] of a list replaces the element standing there. *)
Lemma insert_split {A} (l : list A) (k : nat) (x y : A) :
  l !! k = Some x ->
  exists l1 l2, l = l1 ++ x :: l2 /\ <[k:=y]> l = l1 ++ y :: l2 /\ length l1 = k.
Proof.
  intros H. exists (take k l), (drop (S k) l).
  pose proof (lookup_lt_Some _ _ _ H) as Hlt.
  split; [by rewrite take_drop_middle |].
  split; [by apply insert_take_drop |].
  rewrite length_take. lia.
Qed.

Lemma recvs_app (l1 l2 : list label) : recvs (l1 ++ l2) = recvs l1 ++ recvs l2.
Proof. apply bind_app. Qed.

Lemma sends_app (l1 l2 : list label) : sends (l1 ++ l2) = sends l1 ++ sends l2.
Proof. apply bind_app. Qed.

Lemma recvs_snoc (ls : list label) (l : label) : recvs (ls ++ [l]) = recvs ls ++ recv_of l.
Proof. rewrite recvs_app. unfold recvs at 2. simpl. by rewrite app_nil_r. Qed.

Lemma sends_snoc (ls : list label) (l : label) : sends (ls ++ [l]) = sends ls ++ send_of l.
Proof. rewrite sends_app. unfold sends at 2. simpl. by rewrite app_nil_r. Qed.

Lemma run_app (j : job) (s : jstate j) (sc1 sc2 : schedule) ls1 s1 ls2 s2 :
  run j s sc1 = Some (ls1, s1) ->
  run j s1 sc2 = Some (ls2, s2) ->
  run j s (sc1 ++ sc2) = Some (ls1 ++ ls2, s2).
Proof.
  revert s ls1. induction sc1 as [|[t i] sc1 IH]; simpl; intros s ls1 H1 H2.
  - by simplify_eq.
  - destruct (jstep j s t i) as [[l s']|]; [|done].
    destruct (run j s' sc1) as [[ls s'']|] eqn:E; [|done].
    simplify_eq. by rewrite (IH _ _ E H2).
Qed.

Lemma reaches_init (j : job) : reaches j [] (jinit j).
Proof. by exists []. Qed.

Lemma reaches_step (j : job) ls s t i l s' :
  reaches j ls s -> jstep j s t i = Some (l, s') -> reaches j (ls ++ [l]) s'.
Proof.
  intros [sched H] Hs. exists (sched ++ [(t, i)]).
  apply (run_app _ _ _ _ _ _ _ _ H). simpl. by rewrite Hs.
Qed.

(** A property that holds at the start and survives every move holds in
    every state a schedule leads to. *)
Lemma reaches_ind (j : job) (I : list label -> jstate j -> Prop) :
  I [] (jinit j) ->
  (forall ls s t i l s', I ls s -> jstep j s t i = Some (l, s') -> I (ls ++ [l]) s') ->
  forall ls s, reaches j ls s -> I ls s.
Proof.
  intros H0 Hstep ls s [sched H].
  cut (forall sc s0 ls0 ls1 s1, I ls0 s0 -> run j s0 sc = Some (ls1, s1) -> I (ls0 ++ ls1) s1).
  { intros Hc. apply (Hc sched (jinit j) [] ls s H0 H). }
  clear -Hstep. induction sc as [|[t i] sc IH]; simpl; intros s0 ls0 ls1 s1 HI Hr.
  - simplify_eq. by rewrite app_nil_r.
  - destruct (jstep j s0 t i) as [[l s']|] eqn:Es; [|done].
    destruct (run j s' sc) as [[ls s'']|] eqn:E; [|done]. simplify_eq.
    replace (ls0 ++ l :: ls) with ((ls0 ++ [l]) ++ ls) by by rewrite <- app_assoc.
    eapply IH; [|done]. by eapply Hstep.
Qed.

(** ** SingleHash *)

Lemma sh_outs_app (l1 l2 : list sh_worker) : sh_outs (l1 ++ l2) = sh_outs l1 ++ sh_outs l2.
Proof. apply bind_app. Qed.

Lemma sh_outs_cons (w : sh_worker) (l : list sh_worker) :
  sh_outs (w :: l) =
  (if sh_sent w then [VString (singleHashOf (sh_data w))] else []) ++ sh_outs l.
Proof. done. Qed.

Lemma sh_inv_init : sh_inv [] (jinit SingleHash).
Proof.
  split; simpl; try done.
  by exists [].
Qed.

(** A worker or its helper goroutine moves: the worker in slot [k] is
    replaced, the stage function stays where it is. *)
Lemma sh_inv_worker ls s k w w' mu' wg' (l : label) :
  sh_inv ls s ->
  sh_workers s !! k = Some w ->
  sh_data w' = sh_data w ->
  sh_worker_ok w' ->
  count sh_holds [w'] + Nat.b2n (sh_mu s) = count sh_holds [w] + Nat.b2n mu' ->
  wg' + count sh_live [w] = sh_wg s + count sh_live [w'] ->
  recv_of l = [] ->
  sh_outs [w] ++ send_of l = sh_outs [w'] ->
  sh_main s <> MRet ->
  sh_inv (ls ++ [l]) (ShState (sh_main s) mu' wg' (<[k:=w']> (sh_workers s))).
Proof.
  intros [Hok Hmu Hwg Hout (nums & Hd & Hin) Hret] Hk Hdata Hw' Hmu' Hwg' Hr Hs Hm.
  destruct (insert_split _ k w w' Hk) as (l1 & l2 & E1 & E2 & _).
  rewrite E2. rewrite E1 in *. clear E1 E2.
  split; simpl.
  - apply Forall_app in Hok as [H1 H2]. inversion H2; subst.
    apply Forall_app. split; [done|]. by constructor.
  - rewrite count_app in *. simpl in *. lia.
  - rewrite count_app in *. simpl in *. lia.
  - rewrite sends_snoc, Hout.
    change (w' :: l2) with ([w'] ++ l2). change (w :: l2) with ([w] ++ l2).
    rewrite !sh_outs_app, <- Hs, <- !app_assoc.
    do 2 apply Permutation_app_head. apply Permutation_app_comm.
  - exists nums. split.
    + rewrite <- Hd. rewrite !fmap_app, !fmap_cons. by rewrite Hdata.
    + by rewrite recvs_snoc, Hr, app_nil_r.
  - done.
Qed.

(** After [wg.Wait()] has returned every worker has ended. *)
Lemma sh_all_exited ls s k w :
  sh_inv ls s -> sh_wg s = 0 -> sh_workers s !! k = Some w ->
  sh_at w = ShExit /\ sh_ch2 w = SubExit.
Proof.
  intros [Hok _ Hwg _ _ _] H0 Hk. rewrite H0 in Hwg.
  symmetry in Hwg. apply count_zero in Hwg.
  rewrite Forall_lookup in Hwg. specialize (Hwg _ _ Hk).
  rewrite Forall_lookup in Hok. specialize (Hok _ _ Hk).
  unfold sh_live in Hwg. unfold sh_worker_ok in Hok.
  destruct (sh_at w); try done.
Qed.

Lemma sh_inv_step ls s t i l s' :
  sh_inv ls s -> sh_step s t i = Some (l, s') -> sh_inv (ls ++ [l]) s'.
Proof.
  intros Hinv Hstep. destruct t as [|k|k n]; simpl in Hstep.
  - (* the stage function *)
    destruct Hinv as [Hok Hmu Hwg Hout (nums & Hd & Hin) Hret].
    unfold sh_main_step in Hstep.
    repeat case_match; simplify_eq; simpl in *.
    all: split; simpl; try done; try (by rewrite sends_snoc, app_nil_r).
    all: try (exists nums; split; [done|]; rewrite recvs_snoc, Hin; simpl;
              rewrite ?app_nil_r; by eauto).
    + apply Forall_app. split; [done|]. by repeat constructor.
    + rewrite count_app. simpl. lia.
    + rewrite count_app. simpl. lia.
    + rewrite sends_snoc, sh_outs_app. simpl. by rewrite !app_nil_r.
    + exists (nums ++ [n]). rewrite !fmap_app, Hd. split; [done|].
      by rewrite recvs_snoc, Hin, app_nil_r.
  - (* a worker *)
    destruct i; try done.
    destruct (sh_workers s !! k) as [w|] eqn:Ek; simpl in Hstep; [|done].
    assert (Hm : sh_main s <> MRet).
    { intros Hm. destruct (sh_all_exited _ _ _ _ Hinv (sh_inv_ret _ _ Hinv Hm) Ek) as [Hx _].
      unfold sh_worker_step in Hstep. by rewrite Hx in Hstep. }
    pose proof (sh_inv_ok _ _ Hinv) as Hok. rewrite Forall_lookup in Hok.
    specialize (Hok _ _ Ek). unfold sh_worker_ok in Hok.
    pose proof (sh_inv_mu _ _ Hinv) as Hmu.
    destruct (insert_split _ k w w Ek) as (l1 & l2 & E1 & _ & _).
    rewrite E1, count_app in Hmu. simpl in Hmu.
    unfold sh_worker_step in Hstep. destruct w as [d m pc sub]; simpl in *.
    destruct pc; simpl in *; repeat case_match; simplify_eq.
    all: unfold sh_set_worker, sh_set_mu, sh_set_wg, sh_goto; simpl.
    all: eapply (sh_inv_worker _ s _ _ _ _ _ _ Hinv Ek); simpl; try done.
    all: unfold sh_worker_ok, sh_md5_set, sh_ch2_busy, sh_holds in *; simpl in *.
    all: try lia.
    all: try (destruct (sh_mu s); simpl in *; lia).
    all: unfold singleHashOf; naive_solver.
  - (* the goroutine writing to ch2 *)
    destruct n; [|done]. destruct i; try done.
    destruct (sh_workers s !! k) as [w|] eqn:Ek; simpl in Hstep; [|done].
    assert (Hm : sh_main s <> MRet).
    { intros Hm. destruct (sh_all_exited _ _ _ _ Hinv (sh_inv_ret _ _ Hinv Hm) Ek) as [_ Hx].
      unfold sh_sub_step in Hstep. by rewrite Hx in Hstep. }
    pose proof (sh_inv_ok _ _ Hinv) as Hok. rewrite Forall_lookup in Hok.
    specialize (Hok _ _ Ek). unfold sh_worker_ok in Hok.
    unfold sh_sub_step in Hstep. destruct w as [d m pc sub]; simpl in *.
    destruct sub; simplify_eq.
    unfold sh_set_worker.
    eapply (sh_inv_worker _ s _ _ _ _ _ _ Hinv Ek); simpl; try done; try lia.
    all: unfold sh_worker_ok, sh_md5_set, sh_ch2_busy, sh_sent in *; simpl in *.
    all: destruct pc; naive_solver.
Qed.

Lemma sh_reaches_inv ls s : reaches SingleHash ls s -> sh_inv ls s.
Proof.
  apply (reaches_ind SingleHash sh_inv); [apply sh_inv_init|].
  intros. by eapply sh_inv_step.
Qed.

Lemma count_le {A} (f g : A -> bool) (l : list A) :
  (forall x, f x = true -> g x = true) -> count f l <= count g l.
Proof.
  intros Hfg. induction l as [|x l IH]; simpl; [done|].
  specialize (Hfg x). destruct (f x), (g x); simpl; lia.
Qed.

Lemma sh_outs_all_sent (ws : list sh_worker) :
  Forall (λ w, sh_live w = false) ws ->
  sh_outs ws = (λ d, VString (singleHashOf d)) <$> (sh_data <$> ws).
Proof.
  induction 1 as [|w ws Hw _ IH]; [done|].
  rewrite sh_outs_cons, IH. unfold sh_live, sh_sent in *.
  by destruct (sh_at w).
Qed.

(** When [SingleHash] has returned, it has received integers only and has
    sent, in some order, one string for each. *)
Lemma sh_returned ls s :
  reaches SingleHash ls s -> sh_main s = MRet ->
  exists nums, recvs ls = VInt <$> nums /\
    sends ls ≡ₚ (λ n, VString (singleHashOf (Itoa n))) <$> nums.
Proof.
  intros Hr Hm. apply sh_reaches_inv in Hr.
  destruct Hr as [Hok Hmu Hwg Hout (nums & Hd & Hin) Hret].
  exists nums. rewrite Hm in Hin. split; [done|].
  rewrite Hout, sh_outs_all_sent.
  - by rewrite Hd, <- list_fmap_compose.
  - apply count_zero. rewrite <- Hwg. by apply Hret.
Qed.

(** ** MultiHash *)

Lemma mh_outs_app (l1 l2 : list mh_worker) : mh_outs (l1 ++ l2) = mh_outs l1 ++ mh_outs l2.
Proof. apply bind_app. Qed.

Lemma mh_outs_cons (w : mh_worker) (l : list mh_worker) :
  mh_outs (w :: l) =
  (if mh_sent w then [VString (multiHashOf (mh_data w))] else []) ++ mh_outs l.
Proof. done. Qed.

Lemma mh_inv_init : mh_inv [] (jinit MultiHash).
Proof.
  split; simpl; try done.
  by exists [].
Qed.

Lemma mh_inv_worker ls s k w w' wg' (l : label) :
  mh_inv ls s ->
  mh_workers s !! k = Some w ->
  mh_data w' = mh_data w ->
  mh_worker_ok w' ->
  wg' + count mh_live [w] = mh_wg s + count mh_live [w'] ->
  recv_of l = [] ->
  mh_outs [w] ++ send_of l = mh_outs [w'] ->
  mh_main s <> MRet ->
  mh_inv (ls ++ [l]) (MhState (mh_main s) wg' (<[k:=w']> (mh_workers s))).
Proof.
  intros [Hok Hwg Hout (strs & Hd & Hin) Hret] Hk Hdata Hw' Hwg' Hr Hs Hm.
  destruct (insert_split _ k w w' Hk) as (l1 & l2 & E1 & E2 & _).
  rewrite E2. rewrite E1 in *. clear E1 E2.
  split; simpl.
  - apply Forall_app in Hok as [H1 H2]. inversion H2; subst.
    apply Forall_app. split; [done|]. by constructor.
  - rewrite count_app in *. simpl in *. lia.
  - rewrite sends_snoc, Hout.
    change (w' :: l2) with ([w'] ++ l2). change (w :: l2) with ([w] ++ l2).
    rewrite !mh_outs_app, <- Hs, <- !app_assoc.
    do 2 apply Permutation_app_head. apply Permutation_app_comm.
  - exists strs. split.
    + rewrite <- Hd. rewrite !fmap_app, !fmap_cons. by rewrite Hdata.
    + by rewrite recvs_snoc, Hr, app_nil_r.
  - done.
Qed.

Lemma count_length {A} (f : A -> bool) (l : list A) : count f l <= length l.
Proof. induction l as [|x l IH]; simpl; [done|]. destruct (f x); lia. Qed.

Lemma count_full {A} (f : A -> bool) (l : list A) :
  count f l = length l -> Forall (λ x, f x = true) l.
Proof.
  induction l as [|x l IH]; simpl; intros H; constructor.
  - pose proof (count_length f l). destruct (f x); [done | lia].
  - apply IH. pose proof (count_length f l). destruct (f x); lia.
Qed.

(** Once all six goroutines have called [wgIn.Done()], [multiRes] holds the
    six salted hashes in index order. *)
Lemma mh_all_written w :
  mh_started w -> length (mh_subs w) = numHashes -> wgIn w = 0 ->
  Forall (λ sb, sb = MsExit) (mh_subs w) /\
  multiRes w = saltedHash (mh_data w) <$> seq 0 numHashes.
Proof.
  intros (Hlen & Hslots & Hcnt) Hsubs H0.
  assert (Hall : Forall (λ sb, ms_exited sb = true) (mh_subs w)).
  { apply count_full. lia. }
  split.
  - eapply Forall_impl; [|exact Hall]. by intros [].
  - apply list_eq. intros i. destruct (decide (i < numHashes)) as [Hi|Hi].
    + rewrite (Hslots i Hi), list_lookup_fmap, lookup_seq_lt by done. simpl.
      destruct (lookup_lt_is_Some_2 (mh_subs w) i) as [sb Hsb]; [lia|].
      rewrite Hsb. rewrite Forall_lookup in Hall. specialize (Hall _ _ Hsb).
      by destruct sb.
    + rewrite !lookup_ge_None_2; [done| |lia].
      rewrite length_fmap, length_seq. lia.
Qed.

Lemma mh_all_exited ls s k w :
  mh_inv ls s -> mh_wg s = 0 -> mh_workers s !! k = Some w ->
  mh_at w = MhExit /\ Forall (λ sb, sb = MsExit) (mh_subs w).
Proof.
  intros [Hok Hwg _ _ _] H0 Hk. rewrite H0 in Hwg.
  symmetry in Hwg. apply count_zero in Hwg.
  rewrite Forall_lookup in Hwg. specialize (Hwg _ _ Hk).
  rewrite Forall_lookup in Hok. specialize (Hok _ _ Hk).
  unfold mh_live in Hwg. unfold mh_worker_ok in Hok.
  destruct (mh_at w); try done. split; [done|].
  destruct Hok as (Hs & Hl & Hz). by apply mh_all_written.
Qed.

Lemma mh_inv_main ls s i l s' :
  mh_inv ls s -> mh_main_step s i = Some (l, s') -> mh_inv (ls ++ [l]) s'.
Proof.
  intros [Hok Hwg Hout (strs & Hd & Hin) Hret] Hstep.
  unfold mh_main_step in Hstep.
  repeat case_match; simplify_eq; simpl in *.
  all: split; simpl; try done; try (by rewrite sends_snoc, app_nil_r).
  all: try (eexists; split; [done|]; rewrite recvs_snoc, Hin; simpl;
            rewrite ?app_nil_r; by eauto).
  - apply Forall_app. split; [done|]. by repeat constructor.
  - rewrite count_app. simpl. lia.
  - rewrite sends_snoc, mh_outs_app. simpl. by rewrite !app_nil_r.
  - eexists. split; [done|]. rewrite recvs_snoc, Hin, app_nil_r.
    by rewrite !fmap_app.
Qed.

Lemma mh_slot_spawn (data : string) (subs : list mh_sub) (i : nat) :
  mh_slot data i ((subs ++ [MsCrc]) !! i) = mh_slot data i (subs !! i).
Proof.
  destruct (decide (i < length subs)) as [Hi|Hi].
  - by rewrite lookup_app_l.
  - rewrite (lookup_ge_None_2 subs) by lia.
    destruct (decide (i = length subs)) as [->|Hne].
    + by rewrite list_lookup_middle.
    + rewrite lookup_ge_None_2; [done|]. rewrite length_app. simpl. lia.
Qed.

Lemma mh_inv_worker_step ls s k w l s' :
  mh_inv ls s -> mh_workers s !! k = Some w ->
  mh_worker_step s k w = Some (l, s') -> mh_inv (ls ++ [l]) s'.
Proof.
  clear DataSignerMd5.
  intros Hinv Ek Hstep.
  assert (Hm : mh_main s <> MRet).
  { intros Hm. destruct (mh_all_exited _ _ _ _ Hinv (mh_inv_ret _ _ Hinv Hm) Ek) as [Hx _].
    unfold mh_worker_step in Hstep. by rewrite Hx in Hstep. }
  pose proof (mh_inv_ok _ _ Hinv) as Hok. rewrite Forall_lookup in Hok.
  specialize (Hok _ _ Ek). unfold mh_worker_ok in Hok.
  unfold mh_worker_step in Hstep. destruct w as [d res n pc subs]; simpl in *.
  destruct pc; simpl in *; repeat case_match; simplify_eq.
  all: unfold mh_set_worker, mh_set_wg, mh_goto; simpl.
  all: eapply (mh_inv_worker _ s _ _ _ _ _ Hinv Ek); simpl; try done; try lia.
  all: unfold mh_worker_ok, mh_started in *; simpl in *.
  - (* MhInit *)
    destruct Hok as (-> & -> & ->). simpl. repeat split; try lia.
    intros i Hi. unfold numHashes in Hi.
    do 6 (destruct i as [|i]; [done|]). lia.
  - (* MhFor, one more goroutine *)
    destruct Hok as ((Hlen & Hslots & Hcnt) & Hsubs & Hle).
    rewrite count_app, length_app. simpl. repeat split; try lia.
    intros j Hj. rewrite mh_slot_spawn. by apply Hslots.
  - (* MhFor, loop ends *)
    destruct Hok as (Hst & Hsubs & Hle). split; [done|]. lia.
  - (* MhWaitIn *)
    destruct Hok as (Hst & Hsubs). repeat split; try apply Hst; try done.
    destruct (mh_all_written (MhWorker d res 0 MhWaitIn subs)) as [_ Hres]; try done.
    simpl in Hres. by rewrite Hres.
  - (* MhSend *)
    tauto.
  - (* MhSend, the value sent *)
    destruct Hok as (_ & _ & _ & ->). done.
Qed.

Lemma count_insert {A} (f : A -> bool) (l : list A) (i : nat) (x y : A) :
  l !! i = Some x ->
  count f (<[i:=y]> l) + count f [x] = count f l + count f [y].
Proof.
  intros H. destruct (insert_split _ i x y H) as (l1 & l2 & -> & -> & _).
  rewrite !count_app. simpl. lia.
Qed.

Lemma mh_inv_sub_step ls s k w i l s' :
  mh_inv ls s -> mh_workers s !! k = Some w ->
  mh_sub_step s k w i = Some (l, s') -> mh_inv (ls ++ [l]) s'.
Proof.
  clear DataSignerMd5.
  intros Hinv Ek Hstep.
  assert (Hm : mh_main s <> MRet).
  { intros Hm. destruct (mh_all_exited _ _ _ _ Hinv (mh_inv_ret _ _ Hinv Hm) Ek) as [_ Hx].
    unfold mh_sub_step in Hstep.
    destruct (mh_subs w !! i) as [sb|] eqn:Esb; [|done].
    rewrite Forall_lookup in Hx. rewrite (Hx _ _ Esb) in Hstep. done. }
  pose proof (mh_inv_ok _ _ Hinv) as Hok. rewrite Forall_lookup in Hok.
  specialize (Hok _ _ Ek).
  unfold mh_sub_step in Hstep. destruct w as [d res n pc subs]; simpl in *.
  destruct (subs !! i) as [sb|] eqn:Esb; [|done].
  pose proof (lookup_lt_Some _ _ _ Esb) as Hlt.
  destruct sb; [destruct (decide (i < length res)) | destruct n as [|n0] |];
    simplify_eq.
  all: unfold mh_set_worker; simpl.
  all: eapply (mh_inv_worker _ s _ _ _ _ _ Hinv Ek); simpl; try done; try lia.
  all: try (by unfold mh_sent; simpl; rewrite !app_nil_r).
  - (* multiRes[i] is written *)
    assert (Hst : mh_started (MhWorker d res n pc subs) ->
                  mh_started (MhWorker d (<[i:=saltedHash d i]> res) n pc (<[i:=MsDone]> subs))).
    { intros (Hlen & Hslots & Hcnt). unfold mh_started; simpl in *.
      rewrite length_insert. split; [done|]. split.
      - intros j Hj. destruct (decide (i = j)) as [->|Hne].
        + by rewrite !list_lookup_insert_eq.
        + rewrite !list_lookup_insert_ne by done. by apply Hslots.
      - pose proof (count_insert ms_exited subs i MsCrc MsDone Esb) as Hc.
        simpl in Hc. lia. }
    unfold mh_worker_ok in *; simpl in *. fold (saltedHash d i).
    destruct pc; rewrite ?length_insert; try tauto.
    destruct Hok as (_ & _ & ->). done.
  - (* wgIn.Done() *)
    assert (Hst : mh_started (MhWorker d res (S n0) pc subs) ->
                  mh_started (MhWorker d res n0 pc (<[i:=MsExit]> subs))).
    { intros (Hlen & Hslots & Hcnt). unfold mh_started; simpl in *.
      split; [done|]. split.
      - intros j Hj. destruct (decide (i = j)) as [->|Hne].
        + rewrite list_lookup_insert_eq by done. rewrite Hslots, Esb by done. done.
        + rewrite !list_lookup_insert_ne by done. by apply Hslots.
      - pose proof (count_insert ms_exited subs i MsDone MsExit Esb) as Hc.
        simpl in Hc. lia. }
    unfold mh_worker_ok in *; simpl in *.
    destruct pc; rewrite ?length_insert; try tauto; try (destruct Hok as (_ & _ & ?); lia).
    destruct Hok as (_ & ? & _). done.
Qed.

Lemma mh_inv_step ls s t i l s' :
  mh_inv ls s -> mh_step s t i = Some (l, s') -> mh_inv (ls ++ [l]) s'.
Proof.
  intros Hinv Hstep. destruct t as [|k|k n]; simpl in Hstep.
  - by eapply mh_inv_main.
  - destruct i; try done.
    destruct (mh_workers s !! k) as [w|] eqn:Ek; simpl in Hstep; [|done].
    by eapply mh_inv_worker_step.
  - destruct i; try done.
    destruct (mh_workers s !! k) as [w|] eqn:Ek; simpl in Hstep; [|done].
    by eapply mh_inv_sub_step.
Qed.

Lemma mh_reaches_inv ls s : reaches MultiHash ls s -> mh_inv ls s.
Proof.
  apply (reaches_ind MultiHash mh_inv); [apply mh_inv_init|].
  intros. by eapply mh_inv_step.
Qed.

Lemma mh_outs_all_sent (ws : list mh_worker) :
  Forall (λ w, mh_live w = false) ws ->
  mh_outs ws = (λ d, VString (multiHashOf d)) <$> (mh_data <$> ws).
Proof.
  induction 1 as [|w ws Hw _ IH]; [done|].
  rewrite mh_outs_cons, IH. unfold mh_live, mh_sent in *.
  by destruct (mh_at w).
Qed.

(** When [MultiHash] has returned, it has received strings only and has
    sent, in some order, one string for each. *)
Lemma mh_returned ls s :
  reaches MultiHash ls s -> mh_main s = MRet ->
  exists strs, recvs ls = VString <$> strs /\
    sends ls ≡ₚ (λ d, VString (multiHashOf d)) <$> strs.
Proof.
  intros Hr Hm. apply mh_reaches_inv in Hr.
  destruct Hr as [Hok Hwg Hout (strs & Hd & Hin) Hret].
  exists strs. rewrite Hm in Hin. split; [done|].
  rewrite Hout, mh_outs_all_sent.
  - by rewrite Hd.
  - apply count_zero. rewrite <- Hwg. by apply Hret.
Qed.

(** ** CombineResults *)

Lemma cr_reaches_inv ls s : reaches CombineResults ls s -> cr_inv ls s.
Proof.
  clear DataSignerCrc32 DataSignerMd5.
  apply (reaches_ind CombineResults cr_inv).
  - unfold cr_inv. simpl. repeat split; try done. by apply not_elem_of_nil.
  - clear ls s. intros ls s t i l s' Hinv Hstep. simpl in Hstep.
    unfold cr_step in Hstep. unfold cr_inv in *.
    destruct s as [pc res]. simpl in *.
    destruct t; try done.
    destruct pc; repeat case_match; simplify_eq; simpl in *.
    all: rewrite ?recvs_snoc, ?sends_snoc; simpl; rewrite ?app_nil_r.
    all: rewrite ?elem_of_app, ?list_elem_of_singleton.
    all: try (destruct Hinv as (Hr & Hs & He); rewrite ?Hr, ?Hs).
    all: try (repeat split; try done; try naive_solver; fail).
    rewrite fmap_app. repeat split; try done. by intros [?|?].
Qed.

Lemma produce_reaches_inv vals ls s :
  reaches (produce vals) ls s -> produce_inv vals ls s.
Proof.
  apply (reaches_ind (produce vals) (produce_inv vals)).
  - by split.
  - clear ls s. intros ls s t i l s' [Hr Hs] Hstep. simpl in Hstep.
    unfold produce_step in Hstep.
    repeat case_match; simplify_eq; split; simpl;
      rewrite ?recvs_snoc, ?sends_snoc; simpl; rewrite ?app_nil_r; try done.
    by rewrite <- app_assoc.
Qed.

Lemma consume_reaches_inv ls s : reaches consume ls s -> consume_inv ls s.
Proof.
  apply (reaches_ind consume consume_inv).
  - by split.
  - clear ls s. intros ls s t i l s' [Hr Hs] Hstep. simpl in Hstep.
    unfold consume_step in Hstep.
    repeat case_match; simplify_eq; split; simpl;
      rewrite ?recvs_snoc, ?sends_snoc; simpl; rewrite ?app_nil_r; try done.
    by rewrite Hr.
Qed.

(** ** ExecutePipeline *)

Lemma lookup_insert_same_length {A} (l : list A) (a b : nat) (x : A) :
  <[a:=x]> l !! b = None <-> l !! b = None.
Proof. by rewrite !lookup_ge_None, length_insert. Qed.

(** One goroutine moves without passing a value: the worker in slot [a] is
    replaced by [w']. *)
Lemma pinv_set jobs p a w w' cs n cr :
  pinv jobs p -> workers p !! a = Some w ->
  wjob w' = wjob w -> wOut w' = wOut w -> wIn w' = wIn w ->
  reaches (wjob w') (whist w') (wst w') ->
  left_by (wphase_of w') (whist w') ->
  recvs (whist w') = recvs (whist w) ->
  sends (whist w') = sends (whist w) ->
  (LEnd ∈ whist w' -> LEnd ∈ whist w \/
     exists a' wa, a = S a' /\ workers p !! a' = Some wa /\
                   has_closed (wphase_of wa) = true) ->
  (has_closed (wphase_of w) = true -> has_closed (wphase_of w') = true) ->
  cs = (if has_closed (wphase_of w') then <[a:=true]> (chans p) else chans p) ->
  n + count pending [w] = pwg p + count pending [w'] ->
  (pending w = false -> pending w' = false) ->
  pinv jobs (PState (exec p) n cs (<[a:=w']> (workers p)) cr).
Proof.
  intros [Hws Hwg Hex] Ha Hjob Hout Hin Hreach Hleft Hrecv Hsend Hend Hmono -> Hn Hpend.
  pose proof (lookup_lt_Some _ _ _ Ha) as Hlt.
  assert (Hlook : forall b wb, <[a:=w']> (workers p) !! b = Some wb ->
            exists wb0, workers p !! b = Some wb0 /\
              sends (whist wb) = sends (whist wb0) /\
              (has_closed (wphase_of wb0) = true -> has_closed (wphase_of wb) = true) /\
              (b = a /\ wb = w' /\ wb0 = w \/ b <> a /\ wb = wb0)).
  { intros b wb Hb. destruct (decide (a = b)) as [<-|Hne].
    - rewrite list_lookup_insert_eq in Hb by done. simplify_eq.
      exists w. repeat split; try done. by left.
    - rewrite list_lookup_insert_ne in Hb by done.
      exists wb. repeat split; try done. right. by split. }
  assert (Hcs : forall b, b <> a ->
            (if has_closed (wphase_of w') then <[a:=true]> (chans p) else chans p) !! b
            = chans p !! b).
  { intros b Hb. destruct (has_closed (wphase_of w')); [|done].
    by rewrite list_lookup_insert_ne. }
  split; simpl.
  - intros b wb Hb. destruct (Hlook b wb Hb) as (wb0 & Hb0 & _ & _ & Hcase).
    destruct (Hws b wb0 Hb0) as [Ho Hi Hc Hh Hl Hr Hs He].
    assert (Hprev : forall b', (λ x, sends (whist x)) <$> <[a:=w']> (workers p) !! b'
                             = (λ x, sends (whist x)) <$> workers p !! b').
    { intros b'. destruct (<[a:=w']> (workers p) !! b') as [x|] eqn:Ex.
      - destruct (Hlook _ _ Ex) as (x0 & -> & Hsx & _). simpl. by rewrite Hsx.
      - apply lookup_insert_same_length in Ex. by rewrite Ex. }
    destruct Hcase as [(-> & -> & ->)|(Hne & ->)].
    + split; simpl.
      * by rewrite Hout.
      * by rewrite Hin.
      * destruct (has_closed (wphase_of w')) eqn:Ecl.
        -- rewrite list_lookup_insert_eq; [done|]. by eapply lookup_lt_Some.
        -- rewrite Hc. destruct (has_closed (wphase_of w)); [|done].
           by specialize (Hmono eq_refl).
      * done.
      * done.
      * rewrite Hrecv, Hr. destruct a; [done|]. by rewrite Hprev.
      * intros Hnone. rewrite Hsend. apply Hs.
        by apply lookup_insert_same_length in Hnone.
      * intros Hin'. destruct (Hend Hin') as [Hold|Hnew].
        -- destruct (He Hold) as (a' & wa & -> & Hwa & Hcl).
           exists a', wa. split; [done|]. split; [|done].
           rewrite list_lookup_insert_ne; [done|lia].
        -- destruct Hnew as (a' & wa & -> & Hwa & Hcl).
           exists a', wa. split; [done|]. split; [|done].
           rewrite list_lookup_insert_ne; [done|lia].
    + split; simpl; try done.
      * by rewrite Hcs.
      * rewrite Hr. destruct b; [done|]. by rewrite Hprev.
      * intros Hnone. apply Hs. by apply lookup_insert_same_length in Hnone.
      * intros Hin'. destruct (He Hin') as (a' & wa & -> & Hwa & Hcl).
        destruct (decide (a' = a)) as [->|Hne'].
        -- exists a, w'. split; [done|]. simplify_eq.
           rewrite list_lookup_insert_eq by done. split; [done|]. by apply Hmono.
        -- exists a', wa. split; [done|]. by rewrite list_lookup_insert_ne.
  - destruct (insert_split _ a w w' Ha) as (l1 & l2 & E1 & E2 & _).
    rewrite E2. rewrite E1 in Hwg. rewrite count_app in *. simpl in *. lia.
  - assert (Hjobs : wjob <$> <[a:=w']> (workers p) = wjob <$> workers p).
    { rewrite list_fmap_insert, Hjob. apply list_insert_id.
      by rewrite list_lookup_fmap, Ha. }
    assert (Hlen : length (if has_closed (wphase_of w') then <[a:=true]> (chans p)
                           else chans p) = length (chans p)).
    { destruct (has_closed (wphase_of w')); [apply length_insert | done]. }
    unfold exec_inv in *. simpl.
    destruct (exec p); rewrite ?Hjobs, ?length_insert, ?Hlen.
    + destruct Hex as (_ & Hnil & _). rewrite Hnil in Ha. done.
    + done.
    + done.
    + destruct Hex as (? & ? & ? & H0). repeat split; try done.
      rewrite H0 in Hwg. symmetry in Hwg. apply count_zero in Hwg.
      rewrite Forall_lookup in Hwg. specialize (Hwg _ _ Ha). simpl in Hwg.
      simpl in Hn. rewrite Hwg, H0, (Hpend Hwg) in Hn. lia.
Qed.

Lemma left_by_snoc ph hist l : left_by ph hist -> left_by ph (hist ++ [l]).
Proof.
  clear DataSignerCrc32 DataSignerMd5.
  unfold left_by. destruct ph as [|[?|]|[?|]| |?]; rewrite ?elem_of_app; tauto.
Qed.

Lemma chans_closed_id (cs : list bool) (a : nat) (b : bool) :
  cs !! a = Some b -> cs = if b then <[a:=true]> cs else cs.
Proof. intros H. destruct b; [|done]. symmetry. by apply list_insert_id. Qed.

(** Side conditions of [pinv_set] when one label is added to a history. *)
Ltac pinv_side Eph :=
  simpl;
  rewrite ?recvs_snoc, ?sends_snoc, ?elem_of_app, ?list_elem_of_singleton; simpl;
  rewrite ?app_nil_r; unfold pending; simpl; rewrite ?Eph;
  try done; try lia; try (by right); try (by apply left_by_snoc);
  try (by apply chans_closed_id);
  try (by intros [?|?]; [left|]).

Lemma pinv_local jobs p a t p' :
  pinv jobs p -> local_step p a t = Some p' -> pinv jobs p'.
Proof.
  intros Hinv Hstep. unfold local_step in Hstep.
  destruct (workers p !! a) as [w|] eqn:Ea; simpl in Hstep; [|done].
  destruct (jstep (wjob w) (wst w) t INone) as [[l s]|] eqn:Es; simpl in Hstep; [|done].
  destruct (pi_workers _ _ Hinv a w Ea) as [Ho Hi Hc Hh Hl Hr Hs He].
  pose proof (reaches_step _ _ _ _ _ _ _ Hh Es) as Hh'.
  destruct l; try done.
  - (* LTau *)
    simplify_eq. eapply pinv_set; try done; pinv_side Hh.
  - (* LPanic *)
    destruct t; [destruct (wphase_of w) eqn:Eph; try done|..]; simplify_eq.
    all: eapply pinv_set; try done; pinv_side Eph.
  - (* LRet *)
    destruct t; try done. destruct (wphase_of w) eqn:Eph; try done. simplify_eq.
    eapply pinv_set; try done; pinv_side Eph.
Qed.

Lemma pinv_end jobs p b tr p' :
  pinv jobs p -> end_step p b tr = Some p' -> pinv jobs p'.
Proof.
  intros Hinv Hstep. unfold end_step in Hstep.
  destruct (workers p !! b) as [w|] eqn:Eb; simpl in Hstep; [|done].
  destruct (wIn w) as [c|] eqn:Ec; simpl in Hstep; [|done].
  destruct (decide (chans p !! c = Some true)) as [Hcl|]; [|done].
  destruct (jstep (wjob w) (wst w) tr IClosed) as [[l s]|] eqn:Es; simpl in Hstep; [|done].
  destruct l; try done. simplify_eq.
  destruct (pi_workers _ _ Hinv b w Eb) as [Ho Hi Hc Hh Hl Hr Hs He].
  pose proof (reaches_step _ _ _ _ _ _ _ Hh Es) as Hh'.
  rewrite Ec in Hi. destruct b as [|a]; simpl in Hi; simplify_eq.
  destruct (lookup_lt_is_Some_2 (workers p) a) as [wa Ea].
  { apply lookup_lt_Some in Eb. lia. }
  pose proof (w_chan _ _ _ (pi_workers _ _ Hinv a wa Ea)) as Hca.
  rewrite Hcl in Hca. simplify_eq.
  eapply pinv_set; try done; pinv_side Hh.
  intros _. right. by exists a, wa.
Qed.

Lemma pinv_crash jobs p msg :
  pinv jobs p -> workers p <> [] ->
  pinv jobs (PState (exec p) (pwg p) (chans p) (workers p) (Some msg)).
Proof.
  intros [Hws Hwg Hex] Hne. split; simpl; try done.
  - intros a w Ha. by destruct (Hws a w Ha).
  - unfold exec_inv in *. simpl. destruct (exec p); try done.
    by destruct Hex as (_ & ? & _).
Qed.

Lemma pinv_defer jobs p a p' :
  pinv jobs p -> defer_step p a = Some p' -> pinv jobs p'.
Proof.
  intros Hinv Hstep. unfold defer_step in Hstep.
  destruct (workers p !! a) as [w|] eqn:Ea; simpl in Hstep; [|done].
  destruct (pi_workers _ _ Hinv a w Ea) as [Ho Hi Hc Hh Hl Hr Hs He].
  destruct (wphase_of w) as [|pn|pn| |msg] eqn:Eph; try done.
  - (* close(chOut) *)
    simplify_eq. eapply pinv_set; try done; pinv_side Eph.
    by left.
  - (* wg.Done() *)
    destruct (pwg p) as [|n] eqn:En; [done|]. simplify_eq.
    eapply pinv_set; try done; simpl.
    + by destruct pn.
    + by left.
    + by destruct pn.
    + destruct pn; simpl; symmetry; by apply list_insert_id.
    + unfold pending. simpl. rewrite Eph, En. destruct pn; simpl; lia.
    + unfold pending. simpl. by rewrite Eph.
  - (* the runtime stops the program *)
    simplify_eq. apply pinv_crash; [done|]. intros Hnil. by rewrite Hnil in Ea.
Qed.

Lemma winv_frame p q a w :
  chans q = chans p -> workers q = workers p -> winv p a w -> winv q a w.
Proof. intros Hc Hw [? ? ? ? ? ? ? ?]. split; rewrite ?Hc, ?Hw; done. Qed.

(** The goroutine of the next job is started. *)
Lemma pinv_launch jobs p j chIn e :
  (forall a w, workers p !! a = Some w -> winv p a w) ->
  pwg p = count pending (workers p) ->
  length (chans p) = length (workers p) ->
  chIn = chIn_of (length (workers p)) ->
  exec_inv jobs (PState e (S (pwg p)) (chans p ++ [false])
                        (workers p ++ [launch j chIn (length (chans p))]) None) ->
  pinv jobs (PState e (S (pwg p)) (chans p ++ [false])
                    (workers p ++ [launch j chIn (length (chans p))]) None).
Proof.
  intros Hws Hwg Hlen -> Hex. split; simpl; [|rewrite count_app; simpl; lia|done].
  intros a w Ha. apply lookup_app_Some in Ha as [Ha|[Hge Ha]].
  - destruct (Hws a w Ha) as [Ho Hi Hc Hh Hl Hr Hs He].
    pose proof (lookup_lt_Some _ _ _ Ha) as Hlt.
    split; simpl; try done.
    + rewrite lookup_app_l; [done|lia].
    + rewrite Hr. destruct a as [|a']; [done|]. rewrite lookup_app_l; [done|lia].
    + intros Hnone. apply Hs. apply lookup_ge_None in Hnone.
      apply lookup_ge_None. rewrite length_app in Hnone. lia.
    + intros Hin. destruct (He Hin) as (a' & w' & -> & Hw' & Hcl).
      exists a', w'. split; [done|]. split; [|done].
      rewrite lookup_app_l; [done|]. by eapply lookup_lt_Some.
  - apply list_lookup_singleton_Some in Ha as [Ha <-].
    assert (a = length (workers p)) as -> by lia.
    split; simpl; try done.
    + rewrite <- Hlen. by rewrite list_lookup_middle.
    + apply reaches_init.
    + destruct (length (workers p)) as [|c] eqn:En; [done|].
      destruct (lookup_lt_is_Some_2 (workers p) c) as [wc Ec]; [lia|].
      rewrite lookup_app_l, Ec by lia. simpl. symmetry.
      apply (w_send _ _ _ (Hws c wc Ec)). apply lookup_ge_None. lia.
    + intros Hin. by apply not_elem_of_nil in Hin.
Qed.

Lemma pinv_exec jobs p p' :
  pinv jobs p -> crashed p = None -> exec_step p = Some p' -> pinv jobs p'.
Proof.
  intros [Hws Hwg Hex] Hcr Hstep. unfold exec_step in Hstep.
  unfold exec_inv in Hex. destruct (exec p) as [[|j js]|c [|j js]| |] eqn:Ee.
  - (* jobs[0] of an empty slice *)
    simplify_eq. destruct Hex as (<- & Hnil & H0 & Hch & _).
    split; simpl.
    + intros a w Ha. by rewrite Hnil in Ha.
    + done.
    + unfold exec_inv. simpl. done.
  - (* the first job *)
    simplify_eq. destruct Hex as (<- & Hnil & H0 & Hch & _). specialize (Hch Hcr).
    apply pinv_launch; try done.
    + by rewrite Hch, Hnil.
    + by rewrite Hnil.
    + unfold exec_inv. simpl. rewrite Hnil, Hch. done.
  - (* the loop has ended *)
    simplify_eq. destruct Hex as (-> & Hc & Hlen). split; simpl.
    + intros a w Ha. by eapply winv_frame; [..|apply Hws].
    + done.
    + unfold exec_inv. simpl. rewrite app_nil_r. repeat split; try done.
      destruct (workers p); [simpl in Hc; lia|done].
  - (* one more job *)
    simplify_eq. destruct Hex as (-> & Hc & Hlen).
    apply pinv_launch; try done.
    + by rewrite <- Hc.
    + unfold exec_inv. simpl. rewrite fmap_app, <- app_assoc, !length_app. simpl.
      repeat split; try done; lia.
  - (* wg.Wait() *)
    destruct (decide (pwg p = 0)); [|done]. simplify_eq.
    destruct Hex as (-> & Hne & Hlen). split; simpl.
    + intros a w Ha. by eapply winv_frame; [..|apply Hws].
    + done.
    + unfold exec_inv. simpl. done.
  - done.
Qed.

(** A value passes from job [a] to job [S a]. *)
Lemma pinv_xfer jobs p a ts b tr p' :
  pinv jobs p -> xfer_step p a ts b tr = Some p' -> pinv jobs p'.
Proof.
  intros Hinv Hstep. unfold xfer_step in Hstep.
  destruct (workers p !! a) as [wa|] eqn:Ea; simpl in Hstep; [|done].
  destruct (workers p !! b) as [wb|] eqn:Eb; simpl in Hstep; [|done].
  destruct (decide _) as [(Hab & Hlink & Hopen)|]; [|done].
  destruct (jstep (wjob wa) (wst wa) ts INone) as [[la sa]|] eqn:Esa; simpl in Hstep; [|done].
  destruct la as [| |v| | |]; try done.
  destruct (jstep (wjob wb) (wst wb) tr (IVal v)) as [[lb sb]|] eqn:Esb; simpl in Hstep; [|done].
  destruct (decide (lb = LRecv v)) as [->|]; [|done]. simplify_eq.
  destruct Hinv as [Hws Hwg Hex].
  destruct (Hws a wa Ea) as [Hoa Hia Hca Hha Hla Hra Hsa Hea].
  destruct (Hws b wb Eb) as [Hob Hib Hcb Hhb Hlb Hrb Hsb Heb].
  rewrite Hlink, Hoa in Hib. destruct b as [|b']; simpl in Hib; simplify_eq.
  set (a := wOut wa) in *.
  set (wa' := moved wa (LSend v) sa (wphase_of wa)).
  set (wb' := moved wb (LRecv v) sb (wphase_of wb)).
  unfold set_worker. simpl.
  set (ws' := <[S a:=wb']> (<[a:=wa']> (workers p))).
  pose proof (lookup_lt_Some _ _ _ Ea) as Hlta.
  pose proof (lookup_lt_Some _ _ _ Eb) as Hltb.
  assert (Hlook : forall c wc, ws' !! c = Some wc ->
            exists wc0, workers p !! c = Some wc0 /\
              wphase_of wc = wphase_of wc0 /\
              (c = a /\ wc = wa' /\ wc0 = wa \/ c = S a /\ wc = wb' /\ wc0 = wb \/
               c <> a /\ c <> S a /\ wc = wc0)).
  { intros c wc Hc. unfold ws' in Hc.
    destruct (decide (c = S a)) as [->|Hn1].
    - rewrite list_lookup_insert_eq in Hc by (rewrite length_insert; lia).
      simplify_eq. exists wb. repeat split; try done. right. by left.
    - rewrite list_lookup_insert_ne in Hc by done.
      destruct (decide (c = a)) as [->|Hn2].
      + rewrite list_lookup_insert_eq in Hc by done. simplify_eq.
        exists wa. repeat split; try done. by left.
      + rewrite list_lookup_insert_ne in Hc by done.
        exists wc. repeat split; try done. right. right. by repeat split. }
  assert (Hnone : forall c, ws' !! c = None <-> workers p !! c = None).
  { intros c. unfold ws'. by rewrite !lookup_ge_None, !length_insert. }
  assert (Hsome : forall c wc0, workers p !! c = Some wc0 ->
            exists wc, ws' !! c = Some wc /\ wphase_of wc = wphase_of wc0).
  { intros c wc0 Hc. destruct (ws' !! c) as [wc|] eqn:E.
    - destruct (Hlook _ _ E) as (x & Hx & Hph & _). simplify_eq. by exists wc.
    - apply Hnone in E. by rewrite E in Hc. }
  split; simpl.
  - intros c wc Hc. destruct (Hlook c wc Hc) as (wc0 & Hc0 & Hph & Hcase).
    destruct (Hws c wc0 Hc0) as [Ho Hi Hch Hh Hl Hr Hs He].
    assert (Hend : LEnd ∈ whist wc0 ->
              exists a' w', c = S a' /\ ws' !! a' = Some w' /\
                            has_closed (wphase_of w') = true).
    { intros Hin. destruct (He Hin) as (a' & w' & -> & Hw' & Hcl).
      destruct (Hsome _ _ Hw') as (w'' & Hw'' & Hph'').
      exists a', w''. by rewrite Hph''. }
    destruct Hcase as [(-> & -> & ->)|[(-> & -> & ->)|(Hn1 & Hn2 & ->)]].
    + (* the sender *)
      split; simpl; try done.
      * eapply reaches_step; eauto.
      * by apply left_by_snoc.
      * rewrite recvs_snoc, app_nil_r, Hra. destruct a as [|a0] eqn:Ean; [done|].
        unfold ws'. rewrite !list_lookup_insert_ne by lia. done.
      * intros Hn. apply Hnone in Hn. by rewrite Eb in Hn.
      * rewrite elem_of_app, list_elem_of_singleton. intros [Hin|?]; [|done].
        by apply Hend.
    + (* the receiver *)
      split; simpl; try done.
      * eapply reaches_step; eauto.
      * by apply left_by_snoc.
      * rewrite recvs_snoc, Hrb. simpl. unfold ws'.
        rewrite list_lookup_insert_ne by lia.
        rewrite list_lookup_insert_eq by done. rewrite Ea. simpl.
        by rewrite sends_snoc.
      * intros Hn. apply Hnone in Hn. rewrite sends_snoc, app_nil_r. by apply Hsb.
      * rewrite elem_of_app, list_elem_of_singleton. intros [Hin|?]; [|done].
        by apply Hend.
    + (* a bystander *)
      split; simpl; try done.
      * rewrite Hr. destruct c as [|c']; [done|].
        destruct (decide (c' = S a)) as [->|Hn3].
        -- unfold ws'. rewrite list_lookup_insert_eq by (rewrite length_insert; lia).
           rewrite Eb. simpl. by rewrite sends_snoc, app_nil_r.
        -- unfold ws'. rewrite !list_lookup_insert_ne by lia. done.
      * intros Hn. apply Hs. by apply Hnone.
  - unfold ws'.
    assert (Eb' : <[a:=wa']> (workers p) !! S a = Some wb).
    { by rewrite list_lookup_insert_ne by lia. }
    pose proof (count_insert pending _ _ _ wb' Eb') as Hc1.
    pose proof (count_insert pending _ _ _ wa' Ea) as Hc2.
    change (count pending [wb']) with (count pending [wb]) in Hc1.
    change (count pending [wa']) with (count pending [wa]) in Hc2.
    lia.
  - assert (Hjobs : wjob <$> ws' = wjob <$> workers p).
    { unfold ws'. rewrite !list_fmap_insert. simpl.
      rewrite (list_insert_id _ a) by by rewrite list_lookup_fmap, Ea.
      apply list_insert_id. by rewrite list_lookup_fmap, Eb. }
    unfold exec_inv in *. simpl.
    assert (Hlen : length ws' = length (workers p)).
    { unfold ws'. by rewrite !length_insert. }
    destruct (exec p); rewrite ?Hjobs, ?Hlen; try done.
    destruct Hex as (_ & Hnil & _). by rewrite Hnil in Ea.
Qed.

Lemma pinv_init jobs : pinv jobs (ExecutePipeline jobs).
Proof. split; simpl; try done. Qed.

Lemma pinv_step jobs p e p' : pinv jobs p -> pstep p e = Some p' -> pinv jobs p'.
Proof.
  intros Hinv Hstep. unfold pstep in Hstep.
  destruct (crashed p) eqn:Ecr; [done|]. destruct e.
  - by eapply pinv_exec.
  - by eapply pinv_local.
  - by eapply pinv_xfer.
  - by eapply pinv_end.
  - by eapply pinv_defer.
Qed.

Lemma prun_ind (I : pstate -> Prop) (p : pstate) :
  I p -> (forall q e q', I q -> pstep q e = Some q' -> I q') ->
  forall es p', prun p es = Some p' -> I p'.
Proof.
  intros H0 Hstep es. revert p H0. induction es as [|e es IH]; simpl; intros p H0 p' Hr.
  - by simplify_eq.
  - destruct (pstep p e) as [q|] eqn:Eq; simpl in Hr; [|done].
    eapply IH; [|done]. by eapply Hstep.
Qed.

Lemma prun_pinv jobs es p : prun (ExecutePipeline jobs) es = Some p -> pinv jobs p.
Proof.
  apply (prun_ind (pinv jobs)); [apply pinv_init|]. intros. by eapply pinv_step.
Qed.

(** The goroutine at position [a] runs the job at position [a]. *)
Lemma pinv_job jobs p a w :
  pinv jobs p -> workers p !! a = Some w -> jobs !! a = Some (wjob w).
Proof.
  intros [_ _ Hex] Ha. unfold exec_inv in Hex.
  assert (Hf : (wjob <$> workers p) !! a = Some (wjob w)).
  { by rewrite list_lookup_fmap, Ha. }
  destruct (exec p).
  - destruct Hex as (_ & Hnil & _). by rewrite Hnil in Ha.
  - destruct Hex as (-> & _). by apply lookup_app_l_Some.
  - by destruct Hex as (-> & _).
  - by destruct Hex as (-> & _).
Qed.

(** ** Leaving a job function *)

Lemma ctl_step_inv (m m' : mpc) (l : label) (ls : list label) :
  ctl_step m m' l -> mpc_ctl ls m -> mpc_ctl (ls ++ [l]) m'.
Proof.
  intros (H1 & H2 & H3 & H4 & H5 & H6) (Hret & Hpanic & Hend & Hp). repeat split.
  - rewrite elem_of_app, list_elem_of_singleton. intros [?|?]; eauto.
  - intros msg. rewrite elem_of_app, list_elem_of_singleton. intros [?|?]; eauto.
  - rewrite elem_of_app, list_elem_of_singleton. intros Hm.
    destruct (H5 Hm) as [?|[?|?]]; eauto.
  - rewrite elem_of_app, list_elem_of_singleton. intros Hm.
    destruct (H6 Hm) as [?|?]; eauto.
Qed.

Lemma ctl_init : mpc_ctl [] MLoop.
Proof.
  repeat split.
  - by intros ?%elem_of_nil.
  - by intros ? ?%elem_of_nil.
  - by intros [?|?].
  - done.
Qed.

Lemma sh_step_ctl s t i l s' :
  sh_step s t i = Some (l, s') -> ctl_step (sh_main s) (sh_main s') l.
Proof.
  intros Hstep. unfold sh_step, sh_main_step, sh_worker_step, sh_sub_step in Hstep.
  unfold ctl_step.
  repeat case_match; simplify_option_eq; simpl in *;
    try (repeat case_match; simplify_eq; simpl in * );
    repeat split; intros; simplify_eq; try done; intuition congruence.
Qed.

Lemma sh_reaches_ctl ls s : reaches SingleHash ls s -> sh_ctl ls s.
Proof.
  apply (reaches_ind SingleHash sh_ctl).
  - apply ctl_init.
  - clear ls s. intros ls s t i l s' Hctl Hstep.
    eapply ctl_step_inv; [|exact Hctl]. by eapply sh_step_ctl.
Qed.

Lemma mh_step_ctl s t i l s' :
  mh_step s t i = Some (l, s') -> ctl_step (mh_main s) (mh_main s') l.
Proof.
  clear DataSignerMd5.
  intros Hstep. unfold mh_step, mh_main_step, mh_worker_step, mh_sub_step in Hstep.
  unfold ctl_step.
  repeat case_match; simplify_option_eq; simpl in *;
    try (repeat case_match; simplify_eq; simpl in * );
    repeat split; intros; simplify_eq; try done; intuition congruence.
Qed.

Lemma mh_reaches_ctl ls s : reaches MultiHash ls s -> mh_ctl ls s.
Proof.
  apply (reaches_ind MultiHash mh_ctl).
  - apply ctl_init.
  - clear ls s. intros ls s t i l s' Hctl Hstep.
    eapply ctl_step_inv; [|exact Hctl]. by eapply mh_step_ctl.
Qed.

Lemma cr_reaches_ctl ls s : reaches CombineResults ls s -> cr_ctl ls s.
Proof.
  apply (reaches_ind CombineResults cr_ctl).
  - split; [by intros ?%elem_of_nil | split; [by intros ? ?%elem_of_nil | done]].
  - clear ls s. intros ls s t i l s' (Hret & Hpanic & Hp) Hstep.
    simpl in Hstep. unfold cr_step in Hstep.
    assert (Hs : (cr_at s = CrRet -> False) /\ (cr_at s = CrPanic -> False)).
    { split; intros E; rewrite E in Hstep; by repeat case_match. }
    split; [|split; [intros msg|]]; rewrite elem_of_app, list_elem_of_singleton.
    + intros [Hin| <-].
      * destruct Hs as [Hs _]. destruct (Hs (Hret Hin)).
      * repeat case_match; by simplify_eq.
    + intros [Hin| <-].
      * destruct Hs as [_ Hs]. destruct (Hs (Hpanic _ Hin)).
      * repeat case_match; by simplify_eq.
    + intros Hm. right. repeat case_match; by simplify_eq.
Qed.

Lemma produce_reaches_ctl vals ls s :
  reaches (produce vals) ls s -> produce_ctl ls s.
Proof.
  apply (reaches_ind (produce vals) produce_ctl).
  - split; [by intros ?%elem_of_nil | by intros ? ?%elem_of_nil].
  - clear ls s. intros ls s t i l s' [Hret Hpanic] Hstep.
    simpl in Hstep. unfold produce_step in Hstep.
    split; [|intros msg]; rewrite elem_of_app, list_elem_of_singleton.
    + intros [Hin| <-].
      * rewrite (Hret Hin) in Hstep. by repeat case_match.
      * repeat case_match; by simplify_eq.
    + intros [Hin| <-]; [by apply Hpanic in Hin|].
      repeat case_match; by simplify_eq.
Qed.

Lemma consume_reaches_ctl ls s : reaches consume ls s -> consume_ctl ls s.
Proof.
  apply (reaches_ind consume consume_ctl).
  - by intros ? ?%elem_of_nil.
  - clear ls s. intros ls s t i l s' Hpanic Hstep msg.
    simpl in Hstep. unfold consume_step in Hstep.
    rewrite elem_of_app, list_elem_of_singleton.
    intros [Hin| <-]; [by apply Hpanic in Hin|].
    repeat case_match; by simplify_eq.
Qed.

(** ** What the histories of the stages say *)

Lemma Forall_is_int_fmap (nums : list Z) : Forall is_int (VInt <$> nums).
Proof. apply Forall_fmap, Forall_true. intros n. by exists n. Qed.

Lemma Forall_is_string_fmap (strs : list string) : Forall is_string (VString <$> strs).
Proof. apply Forall_fmap, Forall_true. intros d. by exists d. Qed.

Lemma sh_outs_strings (ws : list sh_worker) : Forall is_string (sh_outs ws).
Proof.
  induction ws as [|w ws IH]; [constructor|].
  rewrite sh_outs_cons. apply Forall_app. split; [|done].
  destruct (sh_sent w); repeat constructor. by eexists.
Qed.

Lemma mh_outs_strings (ws : list mh_worker) : Forall is_string (mh_outs ws).
Proof.
  induction ws as [|w ws IH]; [constructor|].
  rewrite mh_outs_cons. apply Forall_app. split; [|done].
  destruct (mh_sent w); repeat constructor. by eexists.
Qed.

(** [SingleHash] sends strings only. *)
Lemma sh_sends_strings ls s : reaches SingleHash ls s -> Forall is_string (sends ls).
Proof.
  intros Hr%sh_reaches_inv. rewrite (sh_inv_out _ _ Hr). apply sh_outs_strings.
Qed.

Lemma mh_sends_strings ls s : reaches MultiHash ls s -> Forall is_string (sends ls).
Proof.
  intros Hr%mh_reaches_inv. rewrite (mh_inv_out _ _ Hr). apply mh_outs_strings.
Qed.

(** [SingleHash] does not panic as long as it is given integers. *)
Lemma sh_no_panic ls s msg :
  reaches SingleHash ls s -> Forall is_int (recvs ls) -> LPanic msg ∉ ls.
Proof.
  intros Hr Hints Hin.
  destruct (sh_reaches_ctl _ _ Hr) as (_ & Hp & _ & _). specialize (Hp _ Hin).
  destruct (sh_inv_in _ _ (sh_reaches_inv _ _ Hr)) as (nums & _ & Hrecv).
  rewrite Hp in Hrecv. destruct Hrecv as (v & Hrecv & Hv).
  rewrite Hrecv in Hints. apply Forall_app in Hints as [_ Hints].
  inversion Hints as [|? ? [n ->] _]; subst. by apply (Hv n).
Qed.

Lemma mh_no_panic ls s msg :
  reaches MultiHash ls s -> Forall is_string (recvs ls) -> LPanic msg ∉ ls.
Proof.
  intros Hr Hstrs Hin.
  destruct (mh_reaches_ctl _ _ Hr) as (_ & Hp & _ & _). specialize (Hp _ Hin).
  destruct (mh_inv_in _ _ (mh_reaches_inv _ _ Hr)) as (strs & _ & Hrecv).
  rewrite Hp in Hrecv. destruct Hrecv as (v & Hrecv & Hv).
  rewrite Hrecv in Hstrs. apply Forall_app in Hstrs as [_ Hstrs].
  inversion Hstrs as [|? ? [d ->] _]; subst. by apply (Hv d).
Qed.

Lemma cr_no_panic ls s msg :
  reaches CombineResults ls s -> Forall is_string (recvs ls) -> LPanic msg ∉ ls.
Proof.
  intros Hr Hstrs Hin.
  destruct (cr_reaches_ctl _ _ Hr) as (_ & Hp & _). specialize (Hp _ Hin).
  pose proof (cr_reaches_inv _ _ Hr) as Hinv. unfold cr_inv in Hinv.
  rewrite Hp in Hinv. destruct Hinv as ((v & Hrecv & Hv) & _).
  rewrite Hrecv in Hstrs. apply Forall_app in Hstrs as [_ Hstrs].
  inversion Hstrs as [|? ? [d ->] _]; subst. by apply (Hv d).
Qed.

(** Once [SingleHash] has returned it has seen its input closed, and has
    sent one string for each integer received. *)
Lemma sh_left ls s :
  reaches SingleHash ls s -> LRet ∈ ls ->
  LEnd ∈ ls /\
  exists nums, recvs ls = VInt <$> nums /\
    sends ls ≡ₚ (λ n, VString (singleHashOf (Itoa n))) <$> nums.
Proof.
  intros Hr Hin. destruct (sh_reaches_ctl _ _ Hr) as (Hret & _ & Hend & _).
  specialize (Hret Hin). split; [apply Hend; by right|]. by eapply sh_returned.
Qed.

Lemma mh_left ls s :
  reaches MultiHash ls s -> LRet ∈ ls ->
  LEnd ∈ ls /\
  exists strs, recvs ls = VString <$> strs /\
    sends ls ≡ₚ (λ d, VString (multiHashOf d)) <$> strs.
Proof.
  intros Hr Hin. destruct (mh_reaches_ctl _ _ Hr) as (Hret & _ & Hend & _).
  specialize (Hret Hin). split; [apply Hend; by right|]. by eapply mh_returned.
Qed.

(** [CombineResults] has sent nothing, or it has seen its input closed and
    sent the sorted strings, joined. *)
Lemma cr_sends ls s :
  reaches CombineResults ls s ->
  sends ls = [] \/
  (LEnd ∈ ls /\ exists strs, recvs ls = VString <$> strs /\
     sends ls = [VString (Join (sortStrings strs) "_")]).
Proof.
  intros Hinv%cr_reaches_inv. unfold cr_inv in Hinv.
  destruct (cr_at s); try (left; tauto); right; tauto.
Qed.

Lemma cr_left ls s :
  reaches CombineResults ls s -> LRet ∈ ls ->
  LEnd ∈ ls /\ exists strs, recvs ls = VString <$> strs /\
     sends ls = [VString (Join (sortStrings strs) "_")].
Proof.
  intros Hr Hin. destruct (cr_reaches_ctl _ _ Hr) as (Hret & _).
  specialize (Hret Hin). apply cr_reaches_inv in Hr. unfold cr_inv in Hr.
  rewrite Hret in Hr. tauto.
Qed.

Lemma produce_sends vals ls s :
  reaches (produce vals) ls s ->
  (exists rest, sends ls ++ rest = vals) /\ (LRet ∈ ls -> sends ls = vals).
Proof.
  intros Hr. destruct (produce_reaches_inv _ _ _ Hr) as [_ Hs].
  destruct (produce_reaches_ctl _ _ _ Hr) as [Hret _]. split.
  - destruct s as [rest|]; [by exists rest|]. exists []. by rewrite app_nil_r.
  - intros Hin. by rewrite (Hret Hin) in Hs.
Qed.

(** ** Sorting *)

Lemma sortStrings_sorted (l : list string) : Sorted String.le (sortStrings l).
Proof. apply Sorted_merge_sort. apply _. Qed.

Lemma sortStrings_perm (l : list string) : sortStrings l ≡ₚ l.
Proof. apply merge_sort_Permutation. Qed.

(** [sort.Strings] forgets the order in which the strings came. *)
Lemma sortStrings_order_free (l1 l2 : list string) :
  l1 ≡ₚ l2 -> sortStrings l1 = sortStrings l2.
Proof.
  intros H. apply (Sorted_unique String.le); try apply sortStrings_sorted.
  by rewrite !sortStrings_perm.
Qed.

Lemma str_of_fmap (f : string -> string) (strs : list string) :
  str_of <$> ((λ d, VString (f d)) <$> strs) = f <$> strs.
Proof. induction strs as [|d strs IH]; [done|]. rewrite !fmap_cons. simpl. by f_equal. Qed.

Lemma str_of_VString (strs : list string) : str_of <$> (VString <$> strs) = strs.
Proof. induction strs as [|d strs IH]; [done|]. rewrite !fmap_cons. simpl. by f_equal. Qed.

Lemma strings_perm (strs strs' : list string) (f : string -> string) :
  VString <$> strs ≡ₚ (λ d, VString (f d)) <$> strs' -> strs ≡ₚ f <$> strs'.
Proof.
  intros H. apply (fmap_Permutation str_of) in H.
  by rewrite str_of_VString, str_of_fmap in H.
Qed.

(** ** The pipeline as a whole *)

Lemma worker_reaches jobs p a w j :
  pinv jobs p -> workers p !! a = Some w -> jobs !! a = Some j ->
  exists s, reaches j (whist w) s.
Proof.
  intros Hinv Ha Hj. pose proof (pinv_job _ _ _ _ Hinv Ha) as Hj'.
  rewrite Hj in Hj'. injection Hj' as ->.
  exists (wst w). exact (w_hist _ _ _ (pi_workers _ _ Hinv a w Ha)).
Qed.

Lemma prev_sends jobs p a wb :
  pinv jobs p -> workers p !! S a = Some wb ->
  exists wa, workers p !! a = Some wa /\ recvs (whist wb) = sends (whist wa).
Proof.
  intros Hinv Hb. destruct (lookup_lt_is_Some_2 (workers p) a) as [wa Ha].
  { apply lookup_lt_Some in Hb. lia. }
  exists wa. split; [done|].
  rewrite (w_recv _ _ _ (pi_workers _ _ Hinv _ _ Hb)). by rewrite Ha.
Qed.

Lemma closed_left ph hist :
  has_closed ph = true -> left_by ph hist ->
  LRet ∈ hist \/ exists msg, LPanic msg ∈ hist.
Proof. destruct ph as [|[?|]|[?|]| |?]; simpl; try done; eauto. Qed.

(** A job sees its input closed only after the job before it has left. *)
Lemma end_prev_left jobs p a wa wb :
  pinv jobs p -> workers p !! a = Some wa -> workers p !! S a = Some wb ->
  LEnd ∈ whist wb -> LRet ∈ whist wa \/ exists msg, LPanic msg ∈ whist wa.
Proof.
  intros Hinv Ha Hb Hin.
  destruct (w_end _ _ _ (pi_workers _ _ Hinv _ _ Hb) Hin) as (a' & w' & E & Hw' & Hcl).
  injection E as <-. rewrite Ha in Hw'. injection Hw' as <-.
  eapply closed_left; [done|].
  exact (w_left _ _ _ (pi_workers _ _ Hinv _ _ Ha)).
Qed.

Lemma VInt_fmap_inj (l1 l2 : list Z) : VInt <$> l1 = VInt <$> l2 -> l1 = l2.
Proof.
  revert l2. induction l1 as [|x l1 IH]; intros [|y l2] H; try done.
  rewrite !fmap_cons in H. injection H as -> H. f_equal. by apply IH.
Qed.

Lemma VString_fmap_inj (l1 l2 : list string) : VString <$> l1 = VString <$> l2 -> l1 = l2.
Proof.
  revert l2. induction l1 as [|x l1 IH]; intros [|y l2] H; try done.
  rewrite !fmap_cons in H. injection H as -> H. f_equal. by apply IH.
Qed.

Section signer_run.

Variable nums : list Z.
Variable p : pstate.
Hypothesis Hinv : pinv (signer (VInt <$> nums)) p.

#[local] Set Default Proof Using "Type Hinv".

(** The producer: it sends a prefix of the integers, all of them once it
    has returned, and it never panics. *)
Lemma signer_job0 w0 :
  workers p !! 0 = Some w0 ->
  Forall is_int (sends (whist w0)) /\
  (forall msg, LPanic msg ∉ whist w0) /\
  (LRet ∈ whist w0 -> sends (whist w0) = VInt <$> nums).
Proof.
  intros H0. destruct (worker_reaches _ _ _ _ _ Hinv H0 eq_refl) as [s Hr].
  destruct (produce_sends _ _ _ Hr) as [[rest Hrest] Hret].
  destruct (produce_reaches_ctl _ _ _ Hr) as [_ Hp].
  repeat split; try done.
  pose proof (Forall_is_int_fmap nums) as Hall. rewrite <- Hrest in Hall.
  by apply Forall_app in Hall as [? _].
Qed.

(** SingleHash inside the pipeline. *)
Lemma signer_job1 w1 :
  workers p !! 1 = Some w1 ->
  Forall is_string (sends (whist w1)) /\
  (forall msg, LPanic msg ∉ whist w1) /\
  (LRet ∈ whist w1 ->
   sends (whist w1) ≡ₚ (λ n, VString (singleHashOf (Itoa n))) <$> nums).
Proof.
  intros H1. destruct (worker_reaches _ _ _ _ _ Hinv H1 eq_refl) as [s Hr].
  destruct (prev_sends _ _ _ _ Hinv H1) as (w0 & H0 & Hrecv).
  destruct (signer_job0 w0 H0) as (Hints & Hnp0 & Hret0).
  split; [by eapply sh_sends_strings|]. split.
  - intros msg. eapply sh_no_panic; [done|]. by rewrite Hrecv.
  - intros Hret. destruct (sh_left _ _ Hr Hret) as (Hend & nums' & Hn' & Hperm).
    destruct (end_prev_left _ _ _ _ _ Hinv H0 H1 Hend) as [Hl|[msg Hl]];
      [|by apply Hnp0 in Hl].
    rewrite Hrecv, (Hret0 Hl) in Hn'. apply VInt_fmap_inj in Hn'. by subst.
Qed.

(** MultiHash inside the pipeline. *)
Lemma signer_job2 w2 :
  workers p !! 2 = Some w2 ->
  Forall is_string (sends (whist w2)) /\
  (forall msg, LPanic msg ∉ whist w2) /\
  (LRet ∈ whist w2 ->
   exists strs, strs ≡ₚ (λ n, singleHashOf (Itoa n)) <$> nums /\
     sends (whist w2) ≡ₚ (λ d, VString (multiHashOf d)) <$> strs).
Proof.
  intros H2. destruct (worker_reaches _ _ _ _ _ Hinv H2 eq_refl) as [s Hr].
  destruct (prev_sends _ _ _ _ Hinv H2) as (w1 & H1 & Hrecv).
  destruct (signer_job1 w1 H1) as (Hstrs & Hnp1 & Hret1).
  split; [by eapply mh_sends_strings|]. split.
  - intros msg. eapply mh_no_panic; [done|]. by rewrite Hrecv.
  - intros Hret. destruct (mh_left _ _ Hr Hret) as (Hend & strs & Hs & Hperm).
    destruct (end_prev_left _ _ _ _ _ Hinv H1 H2 Hend) as [Hl|[msg Hl]];
      [|by apply Hnp1 in Hl].
    exists strs. split; [|done].
    specialize (Hret1 Hl). rewrite <- Hrecv, Hs in Hret1.
    rewrite (list_fmap_compose Itoa (λ d, VString (singleHashOf d))) in Hret1.
    apply strings_perm in Hret1. by rewrite <- list_fmap_compose in Hret1.
Qed.

(** CombineResults inside the pipeline: whatever it has sent is the
    signature. *)
Lemma signer_job3 w3 :
  workers p !! 3 = Some w3 ->
  (sends (whist w3) = [] \/ sends (whist w3) = [VString (signatureOf nums)]) /\
  (forall msg, LPanic msg ∉ whist w3) /\
  (LRet ∈ whist w3 -> sends (whist w3) = [VString (signatureOf nums)]).
Proof.
  intros H3. destruct (worker_reaches _ _ _ _ _ Hinv H3 eq_refl) as [s Hr].
  destruct (prev_sends _ _ _ _ Hinv H3) as (w2 & H2 & Hrecv).
  destruct (signer_job2 w2 H2) as (Hstrs & Hnp2 & Hret2).
  assert (Hsig : forall strs, LEnd ∈ whist w3 -> recvs (whist w3) = VString <$> strs ->
            Join (sortStrings strs) "_" = signatureOf nums).
  { intros strs Hend Hs.
    destruct (end_prev_left _ _ _ _ _ Hinv H2 H3 Hend) as [Hl|[msg Hl]];
      [|by apply Hnp2 in Hl].
    destruct (Hret2 Hl) as (strs1 & Hp1 & Hp2).
    rewrite <- Hrecv, Hs in Hp2. apply strings_perm in Hp2.
    unfold signatureOf. f_equal. apply sortStrings_order_free.
    rewrite Hp2, Hp1. by rewrite <- list_fmap_compose. }
  split; [|split].
  - destruct (cr_sends _ _ Hr) as [?|(Hend & strs & Hs & Hsend)]; [by left|right].
    by rewrite Hsend, (Hsig strs).
  - intros msg. eapply cr_no_panic; [done|]. by rewrite Hrecv.
  - intros Hret. destruct (cr_left _ _ Hr Hret) as (Hend & strs & Hs & Hsend).
    by rewrite Hsend, (Hsig strs).
Qed.

(** The sink has received nothing, or the signature and nothing else. *)
Lemma signer_delivered :
  delivered p = [] \/ delivered p = [VString (signatureOf nums)].
Proof.
  unfold delivered, received_by.
  destruct (workers p !! 4) as [w4|] eqn:H4; [|by left]. simpl.
  destruct (prev_sends _ _ _ _ Hinv H4) as (w3 & H3 & ->).
  by destruct (signer_job3 w3 H3) as (? & _).
Qed.

(** When [ExecutePipeline] has returned, the sink has received the
    signature. *)
Lemma signer_returned :
  exec p = EReturned -> delivered p = [VString (signatureOf nums)].
Proof.
  intros He. destruct Hinv as [Hws Hwg Hex]. unfold exec_inv in Hex.
  rewrite He in Hex. destruct Hex as (Hjobs & _ & _ & H0).
  assert (Hlen : length (workers p) = 5).
  { apply (f_equal length) in Hjobs. by rewrite length_fmap in Hjobs. }
  destruct (lookup_lt_is_Some_2 (workers p) 3) as [w3 H3]; [lia|].
  destruct (lookup_lt_is_Some_2 (workers p) 4) as [w4 H4]; [lia|].
  unfold delivered, received_by. rewrite H4. simpl.
  destruct (prev_sends _ _ _ _ Hinv H4) as (w3' & H3' & ->).
  rewrite H3 in H3'. injection H3' as <-.
  destruct (signer_job3 w3 H3) as (_ & Hnp & Hret). apply Hret.
  rewrite H0 in Hwg. symmetry in Hwg. apply count_zero in Hwg.
  rewrite Forall_lookup in Hwg. specialize (Hwg _ _ H3).
  pose proof (w_left _ _ _ (Hws _ _ H3)) as Hl.
  unfold pending in Hwg. unfold left_by in Hl.
  destruct (wphase_of w3); try done. by apply Hnp in Hl.
Qed.

End signer_run.

(** ** Every stage can run to its end *)

Lemma lookup_last_app {A} (l : list A) (x : A) : (l ++ [x]) !! length l = Some x.
Proof. by rewrite list_lookup_middle. Qed.

Lemma insert_last_app {A} (l : list A) (x y : A) : <[length l := y]> (l ++ [x]) = l ++ [y].
Proof. rewrite insert_app_r_alt by done. by rewrite Nat.sub_diag. Qed.

Lemma sh_item_run (s : sh_state) (num : Z) :
  sh_main s = MLoop -> sh_mu s = false ->
  exists ls,
    run SingleHash s (sh_item_sched (length (sh_workers s)) num) =
      Some (ls, ShState MLoop false (sh_wg s)
                  (sh_workers s ++
                   [ShWorker (Itoa num) (DataSignerMd5 (Itoa num)) ShExit SubExit])) /\
    recvs ls = [VInt num].
Proof.
  destruct s as [m mu wg ws]. simpl. intros -> ->.
  eexists. split.
  - unfold sh_item_sched, steps. simpl.
    unfold sh_worker_step, sh_sub_step, sh_set_worker, sh_set_mu, sh_set_wg, sh_goto; simpl.
    repeat (rewrite ?lookup_last_app, ?insert_last_app; simpl). reflexivity.
  - reflexivity.
Qed.

Lemma sh_items_run (nums : list Z) (s : sh_state) :
  sh_main s = MLoop -> sh_mu s = false ->
  exists sched ls s',
    run SingleHash s sched = Some (ls, s') /\ recvs ls = VInt <$> nums /\
    sh_main s' = MLoop /\ sh_mu s' = false /\ sh_wg s' = sh_wg s.
Proof.
  revert s. induction nums as [|num nums IH]; intros s Hm Hmu.
  - exists [], [], s. by repeat split.
  - destruct (sh_item_run s num Hm Hmu) as (ls1 & Hrun1 & Hrecv1).
    match type of Hrun1 with _ = Some (_, ?s1) =>
      destruct (IH s1 eq_refl eq_refl) as (sched & ls2 & s' & Hrun2 & Hrecv2 & ? & ? & ?)
    end.
    eexists _, _, s'. split; [by eapply run_app|].
    rewrite recvs_app, Hrecv1, Hrecv2. by repeat split.
Qed.

(** For any integers there is a schedule on which [SingleHash] receives
    them all, sees its input closed, and returns. *)
Lemma sh_completes (nums : list Z) :
  exists sched ls s,
    run SingleHash (jinit SingleHash) sched = Some (ls, s) /\
    recvs ls = VInt <$> nums /\ sh_main s = MRet.
Proof.
  destruct (sh_items_run nums (jinit SingleHash) eq_refl eq_refl)
    as (sched & ls & s & Hrun & Hrecv & Hm & Hmu & Hwg).
  assert (Hclose : run SingleHash s closing_sched
                   = Some ([LEnd; LRet], sh_set_main (sh_set_main s MWait) MRet)).
  { simpl. unfold sh_main_step. rewrite Hm. simpl. by rewrite Hwg. }
  eexists _, _, _. split; [by eapply run_app|].
  rewrite recvs_app, Hrecv. simpl. by rewrite app_nil_r.
Qed.

Lemma mh_item_run (s : mh_state) (data : string) :
  mh_main s = MLoop ->
  exists ls,
    run MultiHash s (mh_item_sched (length (mh_workers s)) data) =
      Some (ls, MhState MLoop (mh_wg s)
                  (mh_workers s ++
                   [MhWorker data (saltedHash data <$> seq 0 numHashes) 0 MhExit
                             (replicate numHashes MsExit)])) /\
    recvs ls = [VString data].
Proof.
  destruct s as [m wg ws]. simpl. intros ->.
  eexists. split.
  - unfold mh_item_sched, mh_item_sched_in, steps. simpl.
    unfold mh_worker_step, mh_sub_step, mh_set_worker, mh_set_wg, mh_goto; simpl.
    repeat (rewrite ?lookup_last_app, ?insert_last_app; simpl). reflexivity.
  - reflexivity.
Qed.

Lemma mh_items_run (strs : list string) (s : mh_state) :
  mh_main s = MLoop ->
  exists sched ls s',
    run MultiHash s sched = Some (ls, s') /\ recvs ls = VString <$> strs /\
    mh_main s' = MLoop /\ mh_wg s' = mh_wg s.
Proof.
  revert s. induction strs as [|d strs IH]; intros s Hm.
  - exists [], [], s. by repeat split.
  - destruct (mh_item_run s d Hm) as (ls1 & Hrun1 & Hrecv1).
    match type of Hrun1 with _ = Some (_, ?s1) =>
      destruct (IH s1 eq_refl) as (sched & ls2 & s' & Hrun2 & Hrecv2 & ? & ?)
    end.
    eexists _, _, s'. split; [by eapply run_app|].
    rewrite recvs_app, Hrecv1, Hrecv2. by repeat split.
Qed.

Lemma mh_completes (strs : list string) :
  exists sched ls s,
    run MultiHash (jinit MultiHash) sched = Some (ls, s) /\
    recvs ls = VString <$> strs /\ mh_main s = MRet.
Proof.
  destruct (mh_items_run strs (jinit MultiHash) eq_refl)
    as (sched & ls & s & Hrun & Hrecv & Hm & Hwg).
  assert (Hclose : run MultiHash s closing_sched
                   = Some ([LEnd; LRet], mh_set_main (mh_set_main s MWait) MRet)).
  { simpl. unfold mh_main_step. rewrite Hm. simpl. by rewrite Hwg. }
  eexists _, _, _. split; [by eapply run_app|].
  rewrite recvs_app, Hrecv. simpl. by rewrite app_nil_r.
Qed.

Lemma cr_items_run (strs : list string) (s : cr_state) :
  cr_at s = CrLoop ->
  exists sched ls,
    run CombineResults s sched = Some (ls, CrState CrLoop (result s ++ strs)) /\
    recvs ls = VString <$> strs.
Proof.
  revert s. induction strs as [|d strs IH]; intros [pc res]; simpl; intros ->.
  - exists [], []. by rewrite app_nil_r.
  - destruct (IH (CrState CrLoop (res ++ [d])) eq_refl) as (sched & ls & Hrun & Hrecv).
    exists ([(Main, IVal (VString d)); (Main, INone)] ++ sched), ([LRecv (VString d); LTau] ++ ls).
    split.
    + simpl in Hrun. rewrite <- app_assoc in Hrun.
      assert (H1 : run CombineResults (CrState CrLoop res)
                     [(Main, IVal (VString d)); (Main, INone)]
                   = Some ([LRecv (VString d); LTau], CrState CrLoop (res ++ [d]))) by done.
      by apply (run_app CombineResults _ _ _ _ _ _ _ H1 Hrun).
    + rewrite recvs_app, Hrecv. done.
Qed.

(** For any strings there is a schedule on which [CombineResults] receives
    them all, sees its input closed, sends and returns. *)
Lemma cr_completes (strs : list string) :
  exists sched ls s,
    run CombineResults (jinit CombineResults) sched = Some (ls, s) /\
    recvs ls = VString <$> strs /\ cr_at s = CrRet.
Proof.
  destruct (cr_items_run strs (jinit CombineResults) eq_refl) as (sched & ls & Hrun & Hrecv).
  eexists (sched ++ [(Main, IClosed); (Main, INone); (Main, INone); (Main, INone)]), _, _.
  split.
  - eapply (run_app CombineResults); [exact Hrun|]. simpl. reflexivity.
  - rewrite recvs_app, Hrecv. simpl. by rewrite app_nil_r.
Qed.

(** ** The pipeline can run to its end *)

Lemma prun_app p es1 es2 p1 p2 :
  prun p es1 = Some p1 -> prun p1 es2 = Some p2 -> prun p (es1 ++ es2) = Some p2.
Proof.
  revert p. induction es1 as [|e es1 IH]; simpl; intros p H1 H2.
  - by simplify_eq.
  - destruct (pstep p e) as [q|]; simpl in *; [|done]. by apply IH.
Qed.

Lemma sig_start vals :
  exists p, prun (ExecutePipeline (signer vals)) (replicate 6 PExec) = Some p /\
    sig_at vals vals (jinit SingleHash) (jinit MultiHash) (jinit CombineResults) p.
Proof. eexists. split; [reflexivity|]. by exists [], [], [], [], []. Qed.

(** The producer hands the next value to SingleHash. *)
Lemma sig_feed vals v rest s1 s2 s3 p :
  sig_at vals (v :: rest) s1 s2 s3 p -> sh_main s1 = MLoop ->
  exists p', pstep p (PXfer 0 Main 1 Main) = Some p' /\
    sig_at vals rest (sh_set_main s1 (MItem v)) s2 s3 p'.
Proof.
  intros (h0 & h1 & h2 & h3 & h4 & ->) Hm.
  eexists. split.
  - cbn. unfold sh_main_step. rewrite Hm. cbn.
    destruct (decide (LRecv v = LRecv v)); [|done]. reflexivity.
  - by eexists _, _, _, _, _.
Qed.

Lemma sig_sh_tau vals rest s1 s2 s3 p t s1' :
  sig_at vals rest s1 s2 s3 p -> sh_step s1 t INone = Some (LTau, s1') ->
  exists p', pstep p (PStep 1 t) = Some p' /\ sig_at vals rest s1' s2 s3 p'.
Proof.
  intros (h0 & h1 & h2 & h3 & h4 & ->) Hs.
  eexists. split; [cbn; rewrite Hs; reflexivity|]. by eexists _, _, _, _, _.
Qed.

Lemma sig_mh_tau vals rest s1 s2 s3 p t s2' :
  sig_at vals rest s1 s2 s3 p -> mh_step s2 t INone = Some (LTau, s2') ->
  exists p', pstep p (PStep 2 t) = Some p' /\ sig_at vals rest s1 s2' s3 p'.
Proof.
  intros (h0 & h1 & h2 & h3 & h4 & ->) Hs.
  eexists. split; [cbn; rewrite Hs; reflexivity|]. by eexists _, _, _, _, _.
Qed.

Lemma sig_cr_tau vals rest s1 s2 s3 p t s3' :
  sig_at vals rest s1 s2 s3 p -> cr_step s3 t INone = Some (LTau, s3') ->
  exists p', pstep p (PStep 3 t) = Some p' /\ sig_at vals rest s1 s2 s3' p'.
Proof.
  intros (h0 & h1 & h2 & h3 & h4 & ->) Hs.
  eexists. split; [cbn; rewrite Hs; reflexivity|]. by eexists _, _, _, _, _.
Qed.

Lemma sig_sh_send vals rest s1 s2 s3 p t v s1' :
  sig_at vals rest s1 s2 s3 p -> sh_step s1 t INone = Some (LSend v, s1') ->
  mh_main s2 = MLoop ->
  exists p', pstep p (PXfer 1 t 2 Main) = Some p' /\
    sig_at vals rest s1' (mh_set_main s2 (MItem v)) s3 p'.
Proof.
  intros (h0 & h1 & h2 & h3 & h4 & ->) Hs Hm.
  eexists. split.
  - cbn. rewrite Hs. cbn. unfold mh_main_step. rewrite Hm. cbn.
    destruct (decide (LRecv v = LRecv v)); [|done]. reflexivity.
  - by eexists _, _, _, _, _.
Qed.

Lemma sig_mh_send vals rest s1 s2 s3 p t v s2' :
  sig_at vals rest s1 s2 s3 p -> mh_step s2 t INone = Some (LSend v, s2') ->
  cr_at s3 = CrLoop ->
  exists p', pstep p (PXfer 2 t 3 Main) = Some p' /\
    sig_at vals rest s1 s2' (CrState (CrItem v) (result s3)) p'.
Proof.
  intros (h0 & h1 & h2 & h3 & h4 & ->) Hs Hm.
  eexists. split.
  - cbn. rewrite Hs. cbn. unfold cr_step. rewrite Hm. cbn.
    destruct (decide (LRecv v = LRecv v)); [|done]. reflexivity.
  - by eexists _, _, _, _, _.
Qed.

(** Moves inside one stage that touch no channel carry over to the
    pipeline. *)
Lemma sig_sh_run vals rest s2 s3 ts : forall s1 p ls s1',
  sig_at vals rest s1 s2 s3 p ->
  run SingleHash s1 (silent ts) = Some (ls, s1') -> Forall (λ l, l = LTau) ls ->
  exists p', prun p (PStep 1 <$> ts) = Some p' /\ sig_at vals rest s1' s2 s3 p'.
Proof.
  induction ts as [|t ts IH]; simpl; intros s1 p ls s1' Hat Hrun Hls.
  - simplify_eq. by exists p.
  - destruct (sh_step s1 t INone) as [[l s]|] eqn:Es; [|done].
    destruct (run SingleHash s (silent ts)) as [[ls' s'']|] eqn:Er; [|done].
    simplify_eq. inversion Hls; subst.
    destruct (sig_sh_tau _ _ _ _ _ _ _ _ Hat Es) as (p1 & Hp1 & Hat1).
    destruct (IH _ _ _ _ Hat1 Er) as (p' & Hp' & Hat'); [done|].
    exists p'. by rewrite Hp1.
Qed.

Lemma sig_mh_run vals rest s1 s3 ts : forall s2 p ls s2',
  sig_at vals rest s1 s2 s3 p ->
  run MultiHash s2 (silent ts) = Some (ls, s2') -> Forall (λ l, l = LTau) ls ->
  exists p', prun p (PStep 2 <$> ts) = Some p' /\ sig_at vals rest s1 s2' s3 p'.
Proof.
  induction ts as [|t ts IH]; simpl; intros s2 p ls s2' Hat Hrun Hls.
  - simplify_eq. by exists p.
  - destruct (mh_step s2 t INone) as [[l s]|] eqn:Es; [|done].
    destruct (run MultiHash s (silent ts)) as [[ls' s'']|] eqn:Er; [|done].
    simplify_eq. inversion Hls; subst.
    destruct (sig_mh_tau _ _ _ _ _ _ _ _ Hat Es) as (p1 & Hp1 & Hat1).
    destruct (IH _ _ _ _ Hat1 Er) as (p' & Hp' & Hat'); [done|].
    exists p'. by rewrite Hp1.
Qed.

(** One integer inside SingleHash, from the type assertion to the send. *)
Lemma sh_item_work (wg : nat) (ws : list sh_worker) (num : Z) :
  let k := length ws in
  run SingleHash (ShState (MItem (VInt num)) false wg ws)
      (silent (Main :: replicate 5 (Worker k) ++ [Sub k 0; Worker k]))
  = Some (replicate 8 LTau,
          ShState MLoop false (S wg)
            (ws ++ [ShWorker (Itoa num) (DataSignerMd5 (Itoa num))
                             (ShSend (singleHashOf (Itoa num))) SubExit])).
Proof.
  simpl.
  unfold sh_worker_step, sh_sub_step, sh_set_worker, sh_set_mu, sh_set_wg, sh_goto; simpl.
  repeat (rewrite ?lookup_last_app, ?insert_last_app; simpl). reflexivity.
Qed.

Lemma sh_item_send (wg : nat) (ws : list sh_worker) (d m res : string) :
  sh_step (ShState MLoop false wg (ws ++ [ShWorker d m (ShSend res) SubExit]))
          (Worker (length ws)) INone
  = Some (LSend (VString res),
          ShState MLoop false wg (ws ++ [ShWorker d m ShDone SubExit])).
Proof.
  simpl. rewrite lookup_last_app. simpl.
  unfold sh_worker_step, sh_set_worker, sh_goto. simpl. by rewrite insert_last_app.
Qed.

Lemma sh_item_done (wg : nat) (ws : list sh_worker) (d m : string) :
  sh_step (ShState MLoop false (S wg) (ws ++ [ShWorker d m ShDone SubExit]))
          (Worker (length ws)) INone
  = Some (LTau, ShState MLoop false wg (ws ++ [ShWorker d m ShExit SubExit])).
Proof.
  simpl. rewrite lookup_last_app. simpl.
  unfold sh_worker_step, sh_set_worker, sh_set_wg, sh_goto. simpl.
  by rewrite insert_last_app.
Qed.

(** One string inside MultiHash, from the type assertion to the send. *)
Lemma mh_item_work (wg : nat) (ws : list mh_worker) (data : string) :
  let k := length ws in
  run MultiHash (MhState (MItem (VString data)) wg ws)
      (silent (Main :: replicate 8 (Worker k) ++
               (seq 0 numHashes ≫= λ i, [Sub k i; Sub k i]) ++ [Worker k]))
  = Some (replicate 22 LTau,
          MhState MLoop (S wg)
            (ws ++ [MhWorker data (saltedHash data <$> seq 0 numHashes) 0
                             (MhSend (multiHashOf data)) (replicate numHashes MsExit)])).
Proof.
  simpl.
  unfold mh_worker_step, mh_sub_step, mh_set_worker, mh_set_wg, mh_goto; simpl.
  repeat (rewrite ?lookup_last_app, ?insert_last_app; simpl). reflexivity.
Qed.

Lemma mh_item_send (wg : nat) (ws : list mh_worker) (d res : string) r n subs :
  mh_step (MhState MLoop wg (ws ++ [MhWorker d r n (MhSend res) subs]))
          (Worker (length ws)) INone
  = Some (LSend (VString res),
          MhState MLoop wg (ws ++ [MhWorker d r n MhDone subs])).
Proof.
  simpl. rewrite lookup_last_app. simpl.
  unfold mh_worker_step, mh_set_worker, mh_goto. simpl. by rewrite insert_last_app.
Qed.

Lemma mh_item_done (wg : nat) (ws : list mh_worker) (d : string) r n subs :
  mh_step (MhState MLoop (S wg) (ws ++ [MhWorker d r n MhDone subs]))
          (Worker (length ws)) INone
  = Some (LTau, MhState MLoop wg (ws ++ [MhWorker d r n MhExit subs])).
Proof.
  simpl. rewrite lookup_last_app. simpl.
  unfold mh_worker_step, mh_set_worker, mh_set_wg, mh_goto. simpl.
  by rewrite insert_last_app.
Qed.

(** One integer travels from the producer to [CombineResults]. *)
Lemma sig_item vals num rest p :
  sig_idle vals (VInt num :: rest) p ->
  exists es p', prun p es = Some p' /\ sig_idle vals rest p'.
Proof.
  intros (ws1 & ws2 & res & Hat).
  destruct (sig_feed _ _ _ _ _ _ _ Hat eq_refl) as (p1 & Hp1 & Hat1).
  destruct (sig_sh_run _ _ _ _ _ _ _ _ _ Hat1 (sh_item_work 0 ws1 num))
    as (p2 & Hp2 & Hat2); [by repeat constructor|].
  destruct (sig_sh_send _ _ _ _ _ _ _ _ _ Hat2 (sh_item_send _ _ _ _ _) eq_refl)
    as (p3 & Hp3 & Hat3).
  destruct (sig_sh_tau _ _ _ _ _ _ _ _ Hat3 (sh_item_done _ _ _ _))
    as (p4 & Hp4 & Hat4).
  destruct (sig_mh_run _ _ _ _ _ _ _ _ _ Hat4
              (mh_item_work 0 ws2 (singleHashOf (Itoa num))))
    as (p5 & Hp5 & Hat5); [by repeat constructor|].
  destruct (sig_mh_send _ _ _ _ _ _ _ _ _ Hat5 (mh_item_send _ _ _ _ _ _ _) eq_refl)
    as (p6 & Hp6 & Hat6).
  destruct (sig_mh_tau _ _ _ _ _ _ _ _ Hat6 (mh_item_done _ _ _ _ _ _))
    as (p7 & Hp7 & Hat7).
  destruct (sig_cr_tau _ _ _ _ _ _ Main _ Hat7 eq_refl) as (p8 & Hp8 & Hat8).
  eexists (_ :: _ ++ _ :: _ :: _ ++ _ :: _ :: [_]), p8. split.
  - simpl. rewrite Hp1. simpl.
    eapply prun_app; [exact Hp2|]. simpl. rewrite Hp3. simpl. rewrite Hp4. simpl.
    eapply prun_app; [exact Hp5|]. simpl. rewrite Hp6. simpl. rewrite Hp7. simpl.
    by rewrite Hp8.
  - by eexists _, _, _.
Qed.

Lemma sig_close vals p :
  sig_idle vals [] p ->
  exists p', prun p closing_events = Some p' /\ exec p' = EReturned /\ crashed p' = None.
Proof.
  intros (ws1 & ws2 & res & h0 & h1 & h2 & h3 & h4 & ->).
  eexists. split.
  - unfold closing_events. repeat (cbn; rewrite ?decide_True by done). reflexivity.
  - done.
Qed.

Lemma sig_items vals nums : forall p,
  sig_idle vals (VInt <$> nums) p ->
  exists es p', prun p es = Some p' /\ sig_idle vals [] p'.
Proof.
  induction nums as [|num nums IH]; intros p Hidle.
  - by exists [], p.
  - rewrite fmap_cons in Hidle.
    destruct (sig_item _ _ _ _ Hidle) as (es1 & p1 & Hp1 & Hidle1).
    destruct (IH _ Hidle1) as (es2 & p2 & Hp2 & Hidle2).
    exists (es1 ++ es2), p2. split; [by eapply prun_app|done].
Qed.

(** For any integers the pipeline has a schedule on which
    [ExecutePipeline] returns. *)
Lemma signer_completes (nums : list Z) :
  exists es p,
    prun (ExecutePipeline (signer (VInt <$> nums))) es = Some p /\
    exec p = EReturned /\ crashed p = None.
Proof.
  destruct (sig_start (VInt <$> nums)) as (p0 & Hp0 & Hat0).
  destruct (sig_items (VInt <$> nums) nums p0) as (es1 & p1 & Hp1 & Hidle1).
  { by eexists [], [], []. }
  destruct (sig_close _ _ Hidle1) as (p2 & Hp2 & He & Hc).
  exists (replicate 6 PExec ++ es1 ++ closing_events), p2.
  split; [|done]. eapply prun_app; [exact Hp0|]. by eapply prun_app.
Qed.

(** ** The stages, one property at a time *)

Lemma sh_outs_done (ws : list sh_worker) (nums : list Z) :
  sh_data <$> ws = Itoa <$> nums ->
  exists done, done ⊆+ nums /\
    sh_outs ws = (λ n, VString (singleHashOf (Itoa n))) <$> done.
Proof.
  revert nums. induction ws as [|w ws IH]; intros [|n nums] H; try done.
  - by exists [].
  - rewrite !fmap_cons in H. injection H as Hd H.
    destruct (IH _ H) as (done & Hsub & Hout).
    rewrite sh_outs_cons, Hout, Hd. destruct (sh_sent w).
    + exists (n :: done). split; [by apply submseteq_skip|done].
    + exists done. split; [by apply submseteq_cons|done].
Qed.

Lemma mh_outs_done (ws : list mh_worker) :
  exists done, done ⊆+ (mh_data <$> ws) /\
    mh_outs ws = (λ d, VString (multiHashOf d)) <$> done.
Proof.
  induction ws as [|w ws (done & Hsub & Hout)]; [by exists []|].
  rewrite mh_outs_cons, Hout, fmap_cons. destruct (mh_sent w).
  - exists (mh_data w :: done). split; [by apply submseteq_skip|done].
  - exists done. split; [by apply submseteq_cons|done].
Qed.

(** C1.  For any integers [nums] there is a schedule on which SingleHash
    receives them and returns; and on every schedule on which it has
    received them and returned, it has sent, in some order, exactly the
    strings [DataSignerCrc32(s) + "~" + DataSignerCrc32(DataSignerMd5(s))]
    for [s] the decimal form of each integer received. *)
Theorem SingleHash_emits (nums : list Z) :
  (exists sched ls s,
      run SingleHash (jinit SingleHash) sched = Some (ls, s) /\
      recvs ls = VInt <$> nums /\ sh_main s = MRet) /\
  (forall ls s,
      reaches SingleHash ls s -> recvs ls = VInt <$> nums -> sh_main s = MRet ->
      sends ls ≡ₚ
        (λ n, VString (DataSignerCrc32 (Itoa n) +:+ "~" +:+
                       DataSignerCrc32 (DataSignerMd5 (Itoa n)))) <$> nums).
Proof.
  split; [apply sh_completes|].
  intros ls s Hr Hrecv Hm.
  destruct (sh_returned _ _ Hr Hm) as (nums' & Hrecv' & Hsend).
  rewrite Hrecv in Hrecv'. apply VInt_fmap_inj in Hrecv'. by subst.
Qed.

(** C2.  For any strings there is a schedule on which MultiHash receives
    them and returns; and on every schedule on which it has received them
    and returned -- whatever the order in which the six goroutines of an
    item ran -- it has sent for each string [d] the concatenation of
    [DataSignerCrc32(strconv.Itoa(i) + d)] for [i] = 0, 1, 2, 3, 4, 5, in
    that order. *)
Theorem MultiHash_emits (strs : list string) :
  (exists sched ls s,
      run MultiHash (jinit MultiHash) sched = Some (ls, s) /\
      recvs ls = VString <$> strs /\ mh_main s = MRet) /\
  (forall ls s,
      reaches MultiHash ls s -> recvs ls = VString <$> strs -> mh_main s = MRet ->
      sends ls ≡ₚ
        (λ d, VString
                (DataSignerCrc32 ("0" +:+ d) +:+ DataSignerCrc32 ("1" +:+ d) +:+
                 DataSignerCrc32 ("2" +:+ d) +:+ DataSignerCrc32 ("3" +:+ d) +:+
                 DataSignerCrc32 ("4" +:+ d) +:+ DataSignerCrc32 ("5" +:+ d))) <$> strs).
Proof.
  split; [apply mh_completes|].
  intros ls s Hr Hrecv Hm.
  destruct (mh_returned _ _ Hr Hm) as (strs' & Hrecv' & Hsend).
  rewrite Hrecv in Hrecv'. apply VString_fmap_inj in Hrecv'. subst strs'.
  rewrite Hsend. clear.
  assert (Heq : forall d, multiHashOf d =
            DataSignerCrc32 ("0" +:+ d) +:+ DataSignerCrc32 ("1" +:+ d) +:+
            DataSignerCrc32 ("2" +:+ d) +:+ DataSignerCrc32 ("3" +:+ d) +:+
            DataSignerCrc32 ("4" +:+ d) +:+ DataSignerCrc32 ("5" +:+ d)).
  { intros d. unfold multiHashOf, numHashes.
    change (seq 0 6) with [0; 1; 2; 3; 4; 5]. rewrite !fmap_cons, fmap_nil.
    change (Itoa (Z.of_nat 0)) with "0". change (Itoa (Z.of_nat 1)) with "1".
    change (Itoa (Z.of_nat 2)) with "2". change (Itoa (Z.of_nat 3)) with "3".
    change (Itoa (Z.of_nat 4)) with "4". change (Itoa (Z.of_nat 5)) with "5".
    reflexivity. }
  induction strs as [|d strs IH]; [done|]. rewrite !fmap_cons, Heq. by f_equiv.
Qed.


(** The order [sort.Strings] uses compares byte by byte: the empty string
    comes first, and two non-empty strings are ordered by their first byte,
    then by what follows. *)
Lemma str_le_bytewise :
  (forall s, String.le "" s) /\
  (forall c r, ~ String.le (String c r) "") /\
  (forall c1 r1 c2 r2,
     String.le (String c1 r1) (String c2 r2) <->
     (N_of_ascii c1 < N_of_ascii c2)%N \/ (c1 = c2 /\ String.le r1 r2)).
Proof.
  unfold String.le, String.leb. repeat split.
  - intros [|? ?]; exact I.
  - intros c r H. exact H.
  - simpl. unfold Ascii.compare.
    destruct (N.compare_spec (N_of_ascii c1) (N_of_ascii c2)) as [He|Hl|Hg]; simpl.
    + intros H. right. split; [|done].
      rewrite <- (ascii_N_embedding c1), <- (ascii_N_embedding c2). by rewrite He.
    + by left.
    + intros [].
  - simpl. unfold Ascii.compare. intros [Hlt|[-> Hle]].
    + apply N.compare_lt_iff in Hlt. rewrite Hlt. exact I.
    + by rewrite N.compare_refl.
Qed.

(** C3.  CombineResults sends nothing before it has seen its input closed.
    For any strings there is a schedule on which it receives them, sees the
    input closed and returns; on every such schedule it has sent exactly
    one value, the received strings in ascending byte-wise order joined
    with ["_"]. *)
Theorem CombineResults_emits (strs : list string) :
  (forall ls s, reaches CombineResults ls s -> LEnd ∉ ls -> sends ls = []) /\
  (exists sched ls s,
      run CombineResults (jinit CombineResults) sched = Some (ls, s) /\
      recvs ls = VString <$> strs /\ cr_at s = CrRet) /\
  (forall ls s,
      reaches CombineResults ls s -> recvs ls = VString <$> strs -> cr_at s = CrRet ->
      sends ls = [VString (Join (sortStrings strs) "_")]) /\
  Sorted String.le (sortStrings strs) /\ sortStrings strs ≡ₚ strs.
Proof.
  split; [|split; [apply cr_completes|split; [|split]]].
  - intros ls s Hr Hend. destruct (cr_sends _ _ Hr) as [?|[? _]]; done.
  - intros ls s Hr Hrecv Hm. apply cr_reaches_inv in Hr. unfold cr_inv in Hr.
    rewrite Hm in Hr. destruct Hr as ((strs' & Hrecv' & Hsend) & _).
    rewrite Hrecv in Hrecv'. apply VString_fmap_inj in Hrecv'. by subst.
  - apply sortStrings_sorted.
  - apply sortStrings_perm.
Qed.

(** C10.  When the input of CombineResults is closed before anything was
    sent on it, CombineResults still sends one value, the empty string:
    there is such a schedule, and on every schedule on which it has
    received nothing and returned it has sent exactly [""]. *)
Theorem CombineResults_empty_input :
  run CombineResults (jinit CombineResults)
      [(Main, IClosed); (Main, INone); (Main, INone); (Main, INone)]
    = Some ([LEnd; LTau; LSend (VString ""); LRet], CrState CrRet []) /\
  (forall ls s,
      reaches CombineResults ls s -> recvs ls = [] -> cr_at s = CrRet ->
      sends ls = [VString ""]).
Proof.
  split; [reflexivity|].
  intros ls s Hr Hrecv Hm. apply cr_reaches_inv in Hr. unfold cr_inv in Hr.
  rewrite Hm in Hr. destruct Hr as ((strs & Hrecv' & Hsend) & _).
  rewrite Hrecv in Hrecv'. destruct strs; [|done]. by rewrite Hsend.
Qed.

Lemma sh_in_flight_holds (ws : list sh_worker) :
  count (λ w, bool_decide (sh_at w = ShMd5)) ws <= count sh_holds ws.
Proof.
  apply count_le. intros w Hw. apply bool_decide_eq_true in Hw.
  unfold sh_holds. by rewrite Hw.
Qed.

(** At most one call of [DataSignerMd5] is in flight in SingleHash. *)
Lemma sh_md5_exclusive ls s : reaches SingleHash ls s -> md5_in_flight s <= 1.
Proof.
  intros Hr%sh_reaches_inv. unfold md5_in_flight.
  pose proof (sh_in_flight_holds (sh_workers s)) as Hle.
  rewrite (sh_inv_mu _ _ Hr) in Hle. destruct (sh_mu s); simpl in Hle; lia.
Qed.

(** While a call is in flight, a worker that wants the mutex waits. *)
Lemma sh_lock_waits ls s k w :
  reaches SingleHash ls s -> md5_in_flight s = 1 ->
  sh_workers s !! k = Some w -> sh_at w = ShLock ->
  sh_step s (Worker k) INone = None.
Proof.
  intros Hr%sh_reaches_inv Hfl Hk Hat. simpl. rewrite Hk. simpl.
  unfold sh_worker_step. rewrite Hat.
  pose proof (sh_in_flight_holds (sh_workers s)) as Hle.
  unfold md5_in_flight in Hfl. rewrite Hfl, (sh_inv_mu _ _ Hr) in Hle.
  destruct (sh_mu s); [done|simpl in Hle; lia].
Qed.

(** C5.  On every schedule of the pipeline of [signer], whatever values it
    is fed, at most one call of [DataSignerMd5] is in flight at any moment:
    the calls are made by the workers of SingleHash only, between
    [mu.Lock()] and [mu.Unlock()], and a worker that finds a call in flight
    cannot take the mutex. *)
Theorem md5_never_concurrent (vals : list value) (es : list pevent) (p : pstate)
    (w : worker) :
  prun (ExecutePipeline (signer vals)) es = Some p ->
  workers p !! 1 = Some w ->
  exists s : sh_state,
    existT (wjob w) (wst w) = existT SingleHash s /\
    md5_in_flight s <= 1 /\
    (md5_in_flight s = 1 ->
     forall k wk, sh_workers s !! k = Some wk -> sh_at wk = ShLock ->
                  sh_step s (Worker k) INone = None).
Proof.
  intros Hrun Hw. pose proof (prun_pinv _ _ _ Hrun) as Hinv.
  pose proof (pinv_job _ _ _ _ Hinv Hw) as Hj. simpl in Hj.
  pose proof (w_hist _ _ _ (pi_workers _ _ Hinv _ _ Hw)) as Hh.
  destruct w as [j st i o ph h]. simpl in *. injection Hj as <-.
  exists st. split; [done|]. split; [by eapply sh_md5_exclusive|].
  intros. by eapply sh_lock_waits.
Qed.

(** ** The pipeline, one property at a time *)

Lemma signatureOf_order_free (nums nums' : list Z) :
  nums ≡ₚ nums' -> signatureOf nums = signatureOf nums'.
Proof.
  intros H. unfold signatureOf. f_equal. apply sortStrings_order_free. by rewrite H.
Qed.

(** C4.  The final string depends on the integers fed only as a multiset.
    For any integers the pipeline has a schedule on which it runs to its
    end; on every schedule the sink has received nothing or the one string
    [signatureOf nums], and it has received that string whenever
    [ExecutePipeline] has returned; and [signatureOf] gives the same string
    for any two arrangements of the same integers.  So two complete runs on
    the same integers, in whatever order they arrive and however the
    goroutines are scheduled, deliver the same bytes. *)
Theorem signer_order_independent (nums nums' : list Z) :
  nums ≡ₚ nums' ->
  signatureOf nums = signatureOf nums' /\
  (exists es p,
      prun (ExecutePipeline (signer (VInt <$> nums))) es = Some p /\
      exec p = EReturned /\ crashed p = None) /\
  (forall es p,
      prun (ExecutePipeline (signer (VInt <$> nums))) es = Some p ->
      (delivered p = [] \/ delivered p = [VString (signatureOf nums)]) /\
      (exec p = EReturned -> delivered p = [VString (signatureOf nums)])) /\
  (forall es es' p p',
      prun (ExecutePipeline (signer (VInt <$> nums))) es = Some p ->
      prun (ExecutePipeline (signer (VInt <$> nums'))) es' = Some p' ->
      exec p = EReturned -> exec p' = EReturned ->
      delivered p = delivered p').
Proof.
  intros Hperm. split; [by apply signatureOf_order_free|].
  split; [apply signer_completes|]. split.
  - intros es p Hrun. pose proof (prun_pinv _ _ _ Hrun) as Hinv. split.
    + by apply signer_delivered.
    + by apply signer_returned.
  - intros es es' p p' Hrun Hrun' He He'.
    rewrite (signer_returned nums p (prun_pinv _ _ _ Hrun) He).
    rewrite (signer_returned nums' p' (prun_pinv _ _ _ Hrun') He').
    by rewrite (signatureOf_order_free _ _ Hperm).
Qed.

(** C9.  [ExecutePipeline()] with no job: the only move is the executor's,
    it is the index [jobs[0]] of an empty slice, and it panics before any
    goroutine is started.  With at least one job the first move starts
    the goroutine of the first job. *)
Theorem ExecutePipeline_no_jobs :
  (forall es p,
      prun (ExecutePipeline []) es = Some p ->
      es = [] \/
      (es = [PExec] /\ crashed p = Some indexOutOfRange /\ workers p = [])) /\
  (forall j jobs, exists p,
      pstep (ExecutePipeline (j :: jobs)) PExec = Some p /\
      crashed p = None /\ workers p = [launch j None 0]).
Proof.
  split.
  - intros [|e es] p Hrun; [by left|right]. simpl in Hrun.
    destruct e; try done. simpl in Hrun.
    destruct es as [|e' es]; [|done]. simpl in Hrun. by simplify_eq.
  - intros j jobs. by eexists.
Qed.

Lemma panic_inv_update p a w w' cs n cr :
  panic_inv p -> crashed p = None -> workers p !! a = Some w ->
  (forall msg, LPanic msg ∈ whist w' ->
     cr <> None \/ unwinding (wphase_of w') \/
     (LPanic msg ∈ whist w /\ (unwinding (wphase_of w) -> unwinding (wphase_of w')))) ->
  panic_inv (PState (exec p) n cs (<[a:=w']> (workers p)) cr).
Proof.
  intros Hinv Hcr Ha Hnew b wb msg Hb Hin. simpl in *.
  destruct (decide (a = b)) as [<-|Hne].
  - rewrite list_lookup_insert_eq in Hb by by eapply lookup_lt_Some.
    injection Hb as <-. destruct (Hnew msg Hin) as [?|[?|[Hold Hmono]]]; eauto.
    destruct (Hinv a w msg Ha Hold) as [?|?]; [done|]. right. by apply Hmono.
  - rewrite list_lookup_insert_ne in Hb by done.
    destruct (Hinv b wb msg Hb Hin) as [?|?]; [done|by right].
Qed.

(** A label that is no panic is added to the history, the phase stays. *)
Lemma panic_inv_moved p a w l s cs n :
  panic_inv p -> crashed p = None -> workers p !! a = Some w ->
  (forall msg, l <> LPanic msg) ->
  panic_inv (PState (exec p) n cs (<[a:=moved w l s (wphase_of w)]> (workers p)) (crashed p)).
Proof.
  intros Hinv Hcr Ha Hl. eapply panic_inv_update; try done. simpl.
  intros msg. rewrite elem_of_app, list_elem_of_singleton.
  intros [?|?]; [|by destruct (Hl msg)]. right. right. by split.
Qed.

Lemma panic_inv_step p e p' : panic_inv p -> pstep p e = Some p' -> panic_inv p'.
Proof.
  intros Hinv Hstep. unfold pstep in Hstep.
  destruct (crashed p) eqn:Ecr; [done|]. destruct e as [|a t|a ts b tr|b tr|a].
  - (* the executor *)
    unfold exec_step in Hstep.
    assert (Hnew : forall j i o b wb msg,
              (workers p ++ [launch j i o]) !! b = Some wb -> LPanic msg ∈ whist wb ->
              unwinding (wphase_of wb)).
    { intros j i o b wb msg Hb Hin. apply lookup_app_Some in Hb as [Hb|[_ Hb]].
      - destruct (Hinv _ _ _ Hb Hin); [congruence|done].
      - apply list_lookup_singleton_Some in Hb as [_ <-]. by apply elem_of_nil in Hin. }
    assert (Hold : forall b wb msg,
              workers p !! b = Some wb -> LPanic msg ∈ whist wb ->
              unwinding (wphase_of wb)).
    { intros b wb msg Hb Hin. destruct (Hinv _ _ _ Hb Hin); [congruence|done]. }
    destruct (exec p) as [[|j js]|c [|j js]| |]; simplify_eq.
    + intros b wb msg Hb Hin. by left.
    + intros b wb msg Hb Hin. right. by eapply Hnew.
    + intros b wb msg Hb Hin. right. by eapply Hold.
    + intros b wb msg Hb Hin. right. by eapply Hnew.
    + destruct (decide (pwg p = 0)); simplify_eq.
      intros b wb msg Hb Hin. right. by eapply Hold.
  - (* inside a job *)
    unfold local_step in Hstep.
    destruct (workers p !! a) as [w|] eqn:Ea; simpl in Hstep; [|done].
    destruct (jstep _ _ _ _) as [[l s]|]; simpl in Hstep; [|done].
    destruct l; try done.
    + simplify_eq. unfold set_worker. by apply panic_inv_moved.
    + destruct t; [destruct (wphase_of w) eqn:Eph; try done|..]; simplify_eq.
      * unfold set_worker. eapply panic_inv_update; try done. simpl.
        intros m _. right. by left.
      * eapply panic_inv_update; try done. intros m _. by left.
      * eapply panic_inv_update; try done. intros m _. by left.
    + destruct t; try done. destruct (wphase_of w) eqn:Eph; try done. simplify_eq.
      unfold set_worker. eapply panic_inv_update; try done; simpl.
      intros m. rewrite elem_of_app, list_elem_of_singleton.
      intros [Hin|?]; [|done]. destruct (Hinv _ _ _ Ea Hin) as [?|Hu]; [done|].
      by rewrite Eph in Hu.
  - (* a value passes *)
    unfold xfer_step in Hstep.
    destruct (workers p !! a) as [wa|] eqn:Ea; simpl in Hstep; [|done].
    destruct (workers p !! b) as [wb|] eqn:Eb; simpl in Hstep; [|done].
    destruct (decide _) as [(Hab & _)|]; [|done].
    destruct (jstep _ _ ts _) as [[la sa]|]; simpl in Hstep; [|done].
    destruct la; try done.
    destruct (jstep _ _ tr _) as [[lb sb]|]; simpl in Hstep; [|done].
    destruct (decide _) as [->|]; [|done]. simplify_eq.
    unfold set_worker. simpl.
    assert (H1 : panic_inv (PState (exec p) (pwg p) (chans p)
                   (<[a:=moved wa (LSend v) sa (wphase_of wa)]> (workers p)) (crashed p))).
    { by apply panic_inv_moved. }
    eapply (panic_inv_moved _ b wb (LRecv v) sb (chans p) (pwg p)) in H1; try done.
    simpl. by rewrite list_lookup_insert_ne.
  - (* the input is closed *)
    unfold end_step in Hstep.
    destruct (workers p !! b) as [w|] eqn:Eb; simpl in Hstep; [|done].
    destruct (wIn w); simpl in Hstep; [|done].
    destruct (decide _); [|done].
    destruct (jstep _ _ _ _) as [[l s]|]; simpl in Hstep; [|done].
    destruct l; try done. simplify_eq. unfold set_worker. by apply panic_inv_moved.
  - (* a deferred call *)
    unfold defer_step in Hstep.
    destruct (workers p !! a) as [w|] eqn:Ea; simpl in Hstep; [|done].
    destruct (wphase_of w) as [|pn|pn| |m] eqn:Eph; try done.
    + simplify_eq. eapply panic_inv_update; try done; simpl.
      intros m Hin. right. right. split; [done|]. by rewrite Eph.
    + destruct (pwg p); [done|]. simplify_eq.
      eapply panic_inv_update; try done; simpl.
      intros m Hin. right. right. split; [done|]. rewrite Eph. by destruct pn.
    + simplify_eq. intros b wb m' Hb Hin. by left.
Qed.

Lemma prun_panic_inv jobs es p : prun (ExecutePipeline jobs) es = Some p -> panic_inv p.
Proof.
  apply (prun_ind panic_inv).
  - intros a w msg Ha. done.
  - intros. by eapply panic_inv_step.
Qed.

Lemma bad_last (A : Type) (P : A -> Prop) (l : list A) (u v : A) :
  Forall P l -> ~ P v -> v ∈ l ++ [u] -> v = u.
Proof.
  intros Hl Hv. rewrite elem_of_app, list_elem_of_singleton. intros [Hin|?]; [|done].
  rewrite Forall_forall in Hl. destruct Hv. apply Hl. by apply list_elem_of_In.
Qed.

Lemma sh_bad_item ls s v :
  reaches SingleHash ls s -> v ∈ recvs ls -> ~ is_int v ->
  aborted SingleHash ls s /\ (exists pre, recvs ls = pre ++ [v]) /\
  S (length (sh_workers s)) = length (recvs ls).
Proof.
  intros Hr Hin Hv.
  destruct (sh_reaches_ctl _ _ Hr) as (Hret & _ & _ & Hp).
  destruct (sh_inv_in _ _ (sh_reaches_inv _ _ Hr)) as (nums & Hd & Hrecv).
  assert (Hlen : length (sh_workers s) = length nums).
  { apply (f_equal length) in Hd. by rewrite !length_fmap in Hd. }
  pose proof (Forall_is_int_fmap nums) as Hints.
  assert (Hcontra : recvs ls = VInt <$> nums -> False).
  { intros E. rewrite E in Hin. rewrite Forall_forall in Hints.
    apply Hv, Hints. by apply list_elem_of_In. }
  assert (Hshape : exists u, recvs ls = (VInt <$> nums) ++ [u] /\
            (sh_main s = MItem u \/ sh_main s = MPanic)).
  { unfold sh_recvd in Hrecv. destruct (sh_main s) as [|u| | |];
      try (by destruct Hcontra); [by exists u; auto|].
    destruct Hrecv as (u & ? & _). exists u. auto. }
  destruct Hshape as (u & Hrecv' & Hm).
  rewrite Hrecv' in Hin. apply (bad_last _ _ _ _ _ Hints Hv) in Hin. subst u.
  split; [|split; [by eexists|]].
  - unfold aborted. simpl. unfold sh_main_step. split; [|split].
    + intros Hin. specialize (Hret Hin). destruct Hm; congruence.
    + intros i l s' Hs. destruct Hm as [Hm|Hm]; rewrite Hm in Hs; [|by destruct i].
      destruct v as [n| |]; [destruct Hv; by eexists|..];
        destruct i; by simplify_eq.
    + destruct Hm as [Hm|Hm]; [right|left; by apply Hp]. rewrite Hm.
      destruct v as [n| |]; [destruct Hv; by eexists|..]; by eexists.
  - rewrite Hrecv', length_app, length_fmap. simpl. lia.
Qed.

Lemma mh_bad_item ls s v :
  reaches MultiHash ls s -> v ∈ recvs ls -> ~ is_string v ->
  aborted MultiHash ls s /\ (exists pre, recvs ls = pre ++ [v]) /\
  S (length (mh_workers s)) = length (recvs ls).
Proof.
  intros Hr Hin Hv.
  destruct (mh_reaches_ctl _ _ Hr) as (Hret & _ & _ & Hp).
  destruct (mh_inv_in _ _ (mh_reaches_inv _ _ Hr)) as (strs & Hd & Hrecv).
  assert (Hlen : length (mh_workers s) = length strs).
  { apply (f_equal length) in Hd. by rewrite !length_fmap in Hd. }
  pose proof (Forall_is_string_fmap strs) as Hstrs.
  assert (Hcontra : recvs ls = VString <$> strs -> False).
  { intros E. rewrite E in Hin. rewrite Forall_forall in Hstrs.
    apply Hv, Hstrs. by apply list_elem_of_In. }
  assert (Hshape : exists u, recvs ls = (VString <$> strs) ++ [u] /\
            (mh_main s = MItem u \/ mh_main s = MPanic)).
  { unfold mh_recvd in Hrecv. destruct (mh_main s) as [|u| | |];
      try (by destruct Hcontra); [by exists u; auto|].
    destruct Hrecv as (u & ? & _). exists u. auto. }
  destruct Hshape as (u & Hrecv' & Hm).
  rewrite Hrecv' in Hin. apply (bad_last _ _ _ _ _ Hstrs Hv) in Hin. subst u.
  split; [|split; [by eexists|]].
  - unfold aborted. simpl. unfold mh_main_step. split; [|split].
    + intros Hin. specialize (Hret Hin). destruct Hm; congruence.
    + intros i l s' Hs. destruct Hm as [Hm|Hm]; rewrite Hm in Hs; [|by destruct i].
      destruct v as [|d|]; [|destruct Hv; by eexists|];
        destruct i; by simplify_eq.
    + destruct Hm as [Hm|Hm]; [right|left; by apply Hp]. rewrite Hm.
      destruct v as [|d|]; [|destruct Hv; by eexists|]; by eexists.
  - rewrite Hrecv', length_app, length_fmap. simpl. lia.
Qed.

Lemma cr_bad_item ls s v :
  reaches CombineResults ls s -> v ∈ recvs ls -> ~ is_string v ->
  aborted CombineResults ls s /\ (exists pre, recvs ls = pre ++ [v]) /\ sends ls = [].
Proof.
  intros Hr Hin Hv.
  destruct (cr_reaches_ctl _ _ Hr) as (Hret & _ & Hp).
  pose proof (cr_reaches_inv _ _ Hr) as Hinv. unfold cr_inv in Hinv.
  assert (Hcontra : forall strs, recvs ls = VString <$> strs -> False).
  { intros strs E. rewrite E in Hin. pose proof (Forall_is_string_fmap strs) as Hstrs.
    rewrite Forall_forall in Hstrs. apply Hv, Hstrs. by apply list_elem_of_In. }
  assert (Hshape : exists u, recvs ls = (VString <$> result s) ++ [u] /\ sends ls = [] /\
            (cr_at s = CrItem u \/ cr_at s = CrPanic)).
  { destruct (cr_at s) as [|u| | | | |];
      try (destruct Hinv as (Hrecv & _); by destruct (Hcontra _ Hrecv));
      try (destruct Hinv as ((strs & Hrecv & _) & _); by destruct (Hcontra _ Hrecv)).
    - destruct Hinv as (? & ? & _). exists u. auto.
    - destruct Hinv as ((u & ? & _) & ? & _). exists u. auto. }
  destruct Hshape as (u & Hrecv' & Hsend & Hm).
  rewrite Hrecv' in Hin.
  apply (bad_last _ _ _ _ _ (Forall_is_string_fmap _) Hv) in Hin. subst u.
  split; [|split; [by eexists|done]].
  unfold aborted. simpl. unfold cr_step. split; [|split].
  - intros Hin. specialize (Hret Hin). destruct Hm; congruence.
  - intros i l s' Hs. destruct Hm as [Hm|Hm]; rewrite Hm in Hs; [|by destruct i].
    destruct v as [|d|]; [|destruct Hv; by eexists|];
      destruct i; by simplify_eq.
  - destruct Hm as [Hm|Hm]; [right|left; by apply Hp]. rewrite Hm.
    destruct v as [|d|]; [|destruct Hv; by eexists|]; by eexists.
Qed.

(** A goroutine that unwinds can run its next deferred call. *)
Lemma unwinding_moves jobs p a w :
  pinv jobs p -> crashed p = None -> workers p !! a = Some w ->
  unwinding (wphase_of w) -> exists p', pstep p (PDefer a) = Some p'.
Proof.
  intros Hinv Hcr Ha Hu. unfold pstep, defer_step. rewrite Hcr, Ha. simpl.
  destruct (wphase_of w) as [|[?|]|[?|]| |?] eqn:Eph; try done; try by eexists.
  destruct (pwg p) as [|n] eqn:En; [|by eexists].
  pose proof (pi_wg _ _ Hinv) as Hwg. rewrite En in Hwg.
  symmetry in Hwg. apply count_zero in Hwg.
  rewrite Forall_lookup in Hwg. specialize (Hwg _ _ Ha).
  unfold pending in Hwg. by rewrite Eph in Hwg.
Qed.

(** C6, as the code has it.  A stage that receives a value of the wrong
    type (not an [int] at SingleHash, not a [string] at MultiHash or
    CombineResults) does not skip it: that value is the last one it
    receives, no worker is started for it, the stage function never
    returns, and the only move left to it is the panic
    ["type assertion failed"].  The goroutine of a job that has panicked
    never ends normally: it runs its deferred calls -- [close(chOut)], then
    [wg.Done()] -- and then the program is stopped, after which nothing
    moves. *)
Theorem wrong_type_aborts :
  (forall ls s v, reaches SingleHash ls s -> v ∈ recvs ls -> ~ is_int v ->
     aborted SingleHash ls s /\ (exists pre, recvs ls = pre ++ [v]) /\
     S (length (sh_workers s)) = length (recvs ls)) /\
  (forall ls s v, reaches MultiHash ls s -> v ∈ recvs ls -> ~ is_string v ->
     aborted MultiHash ls s /\ (exists pre, recvs ls = pre ++ [v]) /\
     S (length (mh_workers s)) = length (recvs ls)) /\
  (forall ls s v, reaches CombineResults ls s -> v ∈ recvs ls -> ~ is_string v ->
     aborted CombineResults ls s /\ (exists pre, recvs ls = pre ++ [v]) /\
     sends ls = []) /\
  (forall jobs es p a w msg,
     prun (ExecutePipeline jobs) es = Some p ->
     workers p !! a = Some w -> LPanic msg ∈ whist w ->
     (crashed p <> None /\ forall e, pstep p e = None) \/
     (crashed p = None /\ unwinding (wphase_of w) /\
      exists p', pstep p (PDefer a) = Some p')).
Proof.
  split; [exact sh_bad_item|]. split; [exact mh_bad_item|].
  split; [exact cr_bad_item|].
  intros jobs es p a w msg Hrun Ha Hin.
  destruct (crashed p) as [m|] eqn:Ecr.
  - left. split; [done|]. intros e. unfold pstep. by rewrite Ecr.
  - right. split; [done|].
    destruct (prun_panic_inv _ _ _ Hrun a w msg Ha Hin) as [Hc|Hu]; [congruence|].
    split; [done|]. eapply unwinding_moves; eauto. by eapply prun_pinv.
Qed.


(** * Further properties of the code *)

(** ** ExecutePipeline: channels, goroutines and the wait group *)

Lemma count_pos {A} (f : A -> bool) (l : list A) :
  0 < count f l -> exists k x, l !! k = Some x /\ f x = true.
Proof.
  induction l as [|y l IH]; simpl; [lia|].
  destruct (f y) eqn:E.
  - intros _. by exists 0, y.
  - intros H. destruct IH as (k & x & Hk & Hx); [lia|]. by exists (S k), x.
Qed.

Lemma workers_le_jobs jobs p : pinv jobs p -> length (workers p) <= length jobs.
Proof.
  intros Hinv. pose proof (pi_exec _ _ Hinv) as Hex. unfold exec_inv in Hex.
  destruct (exec p).
  - destruct Hex as (_ & -> & _). simpl. lia.
  - destruct Hex as (-> & _). rewrite length_app, length_fmap. lia.
  - destruct Hex as (-> & _). by rewrite length_fmap.
  - destruct Hex as (-> & _). by rewrite length_fmap.
Qed.

(** X1.  Between two adjacent jobs nothing is lost, duplicated or
    reordered: on every schedule of [ExecutePipeline], for any jobs, the
    input channel of the job at position [a+1] is the output channel of the
    job at position [a], and what the one has received so far is exactly
    what the other has sent so far, in the same order. *)
Theorem channel_delivers_in_order jobs es p a wb :
  prun (ExecutePipeline jobs) es = Some p ->
  workers p !! S a = Some wb ->
  exists wa, workers p !! a = Some wa /\
             wIn wb = Some (wOut wa) /\
             recvs (whist wb) = sends (whist wa).
Proof.
  intros Hrun Hb. pose proof (prun_pinv _ _ _ Hrun) as Hinv.
  destruct (prev_sends _ _ _ _ Hinv Hb) as (wa & Ha & Hrs).
  exists wa. split; [done|]. split; [|done].
  rewrite (w_in _ _ _ (pi_workers _ _ Hinv _ _ Hb)).
  by rewrite (w_out _ _ _ (pi_workers _ _ Hinv _ _ Ha)).
Qed.

(** X2.  The first job is given the nil channel: on every schedule, for
    any jobs, it never receives a value and never sees its input closed. *)
Theorem first_job_never_receives jobs es p w :
  prun (ExecutePipeline jobs) es = Some p ->
  workers p !! 0 = Some w ->
  wIn w = None /\ recvs (whist w) = [] /\ (LEnd ∉ whist w) /\
  (forall t, pstep p (PEnd 0 t) = None) /\
  (forall a ts tr, pstep p (PXfer a ts 0 tr) = None).
Proof.
  intros Hrun Hw. pose proof (prun_pinv _ _ _ Hrun) as Hinv.
  destruct (pi_workers _ _ Hinv _ _ Hw) as [Ho Hi _ _ _ Hr _ He].
  split; [done|]. split; [done|]. split.
  { intros Hend. by destruct (He Hend) as (a' & w' & ? & _). }
  split.
  - intros t. unfold pstep, end_step. destruct (crashed p); [done|].
    rewrite Hw. simpl. by rewrite Hi.
  - intros a ts tr. unfold pstep, xfer_step. destruct (crashed p); [done|].
    destruct (workers p !! a) as [wa|]; [|done]. simpl. rewrite Hw. simpl.
    rewrite Hi. by rewrite decide_False by (by intros (_ & ? & _)).
Qed.

(** X3.  Nobody reads the output channel of the last job: on every
    schedule, for any jobs, the last job has sent nothing, and no send of
    it can go through. *)
Theorem last_job_never_sends jobs es p a w :
  prun (ExecutePipeline jobs) es = Some p ->
  workers p !! a = Some w ->
  S a = length jobs ->
  sends (whist w) = [] /\ (forall ts b tr, pstep p (PXfer a ts b tr) = None).
Proof.
  intros Hrun Hw Hlast. pose proof (prun_pinv _ _ _ Hrun) as Hinv.
  pose proof (workers_le_jobs _ _ Hinv) as Hle.
  assert (Hnone : workers p !! S a = None) by (apply lookup_ge_None; lia).
  split; [by apply (w_send _ _ _ (pi_workers _ _ Hinv _ _ Hw))|].
  intros ts b tr. unfold pstep, xfer_step. destruct (crashed p); [done|].
  rewrite Hw. simpl. destruct (workers p !! b) as [wb|] eqn:Hb; [|done]. simpl.
  destruct (pi_workers _ _ Hinv _ _ Hw) as [Ho _ _ _ _ _ _ _].
  destruct (pi_workers _ _ Hinv _ _ Hb) as [_ Hi _ _ _ _ _ _].
  rewrite decide_False; [done|]. intros (_ & Hin & _).
  rewrite Hi, Ho in Hin. destruct b as [|b]; [done|]. simpl in Hin.
  injection Hin as ->. congruence.
Qed.

(** X4.  Every channel is closed exactly once, by the goroutine of the job
    that writes to it: on every schedule the channel of position [a] is
    open as long as that goroutine has not run its deferred
    [close(chOut)] -- so the close never hits a closed channel -- and
    closed from then on; and when [ExecutePipeline] has returned every
    channel it made is closed. *)
Theorem channels_closed_once jobs es p :
  prun (ExecutePipeline jobs) es = Some p ->
  (forall a w, workers p !! a = Some w ->
     match wphase_of w with
     | WRun | WClose _ => chans p !! a = Some false
     | WDone _ | WExit | WFatal _ => chans p !! a = Some true
     end) /\
  (exec p = EReturned ->
   length (chans p) = length jobs /\ Forall (λ c, c = true) (chans p)).
Proof.
  intros Hrun. pose proof (prun_pinv _ _ _ Hrun) as Hinv. split.
  - intros a w Hw. rewrite (w_chan _ _ _ (pi_workers _ _ Hinv _ _ Hw)).
    by destruct (wphase_of w).
  - intros He. pose proof (pi_exec _ _ Hinv) as Hex. unfold exec_inv in Hex.
    rewrite He in Hex. destruct Hex as (-> & _ & Hlen & H0).
    split; [by rewrite length_fmap|].
    pose proof (pi_wg _ _ Hinv) as Hwg. rewrite H0 in Hwg. symmetry in Hwg.
    apply count_zero in Hwg. rewrite Forall_lookup in Hwg.
    apply Forall_lookup. intros a c Hc.
    destruct (workers p !! a) as [w|] eqn:Hw.
    + rewrite (w_chan _ _ _ (pi_workers _ _ Hinv _ _ Hw)) in Hc.
      specialize (Hwg _ _ Hw). unfold pending in Hwg.
      injection Hc as <-. by destruct (wphase_of w).
    + apply lookup_ge_None in Hw. apply lookup_lt_Some in Hc. lia.
Qed.

(** X5.  The wait group of [ExecutePipeline] counts the goroutines that
    have not yet called [wg.Done()]: at every moment of every schedule its
    counter is their number, so a goroutine that has reached its deferred
    [wg.Done()] finds the counter positive and the call goes through. *)
Theorem wg_counts_goroutines jobs es p :
  prun (ExecutePipeline jobs) es = Some p ->
  pwg p = count pending (workers p) /\
  (forall a w pn, workers p !! a = Some w -> wphase_of w = WDone pn ->
     0 < pwg p /\
     (crashed p = None ->
      exists p', pstep p (PDefer a) = Some p' /\ S (pwg p') = pwg p)).
Proof.
  intros Hrun. pose proof (prun_pinv _ _ _ Hrun) as Hinv.
  pose proof (pi_wg _ _ Hinv) as Hwg. split; [done|].
  intros a w pn Hw Hph.
  assert (Hpos : 0 < pwg p).
  { rewrite Hwg. destruct (insert_split _ a w w Hw) as (l1 & l2 & -> & _).
    rewrite count_app. simpl. unfold pending at 2. rewrite Hph. lia. }
  split; [done|]. intros Hcr. unfold pstep, defer_step. rewrite Hcr, Hw. simpl.
  rewrite Hph. destruct (pwg p) as [|n]; [lia|]. by eexists.
Qed.

(** ** A stage as the first job *)

Lemma no_input_snoc (ls : list label) (l : label) :
  recvs (ls ++ [l]) = [] -> LEnd ∉ (ls ++ [l]) ->
  recvs ls = [] /\ (LEnd ∉ ls) /\ (forall v, l <> LRecv v) /\ l <> LEnd.
Proof.
  intros Hr He. rewrite recvs_snoc in Hr. apply app_eq_nil in Hr as [Hr Hl].
  split; [done|]. split; [|split].
  - intros H. apply He. apply elem_of_app. by left.
  - intros v ->. discriminate Hl.
  - intros ->. apply He. apply elem_of_app. right. by apply list_elem_of_singleton.
Qed.

Lemma sh_without_input ls s :
  reaches SingleHash ls s -> recvs ls = [] -> LEnd ∉ ls ->
  ls = [] /\ s = jinit SingleHash.
Proof.
  intros Hr. revert ls s Hr.
  apply (reaches_ind SingleHash (λ ls s, recvs ls = [] -> LEnd ∉ ls ->
                                       ls = [] /\ s = jinit SingleHash)).
  - done.
  - intros ls s t i l s' IH Hstep Hr He.
    destruct (no_input_snoc _ _ Hr He) as (Hr' & He' & Hl & Hl').
    destruct (IH Hr' He') as [-> ->]. simpl in Hstep.
    destruct t as [|k|k [|n]], i; cbv in Hstep; simplify_eq; done.
Qed.

Lemma mh_without_input ls s :
  reaches MultiHash ls s -> recvs ls = [] -> LEnd ∉ ls ->
  ls = [] /\ s = jinit MultiHash.
Proof.
  intros Hr. revert ls s Hr.
  apply (reaches_ind MultiHash (λ ls s, recvs ls = [] -> LEnd ∉ ls ->
                                      ls = [] /\ s = jinit MultiHash)).
  - done.
  - intros ls s t i l s' IH Hstep Hr He.
    destruct (no_input_snoc _ _ Hr He) as (Hr' & He' & Hl & Hl').
    destruct (IH Hr' He') as [-> ->]. simpl in Hstep.
    destruct t as [|k|k n], i; cbv in Hstep; simplify_eq; done.
Qed.

Lemma cr_without_input ls s :
  reaches CombineResults ls s -> recvs ls = [] -> LEnd ∉ ls ->
  ls = [] /\ s = jinit CombineResults.
Proof.
  intros Hr. revert ls s Hr.
  apply (reaches_ind CombineResults (λ ls s, recvs ls = [] -> LEnd ∉ ls ->
                                           ls = [] /\ s = jinit CombineResults)).
  - done.
  - intros ls s t i l s' IH Hstep Hr He.
    destruct (no_input_snoc _ _ Hr He) as (Hr' & He' & Hl & Hl').
    destruct (IH Hr' He') as [-> ->]. simpl in Hstep.
    destruct t as [|k|k n], i; cbv in Hstep; simplify_eq; done.
Qed.

(** X6.  A pipeline whose first job is one of the three stages never
    completes: the stage ranges over the nil channel, so on every schedule
    it has made no move at all, its goroutine is still inside the job
    function, and [ExecutePipeline] has not returned. *)
Theorem stage_as_first_job_never_returns j jobs es p :
  j = SingleHash \/ j = MultiHash \/ j = CombineResults ->
  prun (ExecutePipeline (j :: jobs)) es = Some p ->
  exec p <> EReturned /\
  (forall w, workers p !! 0 = Some w -> whist w = [] /\ wphase_of w = WRun).
Proof.
  intros Hj Hrun. pose proof (prun_pinv _ _ _ Hrun) as Hinv.
  assert (Hw0 : forall w, workers p !! 0 = Some w ->
                          whist w = [] /\ wphase_of w = WRun).
  { intros w Hw.
    pose proof (pinv_job _ _ _ _ Hinv Hw) as Hjob. simpl in Hjob.
    destruct (pi_workers _ _ Hinv _ _ Hw) as [_ _ _ Hh Hl Hr _ He].
    assert (Hend : LEnd ∉ whist w).
    { intros Hend. by destruct (He Hend) as (a' & w' & ? & _). }
    destruct w as [j' st i o ph h]. simpl in *. injection Hjob as <-.
    assert (Hnil : h = []).
    { destruct Hj as [-> | [-> | ->]].
      - by destruct (sh_without_input _ _ Hh Hr Hend).
      - by destruct (mh_without_input _ _ Hh Hr Hend).
      - by destruct (cr_without_input _ _ Hh Hr Hend). }
    split; [done|]. subst h.
    destruct ph as [|[?|]|[?|]| |?]; simpl in Hl; try done;
      by apply elem_of_nil in Hl. }
  split; [|done]. intros He.
  pose proof (pi_exec _ _ Hinv) as Hex. unfold exec_inv in Hex.
  rewrite He in Hex. destruct Hex as (Hjobs & _ & _ & H0).
  destruct (workers p) as [|w ws] eqn:Hws; [done|].
  destruct (Hw0 w) as [_ Hph]; [done|].
  pose proof (pi_wg _ _ Hinv) as Hwg. rewrite H0, Hws in Hwg. simpl in Hwg.
  unfold pending in Hwg at 1. rewrite Hph in Hwg. lia.
Qed.

(** ** The stages once they have returned *)

Lemma sh_returned_stuck ls s t i :
  sh_inv ls s -> sh_main s = MRet -> sh_step s t i = None.
Proof.
  intros Hinv Hm. pose proof (sh_inv_ret _ _ Hinv Hm) as H0.
  destruct t as [|k|k n]; simpl.
  - unfold sh_main_step. rewrite Hm. by destruct i.
  - destruct i; try done. destruct (sh_workers s !! k) as [w|] eqn:Ek; [|done].
    simpl. destruct (sh_all_exited _ _ _ _ Hinv H0 Ek) as [Hx _].
    unfold sh_worker_step. by rewrite Hx.
  - destruct n; [|done]. destruct i; try done.
    destruct (sh_workers s !! k) as [w|] eqn:Ek; [|done].
    simpl. destruct (sh_all_exited _ _ _ _ Hinv H0 Ek) as [_ Hx].
    unfold sh_sub_step. by rewrite Hx.
Qed.

(** X7.  SingleHash leaves nothing behind: when it has returned, on any
    schedule, it has started one worker for each value received, every
    worker and the goroutine each worker started have ended, the mutex is
    unlocked, the counter of [wg] is zero, and no goroutine of it can make
    any further move. *)
Theorem SingleHash_leaves_no_goroutine ls s :
  reaches SingleHash ls s -> sh_main s = MRet ->
  length (sh_workers s) = length (recvs ls) /\
  Forall (λ w, sh_at w = ShExit /\ sh_ch2 w = SubExit) (sh_workers s) /\
  sh_mu s = false /\ sh_wg s = 0 /\
  (forall t i, sh_step s t i = None).
Proof.
  intros Hr Hm. apply sh_reaches_inv in Hr.
  pose proof (sh_inv_ret _ _ Hr Hm) as H0.
  assert (Hall : Forall (λ w, sh_at w = ShExit /\ sh_ch2 w = SubExit) (sh_workers s)).
  { apply Forall_lookup. intros k w Ek. by eapply sh_all_exited. }
  split; [|split; [done|split; [|split; [done|]]]].
  - destruct (sh_inv_in _ _ Hr) as (nums & Hd & Hrecv). rewrite Hm in Hrecv.
    simpl in Hrecv. rewrite Hrecv, length_fmap.
    rewrite <- (length_fmap sh_data), Hd. by rewrite length_fmap.
  - pose proof (sh_inv_mu _ _ Hr) as Hmu.
    assert (Hz : count sh_holds (sh_workers s) = 0).
    { clear Hmu. induction Hall as [|w ws [Hx _] _ IH]; [done|].
      simpl. unfold sh_holds at 1. by rewrite Hx. }
    rewrite Hz in Hmu. by destruct (sh_mu s).
  - intros t i. by eapply sh_returned_stuck.
Qed.

Lemma mh_returned_stuck ls s t i :
  mh_inv ls s -> mh_main s = MRet -> mh_step s t i = None.
Proof.
  intros Hinv Hm. pose proof (mh_inv_ret _ _ Hinv Hm) as H0.
  destruct t as [|k|k n]; simpl.
  - unfold mh_main_step. rewrite Hm. by destruct i.
  - destruct i; try done. destruct (mh_workers s !! k) as [w|] eqn:Ek; [|done].
    simpl. destruct (mh_all_exited _ _ _ _ Hinv H0 Ek) as [Hx _].
    unfold mh_worker_step. by rewrite Hx.
  - destruct i; try done.
    destruct (mh_workers s !! k) as [w|] eqn:Ek; [|done].
    simpl. destruct (mh_all_exited _ _ _ _ Hinv H0 Ek) as [_ Hx].
    unfold mh_sub_step. destruct (mh_subs w !! n) as [sb|] eqn:En; [|done].
    rewrite Forall_lookup in Hx. by rewrite (Hx _ _ En).
Qed.

(** X8.  MultiHash leaves nothing behind: when it has returned, on any
    schedule, it has started one worker for each value received, every
    worker has ended and so have the six goroutines of each, each
    [multiRes] holds its six hashes, both wait groups are at zero, and no
    goroutine of it can make any further move. *)
Theorem MultiHash_leaves_no_goroutine ls s :
  reaches MultiHash ls s -> mh_main s = MRet ->
  length (mh_workers s) = length (recvs ls) /\
  Forall (λ w, mh_at w = MhExit /\ mh_subs w = replicate numHashes MsExit /\
               wgIn w = 0 /\
               multiRes w = (λ i, DataSignerCrc32 (Itoa (Z.of_nat i) +:+ mh_data w))
                              <$> seq 0 numHashes)
         (mh_workers s) /\
  mh_wg s = 0 /\
  (forall t i, mh_step s t i = None).
Proof.
  intros Hr Hm. apply mh_reaches_inv in Hr.
  pose proof (mh_inv_ret _ _ Hr Hm) as H0.
  split; [|split; [|split; [done|]]].
  - destruct (mh_inv_in _ _ Hr) as (strs & Hd & Hrecv). rewrite Hm in Hrecv.
    simpl in Hrecv. rewrite Hrecv, length_fmap, <- Hd. by rewrite length_fmap.
  - apply Forall_lookup. intros k w Ek.
    destruct (mh_all_exited _ _ _ _ Hr H0 Ek) as [Hx Hsubs].
    pose proof (mh_inv_ok _ _ Hr) as Hok. rewrite Forall_lookup in Hok.
    specialize (Hok _ _ Ek). unfold mh_worker_ok in Hok. rewrite Hx in Hok.
    destruct Hok as (Hst & Hlen & Hwg).
    destruct (mh_all_written w Hst Hlen Hwg) as [_ Hres].
    split; [done|]. split; [|split; [done|exact Hres]].
    rewrite <- Hlen. clear -Hsubs. induction Hsubs as [|sb l -> _ IH]; [done|].
    simpl. by rewrite <- IH.
  - intros t i. by eapply mh_returned_stuck.
Qed.

(** ** The stages never hang and never run on *)

Lemma sum_insert {A} (f : A -> nat) (l : list A) (k : nat) (x y : A) :
  l !! k = Some x ->
  sum_list_with f (<[k:=y]> l) + f x = sum_list_with f l + f y.
Proof.
  intros H. destruct (insert_split _ k x y H) as (l1 & l2 & -> & -> & _).
  rewrite !sum_list_with_app. simpl. lia.
Qed.


Lemma count_short {A} (f : A -> bool) (l : list A) :
  count f l < length l -> exists k x, l !! k = Some x /\ f x = false.
Proof.
  induction l as [|y l IH]; simpl; [lia|].
  destruct (f y) eqn:E.
  - intros H. destruct IH as (k & x & Hk & Hx); [lia|]. by exists (S k), x.
  - intros _. by exists 0, y.
Qed.

(** One move of a worker of SingleHash, or of the goroutine it started, is
    one move less to make. *)
Lemma sh_worker_step_left s k w l s' :
  sh_workers s !! k = Some w -> sh_worker_step s k w = Some (l, s') ->
  sh_main s' = sh_main s /\
  exists w', sh_workers s' = <[k:=w']> (sh_workers s) /\
             sh_steps_left w = S (sh_steps_left w').
Proof.
  intros Ek Hstep. unfold sh_worker_step in Hstep.
  destruct w as [d m pc sub]; simpl in *.
  destruct pc; simpl in *; repeat case_match; simplify_eq; simpl;
    (split; [done|]); eexists; (split; [done|]); done.
Qed.

Lemma sh_sub_step_left s k w l s' :
  sh_worker_ok w ->
  sh_workers s !! k = Some w -> sh_sub_step s k w = Some (l, s') ->
  sh_main s' = sh_main s /\
  exists w', sh_workers s' = <[k:=w']> (sh_workers s) /\
             sh_steps_left w = S (sh_steps_left w').
Proof.
  intros Hok Ek Hstep. unfold sh_sub_step in Hstep.
  destruct w as [d m pc sub]; simpl in *.
  destruct sub; simplify_eq. simpl. split; [done|]. eexists. split; [done|].
  unfold sh_worker_ok, sh_ch2_busy in Hok. simpl in Hok.
  unfold sh_steps_left. simpl.
  destruct pc; simpl; try done; naive_solver.
Qed.


(** As long as SingleHash has not returned after its input was closed, some
    goroutine of it can move. *)
Lemma sh_progress ls s :
  sh_inv ls s -> sh_main s = MWait ->
  exists t l s', sh_step s t INone = Some (l, s').
Proof.
  intros Hinv Hm. destruct (decide (sh_wg s = 0)) as [H0|Hpos].
  { exists Main. simpl. unfold sh_main_step. rewrite Hm.
    rewrite decide_True by done. by eexists _, _. }
  pose proof (sh_inv_wg _ _ Hinv) as Hwg.
  destruct (count_pos sh_live (sh_workers s)) as (k & w & Ek & Hlive); [lia|].
  pose proof (sh_inv_ok _ _ Hinv) as Hok. rewrite Forall_lookup in Hok.
  pose proof (Hok _ _ Ek) as Hwok. unfold sh_worker_ok in Hwok.
  assert (Hgo : forall l s', sh_worker_step s k w = Some (l, s') ->
                  exists t l s', sh_step s t INone = Some (l, s')).
  { intros l s' H. exists (Worker k), l, s'. simpl. by rewrite Ek. }
  unfold sh_live in Hlive. destruct (sh_at w) eqn:Eat; try done.
  - (* mu.Lock() *)
    destruct (sh_mu s) eqn:Emu.
    + pose proof (sh_inv_mu _ _ Hinv) as Hmu. rewrite Emu in Hmu. simpl in Hmu.
      destruct (count_pos sh_holds (sh_workers s)) as (k' & w' & Ek' & Hh); [lia|].
      exists (Worker k'). simpl. rewrite Ek'. simpl. unfold sh_worker_step.
      unfold sh_holds in Hh. destruct (sh_at w'); try done; by eexists _, _.
    + eapply Hgo. unfold sh_worker_step. by rewrite Eat, Emu.
  - eapply Hgo. unfold sh_worker_step. by rewrite Eat.
  - eapply Hgo. unfold sh_worker_step. by rewrite Eat.
  - eapply Hgo. unfold sh_worker_step. by rewrite Eat.
  - eapply Hgo. unfold sh_worker_step. by rewrite Eat.
  - (* <-ch2 *)
    destruct Hwok as (_ & _ & [Hsub|Hsub]).
    + exists (Sub k 0). simpl. rewrite Ek. simpl. unfold sh_sub_step.
      rewrite Hsub. by eexists _, _.
    + eapply Hgo. unfold sh_worker_step. by rewrite Eat, Hsub.
  - eapply Hgo. unfold sh_worker_step. by rewrite Eat.
  - (* wg.Done() *)
    destruct (sh_wg s) as [|n] eqn:En; [done|].
    apply (Hgo LTau (sh_set_worker (sh_set_wg s n) k (sh_goto w ShExit))).
    unfold sh_worker_step. by rewrite Eat, En.
Qed.





Lemma mh_worker_step_left s k w l s' :
  mh_workers s !! k = Some w -> mh_worker_step s k w = Some (l, s') ->
  mh_main s' = mh_main s /\
  exists w', mh_workers s' = <[k:=w']> (mh_workers s) /\
             mh_steps_left w = S (mh_steps_left w').
Proof.
  intros Ek Hstep. unfold mh_worker_step in Hstep.
  destruct w as [d res n pc subs]; simpl in *.
  destruct pc; simpl in *; repeat case_match; simplify_eq; simpl;
    (split; [done|]); eexists; (split; [done|]);
    unfold mh_steps_left, numHashes in *; simpl;
    rewrite ?sum_list_with_app; simpl; lia.
Qed.

Lemma mh_sub_step_left s k w i l s' :
  mh_workers s !! k = Some w -> mh_sub_step s k w i = Some (l, s') ->
  mh_main s' = mh_main s /\
  exists w', mh_workers s' = <[k:=w']> (mh_workers s) /\
             mh_steps_left w = S (mh_steps_left w').
Proof.
  intros Ek Hstep. unfold mh_sub_step in Hstep.
  destruct w as [d res n pc subs]; simpl in *.
  destruct (subs !! i) as [sb|] eqn:Ei; [|done].
  destruct sb; repeat case_match; simplify_eq; simpl;
    (split; [done|]); eexists; (split; [done|]);
    unfold mh_steps_left; simpl.
  - pose proof (sum_insert ms_steps_left subs i MsCrc MsDone Ei). simpl in *. lia.
  - pose proof (sum_insert ms_steps_left subs i MsDone MsExit Ei). simpl in *. lia.
Qed.


(** As long as MultiHash has not returned after its input was closed, some
    goroutine of it can move. *)
Lemma mh_progress ls s :
  mh_inv ls s -> mh_main s = MWait ->
  exists t l s', mh_step s t INone = Some (l, s').
Proof.
  intros Hinv Hm. destruct (decide (mh_wg s = 0)) as [H0|Hpos].
  { exists Main. simpl. unfold mh_main_step. rewrite Hm.
    rewrite decide_True by done. by eexists _, _. }
  pose proof (mh_inv_wg _ _ Hinv) as Hwg.
  destruct (count_pos mh_live (mh_workers s)) as (k & w & Ek & Hlive); [lia|].
  pose proof (mh_inv_ok _ _ Hinv) as Hok. rewrite Forall_lookup in Hok.
  pose proof (Hok _ _ Ek) as Hwok. unfold mh_worker_ok in Hwok.
  assert (Hgo : forall l s', mh_worker_step s k w = Some (l, s') ->
                  exists t l s', mh_step s t INone = Some (l, s')).
  { intros l s' H. exists (Worker k), l, s'. simpl. by rewrite Ek. }
  unfold mh_live in Hlive. destruct (mh_at w) eqn:Eat; try done.
  - eapply Hgo. unfold mh_worker_step. by rewrite Eat.
  - destruct (decide (i < numHashes)) as [Hi|Hi].
    + eapply Hgo. unfold mh_worker_step. rewrite Eat. by rewrite decide_True.
    + eapply Hgo. unfold mh_worker_step. rewrite Eat. by rewrite decide_False.
  - (* wgIn.Wait() *)
    destruct (decide (wgIn w = 0)) as [Hz|Hnz].
    { eapply Hgo. unfold mh_worker_step. rewrite Eat. by rewrite decide_True. }
    destruct Hwok as ((Hres & _ & Hcnt) & Hlen).
    destruct (count_short ms_exited (mh_subs w)) as (i & sb & Ei & Hsb); [lia|].
    exists (Sub k i). simpl. rewrite Ek. simpl. unfold mh_sub_step. rewrite Ei.
    apply lookup_lt_Some in Ei as Hi.
    destruct sb; try done.
    + rewrite decide_True by lia. by eexists _, _.
    + destruct (wgIn w); [done|]. by eexists _, _.
  - eapply Hgo. unfold mh_worker_step. by rewrite Eat.
  - (* wg.Done() *)
    destruct (mh_wg s) as [|n] eqn:En; [done|].
    apply (Hgo LTau (mh_set_worker (mh_set_wg s n) k (mh_goto w MhExit))).
    unfold mh_worker_step. by rewrite Eat, En.
Qed.






(** ** The mutex, the wait groups and the array of MultiHash *)

Lemma count_one {A} (f : A -> bool) (l : list A) (k k' : nat) (x x' : A) :
  count f l <= 1 -> l !! k = Some x -> f x = true ->
  l !! k' = Some x' -> f x' = true -> k = k'.
Proof.
  revert k k'. induction l as [|y l IH]; intros k k' Hc Hk Hx Hk' Hx'; [done|].
  simpl in Hc. destruct k as [|k], k' as [|k']; simpl in *; simplify_eq.
  - done.
  - rewrite Hx in Hc.
    destruct (insert_split l k' x' x' Hk') as (l1 & l2 & -> & _).
    rewrite count_app in Hc. simpl in Hc. rewrite Hx' in Hc. lia.
  - rewrite Hx' in Hc.
    destruct (insert_split l k x x Hk) as (l1 & l2 & -> & _).
    rewrite count_app in Hc. simpl in Hc. rewrite Hx in Hc. lia.
  - f_equal. eapply IH; eauto. destruct (f y); lia.
Qed.

(** X11.  SingleHash uses its mutex and its wait group as they must be
    used.  At every moment of every schedule the mutex is locked exactly
    when some worker is between [mu.Lock()] and the deferred
    [mu.Unlock()], and then that worker is the only one; so [mu.Unlock()]
    is only called on the locked mutex, by the worker that locked it.  The
    counter of [wg] is the number of workers that have not yet called
    [wg.Done()], so that call never finds the counter at zero. *)
Theorem SingleHash_lock_discipline ls s :
  reaches SingleHash ls s ->
  (sh_mu s = true <->
   exists k w, sh_workers s !! k = Some w /\ (sh_at w = ShMd5 \/ sh_at w = ShUnlock)) /\
  (forall k k' w w',
     sh_workers s !! k = Some w -> sh_at w = ShMd5 \/ sh_at w = ShUnlock ->
     sh_workers s !! k' = Some w' -> sh_at w' = ShMd5 \/ sh_at w' = ShUnlock ->
     k = k') /\
  sh_wg s = count (λ w, bool_decide (sh_at w <> ShExit)) (sh_workers s) /\
  (forall k w, sh_workers s !! k = Some w -> sh_at w = ShDone -> 0 < sh_wg s).
Proof.
  intros Hr. apply sh_reaches_inv in Hr.
  pose proof (sh_inv_mu _ _ Hr) as Hmu. pose proof (sh_inv_wg _ _ Hr) as Hwg.
  assert (Hh : forall w, sh_at w = ShMd5 \/ sh_at w = ShUnlock <-> sh_holds w = true).
  { intros w. unfold sh_holds. destruct (sh_at w); naive_solver. }
  split; [|split; [|split]].
  - split.
    + intros Ht. rewrite Ht in Hmu. simpl in Hmu.
      destruct (count_pos sh_holds (sh_workers s)) as (k & w & Ek & Hw); [lia|].
      exists k, w. split; [done|]. by apply Hh.
    + intros (k & w & Ek & Hw). apply Hh in Hw.
      destruct (insert_split _ k w w Ek) as (l1 & l2 & Hl & _).
      rewrite Hl, count_app in Hmu. simpl in Hmu. rewrite Hw in Hmu.
      destruct (sh_mu s); [done|]. simpl in Hmu. lia.
  - intros k k' w w' Ek Hw Ek' Hw'. apply Hh in Hw. apply Hh in Hw'.
    eapply (count_one sh_holds); eauto. rewrite Hmu. destruct (sh_mu s); simpl; lia.
  - rewrite Hwg. clear. induction (sh_workers s) as [|w l IH]; [done|].
    simpl. rewrite IH. f_equal. unfold sh_live.
    destruct (sh_at w); by rewrite ?bool_decide_eq_true_2, ?bool_decide_eq_false_2 by naive_solver.
  - intros k w Ek Hw. rewrite Hwg.
    destruct (insert_split _ k w w Ek) as (l1 & l2 & -> & _).
    rewrite count_app. simpl. unfold sh_live at 2. rewrite Hw. lia.
Qed.

(** X12.  The goroutines of one item of MultiHash do not step on each
    other.  At every moment of every schedule, for a worker past line 51:
    [multiRes] has six slots; slot [i] holds the hash salted with [i] once
    the goroutine of index [i] has written it and is empty before; [wgIn]
    counts the goroutines that have not yet called [wgIn.Done()], so that
    call never finds the counter at zero; and once the worker is past
    [wgIn.Wait()] all six goroutines have ended, so nothing writes to
    [multiRes] while or after it is joined. *)
Theorem MultiHash_slots_settled ls s k w :
  reaches MultiHash ls s -> mh_workers s !! k = Some w -> mh_at w <> MhInit ->
  length (multiRes w) = numHashes /\ length (mh_subs w) <= numHashes /\
  (forall i, i < numHashes ->
     multiRes w !! i =
       Some (match mh_subs w !! i with
             | Some MsDone | Some MsExit =>
                 DataSignerCrc32 (Itoa (Z.of_nat i) +:+ mh_data w)
             | _ => ""
             end)) /\
  wgIn w + count (λ sb, bool_decide (sb = MsExit)) (mh_subs w) = numHashes /\
  (forall i, mh_subs w !! i = Some MsDone -> 0 < wgIn w) /\
  ((exists res, mh_at w = MhSend res) \/ mh_at w = MhDone \/ mh_at w = MhExit ->
   mh_subs w = replicate numHashes MsExit).
Proof.
  clear DataSignerMd5.
  intros Hr Ek Hpc. apply mh_reaches_inv in Hr.
  pose proof (mh_inv_ok _ _ Hr) as Hok. rewrite Forall_lookup in Hok.
  specialize (Hok _ _ Ek). unfold mh_worker_ok in Hok.
  assert (Hcnt : count (λ sb, bool_decide (sb = MsExit)) (mh_subs w)
                 = count ms_exited (mh_subs w)).
  { clear. induction (mh_subs w) as [|sb l IH]; [done|]. simpl. rewrite IH.
    by destruct sb. }
  assert (Hst : mh_started w /\ length (mh_subs w) <= numHashes /\
                ((exists res, mh_at w = MhSend res) \/ mh_at w = MhDone \/
                 mh_at w = MhExit -> length (mh_subs w) = numHashes /\ wgIn w = 0)).
  { destruct (mh_at w); try done.
    - destruct Hok as (? & ? & ?). split; [done|]. split; [lia|]. naive_solver.
    - destruct Hok as (? & ?). split; [done|]. split; [lia|]. naive_solver.
    - destruct Hok as (? & ? & ? & ?). split; [done|]. split; [lia|]. naive_solver.
    - destruct Hok as (? & ? & ?). split; [done|]. split; [lia|]. naive_solver.
    - destruct Hok as (? & ? & ?). split; [done|]. split; [lia|]. naive_solver. }
  destruct Hst as ((Hlen & Hslots & Hwg) & Hle & Hpast).
  split; [done|]. split; [done|]. split; [|split; [|split]].
  - intros i Hi. rewrite (Hslots i Hi). unfold mh_slot, saltedHash.
    by destruct (mh_subs w !! i) as [[]|].
  - by rewrite Hcnt.
  - intros i Ei.
    assert (count ms_exited (mh_subs w) < length (mh_subs w)); [|lia].
    destruct (insert_split _ i MsDone MsDone Ei) as (l1 & l2 & -> & _).
    rewrite count_app, length_app. simpl.
    pose proof (count_length ms_exited l1). pose proof (count_length ms_exited l2). lia.
  - intros H. destruct (Hpast H) as [Hl H0].
    destruct (mh_all_written w) as [Hall _]; [done..|].
    rewrite <- Hl. clear -Hall. induction Hall as [|sb l -> _ IH]; [done|].
    simpl. by rewrite <- IH.
Qed.

(** ** When the program stops *)

Lemma crash_cause jobs p e p' msg :
  pinv jobs p -> pstep p e = Some p' -> crashed p' = Some msg ->
  (jobs = [] /\ msg = indexOutOfRange) \/
  (exists a w, workers p' !! a = Some w /\ LPanic msg ∈ whist w).
Proof.
  intros Hinv Hstep Hcr. unfold pstep in Hstep.
  destruct (crashed p) eqn:Ecr; [done|]. destruct e as [|a t|a ts b tr|b tr|a].
  - unfold exec_step in Hstep. pose proof (pi_exec _ _ Hinv) as Hex.
    unfold exec_inv in Hex.
    destruct (exec p) as [[|j js]|c [|j js]| |]; try case_decide; simplify_eq;
      simpl in Hcr; simplify_eq.
    left. by destruct Hex as (<- & _).
  - unfold local_step in Hstep.
    destruct (workers p !! a) as [w|] eqn:Ea; [|done]. simpl in Hstep.
    destruct (jstep (wjob w) (wst w) t INone) as [[l s]|]; [|done]. simpl in Hstep.
    destruct l; try done; simplify_eq.
    + unfold set_worker in Hcr. simpl in Hcr. congruence.
    + destruct t, (wphase_of w); simplify_eq;
        try (unfold set_worker in Hcr; simpl in Hcr; congruence);
        simpl in Hcr; simplify_eq; right; eexists a, _; simpl;
        (split; [apply list_lookup_insert_eq; by eapply lookup_lt_Some|]);
        simpl; apply elem_of_app; right; by apply list_elem_of_singleton.
    + destruct t, (wphase_of w); simplify_eq.
      unfold set_worker in Hcr. simpl in Hcr. congruence.
  - unfold xfer_step in Hstep.
    destruct (workers p !! a) as [wa|]; [|done]. simpl in Hstep.
    destruct (workers p !! b) as [wb|]; [|done]. simpl in Hstep.
    case_decide; [|done].
    destruct (jstep (wjob wa) (wst wa) ts INone) as [[la sa]|]; [|done].
    simpl in Hstep. destruct la; try done.
    destruct (jstep (wjob wb) (wst wb) tr (IVal v)) as [[lb sb]|]; [|done].
    simpl in Hstep. case_decide; [|done]. simplify_eq.
    unfold set_worker in Hcr. simpl in Hcr. congruence.
  - unfold end_step in Hstep.
    destruct (workers p !! b) as [wb|]; [|done]. simpl in Hstep.
    destruct (wIn wb) as [c|]; [|done]. simpl in Hstep. case_decide; [|done].
    destruct (jstep (wjob wb) (wst wb) tr IClosed) as [[lb sb]|]; [|done].
    simpl in Hstep. destruct lb; try done. simplify_eq.
    unfold set_worker in Hcr. simpl in Hcr. congruence.
  - unfold defer_step in Hstep.
    destruct (workers p !! a) as [w|] eqn:Ea; [|done]. simpl in Hstep.
    pose proof (w_left _ _ _ (pi_workers _ _ Hinv _ _ Ea)) as Hl.
    destruct (wphase_of w) as [|pn|pn| |m] eqn:Eph; try done.
    + simplify_eq. simpl in Hcr. congruence.
    + destruct (pwg p); [done|]. simplify_eq. simpl in Hcr. congruence.
    + simplify_eq. simpl in Hcr. simplify_eq. right. by exists a, w.
Qed.

Lemma crashed_cause jobs es p msg :
  prun (ExecutePipeline jobs) es = Some p -> crashed p = Some msg ->
  (jobs = [] /\ msg = indexOutOfRange) \/
  (exists a w, workers p !! a = Some w /\ LPanic msg ∈ whist w).
Proof.
  intros Hrun. revert es p Hrun.
  apply (prun_ind (λ q, pinv jobs q /\
           (crashed q = Some msg ->
            (jobs = [] /\ msg = indexOutOfRange) \/
            (exists a w, workers q !! a = Some w /\ LPanic msg ∈ whist w)))
          (ExecutePipeline jobs)).
  - split; [apply pinv_init|done].
  - intros q e q' [Hinv _] Hstep. split; [by eapply pinv_step|].
    by eapply crash_cause.
Qed.


Lemma signer_no_panic nums p a w msg :
  pinv (signer (VInt <$> nums)) p -> workers p !! a = Some w ->
  LPanic msg ∉ whist w.
Proof.
  intros Hinv Hw.
  pose proof (pinv_job _ _ _ _ Hinv Hw) as Hj.
  destruct a as [|[|[|[|[|a]]]]]; simpl in Hj.
  - by apply (signer_job0 nums p Hinv w Hw).
  - by apply (signer_job1 nums p Hinv w Hw).
  - by apply (signer_job2 nums p Hinv w Hw).
  - by apply (signer_job3 nums p Hinv w Hw).
  - pose proof (w_hist _ _ _ (pi_workers _ _ Hinv _ _ Hw)) as Hh.
    destruct w as [j st i o ph h]. simpl in *. injection Hj as <-.
    by apply (consume_reaches_ctl _ _ Hh).
  - done.
Qed.

(** X14.  Fed integers, the pipeline of the assignment never panics: on
    every schedule no job has raised a panic, no goroutine is unwinding
    from one, and the program has not been stopped. *)
Theorem signer_never_panics nums es p :
  prun (ExecutePipeline (signer (VInt <$> nums))) es = Some p ->
  crashed p = None /\
  (forall a w, workers p !! a = Some w ->
     (forall msg, LPanic msg ∉ whist w) /\
     (wphase_of w = WRun \/ wphase_of w = WClose None \/
      wphase_of w = WDone None \/ wphase_of w = WExit)).
Proof.
  intros Hrun. pose proof (prun_pinv _ _ _ Hrun) as Hinv. split.
  - destruct (crashed p) as [msg|] eqn:Ecr; [|done].
    destruct (crashed_cause _ _ _ _ Hrun Ecr) as [[? _]|(a & w & Hw & Hin)]; [done|].
    by destruct (signer_no_panic _ _ _ _ msg Hinv Hw).
  - intros a w Hw. split; [intros msg; by eapply signer_no_panic|].
    pose proof (w_left _ _ _ (pi_workers _ _ Hinv _ _ Hw)) as Hl.
    destruct (wphase_of w) as [|[m|]|[m|]| |m]; simpl in Hl; eauto;
      by destruct (signer_no_panic _ _ _ _ m Hinv Hw).
Qed.

(** ** The pipeline of the assignment never hangs *)

Lemma in_job_insert p a w w' e n cs cr :
  in_job p -> workers p !! a = Some w ->
  (wphase_of w' = WRun ->
   wphase_of w = WRun /\ (LRet ∈ whist w' -> LRet ∈ whist w)) ->
  in_job (PState e n cs (<[a:=w']> (workers p)) cr).
Proof.
  intros Hin Ha Hw' b wb Hb Hph. simpl in Hb.
  apply list_lookup_insert_Some in Hb as [(<- & <- & _)|[_ Hb]].
  - destruct (Hw' Hph) as [Hph0 Hh]. intros Hret. by apply (Hin a w Ha Hph0), Hh.
  - by apply (Hin b wb).
Qed.

Lemma in_snoc (l l' : label) (ls : list label) :
  l' <> l -> l ∈ ls ++ [l'] -> l ∈ ls.
Proof.
  intros Hne. rewrite elem_of_app, list_elem_of_singleton. by intros [?|?].
Qed.

Lemma in_job_step p e p' : in_job p -> pstep p e = Some p' -> in_job p'.
Proof.
  intros Hin Hstep. unfold pstep in Hstep.
  destruct (crashed p) eqn:Ecr; [done|]. destruct e as [|a t|a ts b tr|b tr|a].
  - unfold exec_step in Hstep.
    assert (Hl : forall e n cs cr j i o,
               in_job (PState e n cs (workers p ++ [launch j i o]) cr)).
    { intros e n cs cr j i o b wb Hb Hph. simpl in Hb.
      apply lookup_app_Some in Hb as [Hb|[_ Hb]]; [by apply (Hin b wb)|].
      apply list_lookup_singleton_Some in Hb as [_ <-]. simpl.
      by intros ?%elem_of_nil. }
    destruct (exec p) as [[|j js]|c [|j js]| |]; try case_decide; simplify_eq;
      first [apply Hl | intros b wb Hb; by apply (Hin b wb)].
  - unfold local_step in Hstep.
    destruct (workers p !! a) as [w|] eqn:Ea; [|done]. simpl in Hstep.
    destruct (jstep (wjob w) (wst w) t INone) as [[l s]|]; [|done]. simpl in Hstep.
    destruct l; try done; simplify_eq.
    + eapply in_job_insert; eauto. simpl. intros Hph. split; [done|].
      by apply in_snoc.
    + destruct t, (wphase_of w) eqn:Eph; simplify_eq;
        eapply in_job_insert; eauto; simpl; try done.
      all: intros _; split; [done|]; by apply in_snoc.
    + destruct t, (wphase_of w); simplify_eq.
      eapply in_job_insert; eauto. done.
  - unfold xfer_step in Hstep.
    destruct (workers p !! a) as [wa|] eqn:Ea; [|done]. simpl in Hstep.
    destruct (workers p !! b) as [wb|] eqn:Eb; [|done]. simpl in Hstep.
    case_decide as Hd; [|done]. destruct Hd as (Hab & _).
    destruct (jstep (wjob wa) (wst wa) ts INone) as [[la sa]|]; [|done].
    simpl in Hstep. destruct la; try done.
    destruct (jstep (wjob wb) (wst wb) tr (IVal v)) as [[lb sb]|]; [|done].
    simpl in Hstep. case_decide; [|done]. simplify_eq.
    unfold set_worker at 1. simpl.
    eapply (in_job_insert (set_worker p a _) b wb).
    + eapply in_job_insert; eauto. simpl. intros Hph. split; [done|].
      by apply in_snoc.
    + simpl. by rewrite list_lookup_insert_ne.
    + simpl. intros Hph. split; [done|]. by apply in_snoc.
  - unfold end_step in Hstep.
    destruct (workers p !! b) as [wb|] eqn:Eb; [|done]. simpl in Hstep.
    destruct (wIn wb) as [c|]; [|done]. simpl in Hstep. case_decide; [|done].
    destruct (jstep (wjob wb) (wst wb) tr IClosed) as [[lb sb]|]; [|done].
    simpl in Hstep. destruct lb; try done. simplify_eq.
    eapply in_job_insert; eauto. simpl. intros Hph. split; [done|]. by apply in_snoc.
  - unfold defer_step in Hstep.
    destruct (workers p !! a) as [w|] eqn:Ea; [|done]. simpl in Hstep.
    destruct (wphase_of w) as [|pn|pn| |m] eqn:Eph; try done.
    + simplify_eq. eapply in_job_insert; eauto. done.
    + destruct (pwg p); [done|]. simplify_eq. eapply in_job_insert; eauto.
      simpl. by destruct pn.
    + simplify_eq. intros b wb Hb. by apply (Hin b wb).
Qed.

Lemma prun_in_job jobs es p :
  prun (ExecutePipeline jobs) es = Some p -> in_job p.
Proof.
  apply (prun_ind in_job (ExecutePipeline jobs)).
  - by intros a w Ha.
  - intros q e q'. apply in_job_step.
Qed.

(** What one move of a stage shows of where its stage function stands. *)
Lemma sh_step_shape s t i l s' :
  sh_step s t i = Some (l, s') ->
  (sh_main s' = MRet -> l = LRet \/ sh_main s = MRet) /\
  (i = INone -> sh_main s = MWait ->
   l = LTau \/ (l = LRet /\ t = Main) \/ exists v, l = LSend v).
Proof.
  intros Hstep. unfold sh_step, sh_main_step, sh_worker_step, sh_sub_step in Hstep.
  repeat case_match; simplify_option_eq; simpl in *;
    try (repeat case_match; simplify_eq; simpl in * );
    split; intros; simplify_eq; eauto.
Qed.

Lemma mh_step_shape s t i l s' :
  mh_step s t i = Some (l, s') ->
  (mh_main s' = MRet -> l = LRet \/ mh_main s = MRet) /\
  (i = INone -> mh_main s = MWait ->
   l = LTau \/ (l = LRet /\ t = Main) \/ exists v, l = LSend v).
Proof.
  clear DataSignerMd5.
  intros Hstep. unfold mh_step, mh_main_step, mh_worker_step, mh_sub_step in Hstep.
  repeat case_match; simplify_option_eq; simpl in *;
    try (repeat case_match; simplify_eq; simpl in * );
    split; intros; simplify_eq; eauto.
Qed.

Lemma sh_ret_hist ls s : reaches SingleHash ls s -> sh_main s = MRet -> LRet ∈ ls.
Proof.
  apply (reaches_ind SingleHash (λ ls s, sh_main s = MRet -> LRet ∈ ls)); [done|].
  clear ls s. intros ls s t i l s' IH Hstep Hm.
  rewrite elem_of_app, list_elem_of_singleton.
  destruct (proj1 (sh_step_shape _ _ _ _ _ Hstep) Hm) as [->|Hm0]; eauto.
Qed.

Lemma mh_ret_hist ls s : reaches MultiHash ls s -> mh_main s = MRet -> LRet ∈ ls.
Proof.
  clear DataSignerMd5.
  apply (reaches_ind MultiHash (λ ls s, mh_main s = MRet -> LRet ∈ ls)); [done|].
  clear ls s. intros ls s t i l s' IH Hstep Hm.
  rewrite elem_of_app, list_elem_of_singleton.
  destruct (proj1 (mh_step_shape _ _ _ _ _ Hstep) Hm) as [->|Hm0]; eauto.
Qed.

Lemma cr_ret_hist ls s : reaches CombineResults ls s -> cr_at s = CrRet -> LRet ∈ ls.
Proof.
  clear DataSignerCrc32 DataSignerMd5.
  apply (reaches_ind CombineResults (λ ls s, cr_at s = CrRet -> LRet ∈ ls)); [done|].
  clear ls s. intros ls s t i l s' IH Hstep Hm.
  rewrite elem_of_app, list_elem_of_singleton.
  simpl in Hstep. unfold cr_step in Hstep.
  repeat case_match; simplify_eq; simpl in *; eauto; done.
Qed.

Lemma produce_ret_hist vals ls s :
  reaches (produce vals) ls s -> s = Fed -> LRet ∈ ls.
Proof.
  clear DataSignerCrc32 DataSignerMd5.
  apply (reaches_ind (produce vals) (λ ls s, s = Fed -> LRet ∈ ls)); [done|].
  clear ls s. intros ls s t i l s' IH Hstep Hm.
  rewrite elem_of_app, list_elem_of_singleton.
  simpl in Hstep. unfold produce_step in Hstep.
  repeat case_match; simplify_eq; simpl in *; eauto; done.
Qed.

Lemma consume_hist ls s :
  reaches consume ls s ->
  (sink_ret s = true -> LRet ∈ ls) /\ (sink_open s = false -> LEnd ∈ ls).
Proof.
  clear DataSignerCrc32 DataSignerMd5.
  apply (reaches_ind consume (λ ls s, (sink_ret s = true -> LRet ∈ ls) /\
                                      (sink_open s = false -> LEnd ∈ ls))); [done|].
  clear ls s. intros ls s t i l s' [IHr IHe] Hstep.
  rewrite !elem_of_app, !list_elem_of_singleton.
  simpl in Hstep. unfold consume_step in Hstep.
  repeat case_match; simplify_eq; simpl in *; split; intros; eauto; try done.
  left. apply IHe. by destruct (sink_open s).
Qed.

(** The value a stage function is looking at is the last it received. *)
Lemma sh_item_recvd ls s u :
  reaches SingleHash ls s -> sh_main s = MItem u -> u ∈ recvs ls.
Proof.
  intros Hr Hm. apply sh_reaches_inv in Hr.
  destruct (sh_inv_in _ _ Hr) as (nums & _ & Hrecv). rewrite Hm in Hrecv.
  simpl in Hrecv. rewrite Hrecv, elem_of_app, list_elem_of_singleton. by right.
Qed.

Lemma mh_item_recvd ls s u :
  reaches MultiHash ls s -> mh_main s = MItem u -> u ∈ recvs ls.
Proof.
  clear DataSignerMd5.
  intros Hr Hm. apply mh_reaches_inv in Hr.
  destruct (mh_inv_in _ _ Hr) as (strs & _ & Hrecv). rewrite Hm in Hrecv.
  simpl in Hrecv. rewrite Hrecv, elem_of_app, list_elem_of_singleton. by right.
Qed.

Lemma cr_item_recvd ls s u :
  reaches CombineResults ls s -> cr_at s = CrItem u -> u ∈ recvs ls.
Proof.
  clear DataSignerCrc32 DataSignerMd5.
  intros Hr Hm. apply cr_reaches_inv in Hr. unfold cr_inv in Hr.
  rewrite Hm in Hr. destruct Hr as (Hrecv & _).
  rewrite Hrecv, elem_of_app, list_elem_of_singleton. by right.
Qed.

Lemma signer_shape vals p :
  pinv (signer vals) p -> length (workers p) = 5 ->
  exists s0 s1 s2 s3 s4 ph0 ph1 ph2 ph3 ph4 h0 h1 h2 h3 h4,
    workers p =
      [MkWorker (produce vals) s0 None 0 ph0 h0;
       MkWorker SingleHash s1 (Some 0) 1 ph1 h1;
       MkWorker MultiHash s2 (Some 1) 2 ph2 h2;
       MkWorker CombineResults s3 (Some 2) 3 ph3 h3;
       MkWorker consume s4 (Some 3) 4 ph4 h4].
Proof.
  intros Hinv Hlen.
  assert (Hw : forall a w, workers p !! a = Some w ->
                 signer vals !! a = Some (wjob w) /\ wOut w = a /\ wIn w = chIn_of a).
  { intros a w Ha. split; [by eapply pinv_job|].
    destruct (pi_workers _ _ Hinv _ _ Ha) as [Ho Hi _ _ _ _ _ _]. by split. }
  destruct (workers p) as [|w0 [|w1 [|w2 [|w3 [|w4 [|w5 ws]]]]]]; try done.
  destruct (Hw 0 w0 eq_refl) as (H0 & Ho0 & Hi0).
  destruct (Hw 1 w1 eq_refl) as (H1 & Ho1 & Hi1).
  destruct (Hw 2 w2 eq_refl) as (H2 & Ho2 & Hi2).
  destruct (Hw 3 w3 eq_refl) as (H3 & Ho3 & Hi3).
  destruct (Hw 4 w4 eq_refl) as (H4 & Ho4 & Hi4).
  clear Hw Hinv.
  destruct w0 as [j0 s0 i0 o0 ph0 h0], w1 as [j1 s1 i1 o1 ph1 h1],
    w2 as [j2 s2 i2 o2 ph2 h2], w3 as [j3 s3 i3 o3 ph3 h3],
    w4 as [j4 s4 i4 o4 ph4 h4].
  simpl in *. simplify_eq.
  by eexists _, _, _, _, _, _, _, _, _, _, _, _, _, _, _.
Qed.

Lemma signer_no_crash nums es p :
  prun (ExecutePipeline (signer (VInt <$> nums))) es = Some p -> crashed p = None.
Proof.
  intros Hrun. pose proof (prun_pinv _ _ _ Hrun) as Hinv.
  destruct (crashed p) as [msg|] eqn:Ecr; [|done].
  destruct (crashed_cause _ _ _ _ Hrun Ecr) as [[? _]|(a & w & Hw & Hin)]; [done|].
  by destruct (signer_no_panic _ _ _ _ msg Hinv Hw).
Qed.

Lemma wphase_cases (ph : wphase) :
  ph = WRun \/ (exists pn, ph = WClose pn) \/ (exists pn, ph = WDone pn) \/
  ph = WExit \/ exists msg, ph = WFatal msg.
Proof. destruct ph; eauto 6. Qed.

Lemma feed_cases (s : feed_state) :
  s = Fed \/ s = Feeding [] \/ exists v rest, s = Feeding (v :: rest).
Proof. destruct s as [[|v rest]|]; eauto. Qed.

Section signer_moves.

Variable nums : list Z.
Variable p : pstate.
Variables (s0 : feed_state) (s1 : sh_state) (s2 : mh_state) (s3 : cr_state)
          (s4 : sink_state).
Variables ph0 ph1 ph2 ph3 ph4 : wphase.
Variables h0 h1 h2 h3 h4 : list label.
Hypothesis Hinv : pinv (signer (VInt <$> nums)) p.
Hypothesis Hjob : in_job p.
Hypothesis Hcr : crashed p = None.
Hypothesis Hws :
  workers p =
    [MkWorker (produce (VInt <$> nums)) s0 None 0 ph0 h0;
     MkWorker SingleHash s1 (Some 0) 1 ph1 h1;
     MkWorker MultiHash s2 (Some 1) 2 ph2 h2;
     MkWorker CombineResults s3 (Some 2) 3 ph3 h3;
     MkWorker consume s4 (Some 3) 4 ph4 h4].

#[local] Set Default Proof Using "Type Hinv Hjob Hcr Hws".

Lemma sm_worker a w :
  [MkWorker (produce (VInt <$> nums)) s0 None 0 ph0 h0;
   MkWorker SingleHash s1 (Some 0) 1 ph1 h1;
   MkWorker MultiHash s2 (Some 1) 2 ph2 h2;
   MkWorker CombineResults s3 (Some 2) 3 ph3 h3;
   MkWorker consume s4 (Some 3) 4 ph4 h4] !! a = Some w ->
  workers p !! a = Some w.
Proof. by rewrite Hws. Qed.

(** What the five jobs have received is of the type they expect. *)
Lemma sm_ints : Forall is_int (recvs h1).
Proof.
  pose proof (w_recv _ _ _ (pi_workers _ _ Hinv 1 _ (sm_worker 1 _ eq_refl))) as Hr.
  rewrite Hws in Hr. simpl in Hr. rewrite Hr.
  by apply (signer_job0 nums p Hinv _ (sm_worker 0 _ eq_refl)).
Qed.

Lemma sm_strings2 : Forall is_string (recvs h2).
Proof.
  pose proof (w_recv _ _ _ (pi_workers _ _ Hinv 2 _ (sm_worker 2 _ eq_refl))) as Hr.
  rewrite Hws in Hr. simpl in Hr. rewrite Hr.
  by apply (signer_job1 nums p Hinv _ (sm_worker 1 _ eq_refl)).
Qed.

Lemma sm_strings3 : Forall is_string (recvs h3).
Proof.
  pose proof (w_recv _ _ _ (pi_workers _ _ Hinv 3 _ (sm_worker 3 _ eq_refl))) as Hr.
  rewrite Hws in Hr. simpl in Hr. rewrite Hr.
  by apply (signer_job2 nums p Hinv _ (sm_worker 2 _ eq_refl)).
Qed.

(** A job whose predecessor is still inside its job function has not seen
    its input closed. *)
Lemma sm_not_ended a w w' :
  workers p !! a = Some w -> workers p !! S a = Some w' ->
  wphase_of w = WRun -> LEnd ∉ whist w'.
Proof.
  intros Ha Hb Hph Hend.
  destruct (w_end _ _ _ (pi_workers _ _ Hinv _ _ Hb) Hend) as (a' & wa & E & Ha' & Hc).
  injection E as <-. rewrite Ha in Ha'. injection Ha' as <-.
  by rewrite Hph in Hc.
Qed.

(** Moves of one job that touch no channel. *)
Lemma sm_local a w t l s :
  workers p !! a = Some w ->
  jstep (wjob w) (wst w) t INone = Some (l, s) ->
  l = LTau \/ (l = LRet /\ t = Main /\ wphase_of w = WRun) ->
  exists e p', pstep p e = Some p'.
Proof.
  intros Ha Hstep Hl. exists (PStep a t). unfold pstep, local_step.
  rewrite Hcr, Ha. simpl. rewrite Hstep. simpl.
  destruct Hl as [->|(-> & -> & ->)]; by eexists.
Qed.

(** A value passes when the sender is at a send and the receiver takes it. *)
Lemma sm_xfer a wa wb ts v sa sb :
  workers p !! a = Some wa -> workers p !! S a = Some wb ->
  wphase_of wa = WRun ->
  jstep (wjob wa) (wst wa) ts INone = Some (LSend v, sa) ->
  jstep (wjob wb) (wst wb) Main (IVal v) = Some (LRecv v, sb) ->
  exists e p', pstep p e = Some p'.
Proof.
  intros Ha Hb Hph Hsa Hsb. exists (PXfer a ts (S a) Main).
  unfold pstep, xfer_step. rewrite Hcr, Ha, Hb. simpl.
  destruct (pi_workers _ _ Hinv _ _ Ha) as [Ho _ Hc _ _ _ _ _].
  destruct (pi_workers _ _ Hinv _ _ Hb) as [_ Hi _ _ _ _ _ _].
  rewrite Hph in Hc. simpl in Hc.
  rewrite decide_True; [|split; [lia|split; [by rewrite Hi, Ho|by rewrite Ho]]].
  rewrite Hsa. simpl. rewrite Hsb. simpl. rewrite decide_True by done. by eexists.
Qed.

(** A job sees its input closed once its predecessor's goroutine has
    ended. *)
Lemma sm_end a wa wb sb :
  workers p !! a = Some wa -> workers p !! S a = Some wb ->
  wphase_of wa = WExit ->
  jstep (wjob wb) (wst wb) Main IClosed = Some (LEnd, sb) ->
  exists e p', pstep p e = Some p'.
Proof.
  intros Ha Hb Hph Hsb. exists (PEnd (S a) Main).
  unfold pstep, end_step. rewrite Hcr, Hb. simpl.
  destruct (pi_workers _ _ Hinv _ _ Ha) as [_ _ Hc _ _ _ _ _].
  destruct (pi_workers _ _ Hinv _ _ Hb) as [_ Hi _ _ _ _ _ _].
  rewrite Hph in Hc. simpl in Hc. rewrite Hi. simpl.
  rewrite decide_True by done. rewrite Hsb. simpl. by eexists.
Qed.

Lemma sm_reach0 : reaches (produce (VInt <$> nums)) h0 s0.
Proof. apply (w_hist _ _ _ (pi_workers _ _ Hinv 0 _ (sm_worker 0 _ eq_refl))). Qed.

Lemma sm_reach1 : reaches SingleHash h1 s1.
Proof. apply (w_hist _ _ _ (pi_workers _ _ Hinv 1 _ (sm_worker 1 _ eq_refl))). Qed.

Lemma sm_reach2 : reaches MultiHash h2 s2.
Proof. apply (w_hist _ _ _ (pi_workers _ _ Hinv 2 _ (sm_worker 2 _ eq_refl))). Qed.

Lemma sm_reach3 : reaches CombineResults h3 s3.
Proof. apply (w_hist _ _ _ (pi_workers _ _ Hinv 3 _ (sm_worker 3 _ eq_refl))). Qed.

Lemma sm_reach4 : reaches consume h4 s4.
Proof. apply (w_hist _ _ _ (pi_workers _ _ Hinv 4 _ (sm_worker 4 _ eq_refl))). Qed.

(** A stage function that is looking at a value can go on. *)
Lemma sm_item1 u : sh_main s1 = MItem u -> exists e p', pstep p e = Some p'.
Proof.
  intros Em. pose proof (sh_item_recvd _ _ _ sm_reach1 Em) as Hu.
  pose proof sm_ints as Hi. rewrite Forall_forall in Hi.
  destruct (Hi u) as [n ->]; [by apply list_elem_of_In|].
  eapply (sm_local 1 _ Main LTau); [by apply sm_worker| |by left].
  simpl. unfold sh_main_step. by rewrite Em.
Qed.

Lemma sm_item2 u : mh_main s2 = MItem u -> exists e p', pstep p e = Some p'.
Proof.
  intros Em. pose proof (mh_item_recvd _ _ _ sm_reach2 Em) as Hu.
  pose proof sm_strings2 as Hi. rewrite Forall_forall in Hi.
  destruct (Hi u) as [d ->]; [by apply list_elem_of_In|].
  eapply (sm_local 2 _ Main LTau); [by apply sm_worker| |by left].
  simpl. unfold mh_main_step. by rewrite Em.
Qed.

Lemma sm_item3 u : cr_at s3 = CrItem u -> exists e p', pstep p e = Some p'.
Proof.
  intros Em. pose proof (cr_item_recvd _ _ _ sm_reach3 Em) as Hu.
  pose proof sm_strings3 as Hi. rewrite Forall_forall in Hi.
  destruct (Hi u) as [d ->]; [by apply list_elem_of_In|].
  eapply (sm_local 3 _ Main LTau); [by apply sm_worker| |by left].
  simpl. unfold cr_step. by rewrite Em.
Qed.

(** While the job before it is inside its job function, a job is ready to
    receive or has a move of its own. *)
Lemma sm_recv1 v :
  ph0 = WRun ->
  (exists sb, sh_step s1 Main (IVal v) = Some (LRecv v, sb)) \/
  (exists e p', pstep p e = Some p').
Proof.
  intros Hph. pose proof (sh_reaches_ctl _ _ sm_reach1) as (_ & _ & Hend & Hpanic).
  pose proof (sm_not_ended 0 _ _ (sm_worker 0 _ eq_refl) (sm_worker 1 _ eq_refl) Hph)
    as Hne. simpl in Hne.
  destruct (sh_main s1) as [|u| | |] eqn:Em.
  - left. simpl. unfold sh_main_step. rewrite Em. by eexists.
  - right. by eapply sm_item1.
  - destruct Hne. apply Hend. by left.
  - destruct Hne. apply Hend. by right.
  - destruct (signer_no_panic nums p 1 _ typeAssertionFailed Hinv
                (sm_worker 1 _ eq_refl)). by apply Hpanic.
Qed.

Lemma sm_recv2 v :
  ph1 = WRun ->
  (exists sb, mh_step s2 Main (IVal v) = Some (LRecv v, sb)) \/
  (exists e p', pstep p e = Some p').
Proof.
  intros Hph. pose proof (mh_reaches_ctl _ _ sm_reach2) as (_ & _ & Hend & Hpanic).
  pose proof (sm_not_ended 1 _ _ (sm_worker 1 _ eq_refl) (sm_worker 2 _ eq_refl) Hph)
    as Hne. simpl in Hne.
  destruct (mh_main s2) as [|u| | |] eqn:Em.
  - left. simpl. unfold mh_main_step. rewrite Em. by eexists.
  - right. by eapply sm_item2.
  - destruct Hne. apply Hend. by left.
  - destruct Hne. apply Hend. by right.
  - destruct (signer_no_panic nums p 2 _ typeAssertionFailed Hinv
                (sm_worker 2 _ eq_refl)). by apply Hpanic.
Qed.

Lemma sm_recv3 v :
  ph2 = WRun ->
  (exists sb, cr_step s3 Main (IVal v) = Some (LRecv v, sb)) \/
  (exists e p', pstep p e = Some p').
Proof.
  intros Hph. pose proof (cr_reaches_inv _ _ sm_reach3) as Hcr3.
  pose proof (cr_reaches_ctl _ _ sm_reach3) as (_ & _ & Hpanic).
  pose proof (sm_not_ended 2 _ _ (sm_worker 2 _ eq_refl) (sm_worker 3 _ eq_refl) Hph)
    as Hne. simpl in Hne. unfold cr_inv in Hcr3.
  destruct (cr_at s3) as [|u| | | | |] eqn:Em.
  - left. unfold cr_step. rewrite Em. by eexists.
  - right. by eapply sm_item3.
  - destruct Hne. by destruct Hcr3 as (_ & _ & ?).
  - destruct Hne. by destruct Hcr3 as (_ & _ & ?).
  - destruct Hne. by destruct Hcr3 as (_ & ?).
  - destruct Hne. by destruct Hcr3 as (_ & ?).
  - destruct (signer_no_panic nums p 3 _ typeAssertionFailed Hinv
                (sm_worker 3 _ eq_refl)). by apply Hpanic.
Qed.

Lemma sm_recv4 v :
  ph3 = WRun -> exists sb, consume_step s4 Main (IVal v) = Some (LRecv v, sb).
Proof.
  intros Hph.
  pose proof (sm_not_ended 3 _ _ (sm_worker 3 _ eq_refl) (sm_worker 4 _ eq_refl) Hph)
    as Hne. simpl in Hne.
  unfold consume_step. destruct (sink_open s4) eqn:Eo; [by eexists|].
  destruct Hne. by apply (consume_hist _ _ sm_reach4).
Qed.

(** The first goroutine that is still inside its job function can move, or
    the job after it can. *)
Lemma sm_move0 : ph0 = WRun -> exists e p', pstep p e = Some p'.
Proof.
  intros Hph. destruct (feed_cases s0) as [Es|[Es|(v & rest & Es)]].
  - destruct (Hjob 0 _ (sm_worker 0 _ eq_refl) Hph). simpl.
    by eapply produce_ret_hist; [apply sm_reach0|].
  - eapply (sm_local 0 _ Main LRet); [by apply sm_worker| |].
    + simpl. by rewrite Es.
    + right. by rewrite Hph.
  - destruct (sm_recv1 v Hph) as [[sb Hsb]|H]; [|done].
    eapply (sm_xfer 0 _ _ Main v);
      [by apply sm_worker|by apply sm_worker|done| |exact Hsb].
    simpl. by rewrite Es.
Qed.

Lemma sm_move1 : ph0 = WExit -> ph1 = WRun -> exists e p', pstep p e = Some p'.
Proof.
  intros Hph0 Hph. pose proof (sh_reaches_ctl _ _ sm_reach1) as (_ & _ & _ & Hpanic).
  destruct (sh_main s1) as [|u| | |] eqn:Em.
  - eapply (sm_end 0); [by apply sm_worker|by apply sm_worker|done|].
    simpl. unfold sh_main_step. by rewrite Em.
  - by eapply sm_item1.
  - destruct (sh_progress _ _ (sh_reaches_inv _ _ sm_reach1) Em) as (t & l & s' & Hstep).
    destruct (proj2 (sh_step_shape _ _ _ _ _ Hstep) eq_refl Em)
      as [->|[[-> ->]|[v ->]]].
    + eapply (sm_local 1 _ t LTau); [by apply sm_worker|exact Hstep|by left].
    + eapply (sm_local 1 _ Main LRet); [by apply sm_worker|exact Hstep|].
      right. by rewrite Hph.
    + destruct (sm_recv2 v Hph) as [[sb Hsb]|H]; [|done].
      eapply (sm_xfer 1 _ _ t v);
        [by apply sm_worker|by apply sm_worker|done|exact Hstep|exact Hsb].
  - destruct (Hjob 1 _ (sm_worker 1 _ eq_refl) Hph). simpl.
    by eapply sh_ret_hist; [apply sm_reach1|].
  - destruct (signer_no_panic nums p 1 _ typeAssertionFailed Hinv
                (sm_worker 1 _ eq_refl)). by apply Hpanic.
Qed.

Lemma sm_move2 : ph1 = WExit -> ph2 = WRun -> exists e p', pstep p e = Some p'.
Proof.
  intros Hph1 Hph. pose proof (mh_reaches_ctl _ _ sm_reach2) as (_ & _ & _ & Hpanic).
  destruct (mh_main s2) as [|u| | |] eqn:Em.
  - eapply (sm_end 1); [by apply sm_worker|by apply sm_worker|done|].
    simpl. unfold mh_main_step. by rewrite Em.
  - by eapply sm_item2.
  - destruct (mh_progress _ _ (mh_reaches_inv _ _ sm_reach2) Em) as (t & l & s' & Hstep).
    destruct (proj2 (mh_step_shape _ _ _ _ _ Hstep) eq_refl Em)
      as [->|[[-> ->]|[v ->]]].
    + eapply (sm_local 2 _ t LTau); [by apply sm_worker|exact Hstep|by left].
    + eapply (sm_local 2 _ Main LRet); [by apply sm_worker|exact Hstep|].
      right. by rewrite Hph.
    + destruct (sm_recv3 v Hph) as [[sb Hsb]|H]; [|done].
      eapply (sm_xfer 2 _ _ t v);
        [by apply sm_worker|by apply sm_worker|done|exact Hstep|exact Hsb].
  - destruct (Hjob 2 _ (sm_worker 2 _ eq_refl) Hph). simpl.
    by eapply mh_ret_hist; [apply sm_reach2|].
  - destruct (signer_no_panic nums p 2 _ typeAssertionFailed Hinv
                (sm_worker 2 _ eq_refl)). by apply Hpanic.
Qed.

Lemma sm_move3 : ph2 = WExit -> ph3 = WRun -> exists e p', pstep p e = Some p'.
Proof.
  intros Hph2 Hph. pose proof (cr_reaches_ctl _ _ sm_reach3) as (_ & _ & Hpanic).
  destruct (cr_at s3) as [|u| | | | |] eqn:Em.
  - eapply (sm_end 2); [by apply sm_worker|by apply sm_worker|done|].
    simpl. unfold cr_step. by rewrite Em.
  - by eapply sm_item3.
  - eapply (sm_local 3 _ Main LTau); [by apply sm_worker| |by left].
    simpl. unfold cr_step. by rewrite Em.
  - destruct (sm_recv4 (VString (Join (result s3) "_")) Hph) as [sb Hsb].
    eapply (sm_xfer 3 _ _ Main);
      [by apply sm_worker|by apply sm_worker|done| |exact Hsb].
    simpl. unfold cr_step. by rewrite Em.
  - eapply (sm_local 3 _ Main LRet); [by apply sm_worker| |].
    + simpl. unfold cr_step. by rewrite Em.
    + right. by rewrite Hph.
  - destruct (Hjob 3 _ (sm_worker 3 _ eq_refl) Hph). simpl.
    by eapply cr_ret_hist; [apply sm_reach3|].
  - destruct (signer_no_panic nums p 3 _ typeAssertionFailed Hinv
                (sm_worker 3 _ eq_refl)). by apply Hpanic.
Qed.

Lemma sm_move4 : ph3 = WExit -> ph4 = WRun -> exists e p', pstep p e = Some p'.
Proof.
  intros Hph3 Hph. destruct (sink_open s4) eqn:Eo.
  - eapply (sm_end 3); [by apply sm_worker|by apply sm_worker|done|].
    simpl. unfold consume_step. by rewrite Eo.
  - destruct (sink_ret s4) eqn:Er.
    + destruct (Hjob 4 _ (sm_worker 4 _ eq_refl) Hph). simpl.
      by apply (consume_hist _ _ sm_reach4).
    + eapply (sm_local 4 _ Main LRet); [by apply sm_worker| |].
      * simpl. unfold consume_step. by rewrite Eo, Er.
      * right. by rewrite Hph.
Qed.

(** A goroutine that has left its job function runs its deferred calls. *)
Lemma sm_defer a w :
  workers p !! a = Some w ->
  (exists pn, wphase_of w = WClose pn) \/ (exists pn, wphase_of w = WDone pn) ->
  exists e p', pstep p e = Some p'.
Proof.
  intros Ha Hph. exists (PDefer a). unfold pstep, defer_step. rewrite Hcr, Ha. simpl.
  destruct Hph as [[pn ->]|[pn Hph]]; [by eexists|]. rewrite Hph.
  pose proof (pi_wg _ _ Hinv) as Hwg.
  destruct (insert_split _ a w w Ha) as (l1 & l2 & Hl & _).
  rewrite Hl, count_app in Hwg. simpl in Hwg. unfold pending in Hwg at 2.
  rewrite Hph in Hwg. destruct (pwg p); [lia|]. by eexists.
Qed.

Lemma sm_no_fatal a w msg : workers p !! a = Some w -> wphase_of w <> WFatal msg.
Proof.
  intros Ha Hph. pose proof (w_left _ _ _ (pi_workers _ _ Hinv _ _ Ha)) as Hl.
  rewrite Hph in Hl. simpl in Hl. by destruct (signer_no_panic _ _ _ _ msg Hinv Ha).
Qed.

(** With all five goroutines started, something can move until they all
    have ended. *)
Lemma sm_move :
  (ph0 = WExit /\ ph1 = WExit /\ ph2 = WExit /\ ph3 = WExit /\ ph4 = WExit) \/
  exists e p', pstep p e = Some p'.
Proof.
  pose proof (sm_defer 0 _ (sm_worker 0 _ eq_refl)) as Hd0.
  pose proof (sm_defer 1 _ (sm_worker 1 _ eq_refl)) as Hd1.
  pose proof (sm_defer 2 _ (sm_worker 2 _ eq_refl)) as Hd2.
  pose proof (sm_defer 3 _ (sm_worker 3 _ eq_refl)) as Hd3.
  pose proof (sm_defer 4 _ (sm_worker 4 _ eq_refl)) as Hd4.
  pose proof (λ m, sm_no_fatal 0 _ m (sm_worker 0 _ eq_refl)) as Hf0.
  pose proof (λ m, sm_no_fatal 1 _ m (sm_worker 1 _ eq_refl)) as Hf1.
  pose proof (λ m, sm_no_fatal 2 _ m (sm_worker 2 _ eq_refl)) as Hf2.
  pose proof (λ m, sm_no_fatal 3 _ m (sm_worker 3 _ eq_refl)) as Hf3.
  pose proof (λ m, sm_no_fatal 4 _ m (sm_worker 4 _ eq_refl)) as Hf4.
  simpl in *.
  destruct (wphase_cases ph0) as [E0|[E0|[E0|[E0|[m E0]]]]];
    [right; by apply sm_move0 | right; apply Hd0; eauto | right; apply Hd0; eauto
    | | by destruct (Hf0 m)].
  destruct (wphase_cases ph1) as [E1|[E1|[E1|[E1|[m E1]]]]];
    [right; by apply sm_move1 | right; apply Hd1; eauto | right; apply Hd1; eauto
    | | by destruct (Hf1 m)].
  destruct (wphase_cases ph2) as [E2|[E2|[E2|[E2|[m E2]]]]];
    [right; by apply sm_move2 | right; apply Hd2; eauto | right; apply Hd2; eauto
    | | by destruct (Hf2 m)].
  destruct (wphase_cases ph3) as [E3|[E3|[E3|[E3|[m E3]]]]];
    [right; by apply sm_move3 | right; apply Hd3; eauto | right; apply Hd3; eauto
    | | by destruct (Hf3 m)].
  destruct (wphase_cases ph4) as [E4|[E4|[E4|[E4|[m E4]]]]];
    [right; by apply sm_move4 | right; apply Hd4; eauto | right; apply Hd4; eauto
    | | by destruct (Hf4 m)].
  by left.
Qed.

End signer_moves.

Lemma signer_can_move nums es p :
  prun (ExecutePipeline (signer (VInt <$> nums))) es = Some p ->
  exec p = EReturned \/ exists e p', pstep p e = Some p'.
Proof.
  intros Hrun. pose proof (prun_pinv _ _ _ Hrun) as Hinv.
  pose proof (prun_in_job _ _ _ Hrun) as Hjob.
  pose proof (signer_no_crash _ _ _ Hrun) as Hcr.
  pose proof (pi_exec _ _ Hinv) as Hex. unfold exec_inv in Hex.
  destruct (exec p) as [js|c js| |] eqn:Ee; [| | |by left]; right.
  - destruct Hex as (-> & _). exists PExec. unfold pstep, exec_step.
    rewrite Hcr, Ee. by eexists.
  - exists PExec. unfold pstep, exec_step. rewrite Hcr, Ee.
    destruct js; by eexists.
  - destruct Hex as (Hjobs & _).
    assert (Hlen : length (workers p) = 5).
    { rewrite <- (length_fmap wjob), <- Hjobs. done. }
    destruct (signer_shape _ _ Hinv Hlen)
      as (s0 & s1 & s2 & s3 & s4 & ph0 & ph1 & ph2 & ph3 & ph4 &
          h0 & h1 & h2 & h3 & h4 & Hws).
    destruct (sm_move nums p s0 s1 s2 s3 s4 ph0 ph1 ph2 ph3 ph4 h0 h1 h2 h3 h4
                Hinv Hjob Hcr Hws) as [(-> & -> & -> & -> & ->)|H]; [|done].
    exists PExec. unfold pstep, exec_step. rewrite Hcr, Ee.
    pose proof (pi_wg _ _ Hinv) as Hwg. rewrite Hws in Hwg. simpl in Hwg.
    rewrite decide_True by done. by eexists.
Qed.

(** X15.  Fed integers, the pipeline of the assignment never hangs: on
    every schedule, as long as [ExecutePipeline] has not returned, some
    goroutine can make its next move -- the executor itself, a goroutine of
    a job, two jobs passing a value, a job seeing its input closed, or a
    deferred call. *)
Theorem signer_never_hangs nums es p :
  prun (ExecutePipeline (signer (VInt <$> nums))) es = Some p ->
  exec p = EReturned \/ exists e p', pstep p e = Some p'.
Proof. apply signer_can_move. Qed.

(** ** Every schedule of the pipeline comes to an end *)

Lemma moves_insert p a w w' e n cs cr :
  workers p !! a = Some w ->
  worker_rank w < worker_rank w' ->
  exec_rank (exec p) <= exec_rank e ->
  crashed p = None ->
  moves_made p < moves_made (PState e n cs (<[a:=w']> (workers p)) cr).
Proof.
  intros Ha Hlt He Hcr. unfold moves_made. simpl. rewrite Hcr, length_insert.
  pose proof (sum_insert worker_rank _ a w w' Ha). destruct cr; lia.
Qed.

Lemma moves_step p e p' : pstep p e = Some p' -> moves_made p < moves_made p'.
Proof.
  intros Hstep. unfold pstep in Hstep.
  destruct (crashed p) eqn:Ecr; [done|]. destruct e as [|a t|a ts b tr|b tr|a].
  - unfold exec_step in Hstep. unfold moves_made. rewrite Ecr.
    destruct (exec p) as [[|j js]|c [|j js]| |]; try case_decide; simplify_eq; simpl;
      rewrite ?length_app, ?sum_list_with_app; simpl; lia.
  - unfold local_step in Hstep.
    destruct (workers p !! a) as [w|] eqn:Ea; [|done]. simpl in Hstep.
    destruct (jstep (wjob w) (wst w) t INone) as [[l s]|]; [|done]. simpl in Hstep.
    destruct l; try done; simplify_eq.
    + eapply moves_insert; eauto. unfold worker_rank. simpl. rewrite length_app. simpl. lia.
    + destruct t, (wphase_of w) eqn:Eph; simplify_eq;
        eapply moves_insert; eauto; unfold worker_rank; simpl;
        rewrite ?Eph, length_app; simpl; lia.
    + destruct t, (wphase_of w) eqn:Eph; simplify_eq.
      eapply moves_insert; eauto; unfold worker_rank; simpl;
        rewrite ?Eph, length_app; simpl; lia.
  - unfold xfer_step in Hstep.
    destruct (workers p !! a) as [wa|] eqn:Ea; [|done]. simpl in Hstep.
    destruct (workers p !! b) as [wb|] eqn:Eb; [|done]. simpl in Hstep.
    case_decide as Hd; [|done]. destruct Hd as (Hab & _).
    destruct (jstep (wjob wa) (wst wa) ts INone) as [[la sa]|]; [|done].
    simpl in Hstep. destruct la; try done.
    destruct (jstep (wjob wb) (wst wb) tr (IVal v)) as [[lb sb]|]; [|done].
    simpl in Hstep. case_decide; [|done]. simplify_eq.
    unfold set_worker at 1. simpl.
    etrans; [|eapply (moves_insert (set_worker p a _) b wb)].
    + eapply (moves_insert p a wa); eauto.
      unfold worker_rank. simpl. rewrite length_app. simpl. lia.
    + simpl. by rewrite list_lookup_insert_ne.
    + unfold worker_rank. simpl. rewrite length_app. simpl. lia.
    + done.
    + done.
  - unfold end_step in Hstep.
    destruct (workers p !! b) as [wb|] eqn:Eb; [|done]. simpl in Hstep.
    destruct (wIn wb) as [c|]; [|done]. simpl in Hstep. case_decide; [|done].
    destruct (jstep (wjob wb) (wst wb) tr IClosed) as [[lb sb]|]; [|done].
    simpl in Hstep. destruct lb; try done. simplify_eq.
    eapply moves_insert; eauto. unfold worker_rank. simpl. rewrite length_app. simpl. lia.
  - unfold defer_step in Hstep.
    destruct (workers p !! a) as [w|] eqn:Ea; [|done]. simpl in Hstep.
    destruct (wphase_of w) as [|pn|pn| |m] eqn:Eph; try done.
    + simplify_eq. eapply moves_insert; eauto. unfold worker_rank. simpl.
      rewrite Eph. simpl. lia.
    + destruct (pwg p); [done|]. simplify_eq. eapply moves_insert; eauto.
      unfold worker_rank. simpl. rewrite Eph. destruct pn; simpl; lia.
    + simplify_eq. unfold moves_made. simpl. rewrite Ecr. lia.
Qed.

Lemma moves_run es : forall p p',
  prun p es = Some p' -> moves_made p + length es <= moves_made p'.
Proof.
  induction es as [|e es IH]; intros p p' Hrun; simpl in Hrun.
  - simplify_eq. simpl. lia.
  - destruct (pstep p e) as [q|] eqn:Hstep; [|done]. simpl in Hrun.
    pose proof (moves_step _ _ _ Hstep). pose proof (IH _ _ Hrun). simpl. lia.
Qed.

(** A stage makes a fixed number of moves for each value it receives. *)
Lemma sh_moves_bound ls s :
  reaches SingleHash ls s ->
  length ls + sh_all_left s <= 11 * length (recvs ls) + 2.
Proof.
  intros Hr.
  cut (sh_inv ls s /\ length ls + sh_all_left s <= 11 * length (recvs ls) + 2);
    [by intros [_ ?]|].
  revert ls s Hr. apply (reaches_ind SingleHash
    (λ ls s, sh_inv ls s /\ length ls + sh_all_left s <= 11 * length (recvs ls) + 2)).
  { split; [apply sh_inv_init|]. simpl. unfold sh_all_left. simpl. lia. }
  intros ls s t i l s' [Hinv Hb] Hstep. split; [by eapply sh_inv_step|].
  rewrite length_app, recvs_snoc, length_app. simpl.
  assert (Hw : forall k w, sh_workers s !! k = Some w ->
            sh_main s' = sh_main s /\
            (exists w', sh_workers s' = <[k:=w']> (sh_workers s) /\
                        sh_steps_left w = S (sh_steps_left w')) ->
            sh_all_left s = S (sh_all_left s')).
  { intros k w Ek (Hm' & w' & Hws & Hleft). unfold sh_all_left.
    rewrite Hm', Hws. pose proof (sum_insert sh_steps_left _ k w w' Ek). lia. }
  simpl in Hstep. destruct t as [|k|k n]; simpl in Hstep.
  - unfold sh_main_step in Hstep. unfold sh_all_left in *.
    destruct (sh_main s) as [|u| | |] eqn:Em, i; try done;
      try destruct u; try case_decide; simplify_eq; simpl in *;
      rewrite ?Em, ?sum_list_with_app; simpl; lia.
  - destruct i; try done. destruct (sh_workers s !! k) as [w|] eqn:Ek; [|done].
    simpl in Hstep.
    pose proof (Hw k w Ek (sh_worker_step_left _ _ _ _ _ Ek Hstep)) as Hl.
    assert (recv_of l = []) as ->; [|simpl; lia].
    unfold sh_worker_step in Hstep. by repeat case_match; simplify_eq.
  - destruct n; [|done]. destruct i; try done.
    destruct (sh_workers s !! k) as [w|] eqn:Ek; [|done]. simpl in Hstep.
    pose proof (sh_inv_ok _ _ Hinv) as Hok. rewrite Forall_lookup in Hok.
    pose proof (Hw k w Ek (sh_sub_step_left _ _ _ _ _ (Hok _ _ Ek) Ek Hstep)) as Hl.
    assert (recv_of l = []) as ->; [|simpl; lia].
    unfold sh_sub_step in Hstep. by repeat case_match; simplify_eq.
Qed.

Lemma mh_moves_bound ls s :
  reaches MultiHash ls s ->
  length ls + mh_all_left s <= 25 * length (recvs ls) + 2.
Proof.
  clear DataSignerMd5.
  revert ls s. apply (reaches_ind MultiHash
    (λ ls s, length ls + mh_all_left s <= 25 * length (recvs ls) + 2)).
  { simpl. unfold mh_all_left. simpl. lia. }
  intros ls s t i l s' Hb Hstep.
  rewrite length_app, recvs_snoc, length_app. simpl.
  assert (Hw : forall k w, mh_workers s !! k = Some w ->
            mh_main s' = mh_main s /\
            (exists w', mh_workers s' = <[k:=w']> (mh_workers s) /\
                        mh_steps_left w = S (mh_steps_left w')) ->
            mh_all_left s = S (mh_all_left s')).
  { intros k w Ek (Hm' & w' & Hws & Hleft). unfold mh_all_left.
    rewrite Hm', Hws. pose proof (sum_insert mh_steps_left _ k w w' Ek). lia. }
  simpl in Hstep. destruct t as [|k|k n]; simpl in Hstep.
  - unfold mh_main_step in Hstep. unfold mh_all_left in *.
    destruct (mh_main s) as [|u| | |] eqn:Em, i; try done;
      try destruct u; try case_decide; simplify_eq; simpl in *;
      rewrite ?Em, ?sum_list_with_app; simpl; lia.
  - destruct i; try done. destruct (mh_workers s !! k) as [w|] eqn:Ek; [|done].
    simpl in Hstep.
    pose proof (Hw k w Ek (mh_worker_step_left _ _ _ _ _ Ek Hstep)) as Hl.
    assert (recv_of l = []) as ->; [|simpl; lia].
    unfold mh_worker_step in Hstep. by repeat case_match; simplify_eq.
  - destruct i; try done.
    destruct (mh_workers s !! k) as [w|] eqn:Ek; [|done]. simpl in Hstep.
    pose proof (Hw k w Ek (mh_sub_step_left _ _ _ _ _ _ Ek Hstep)) as Hl.
    assert (recv_of l = []) as ->; [|simpl; lia].
    unfold mh_sub_step in Hstep. by repeat case_match; simplify_eq.
Qed.

Lemma cr_moves_bound ls s :
  reaches CombineResults ls s ->
  length ls + cr_all_left s <= 2 * length (recvs ls) + 4.
Proof.
  clear DataSignerCrc32 DataSignerMd5.
  revert ls s. apply (reaches_ind CombineResults
    (λ ls s, length ls + cr_all_left s <= 2 * length (recvs ls) + 4)).
  { simpl. unfold cr_all_left. simpl. lia. }
  intros ls s t i l s' Hb Hstep.
  rewrite length_app, recvs_snoc, length_app. simpl.
  simpl in Hstep. unfold cr_step in Hstep. unfold cr_all_left in *.
  destruct t, (cr_at s) as [|u| | | | |] eqn:Em, i; try done;
    try destruct u; simplify_eq; simpl; lia.
Qed.

Lemma produce_moves_bound vals ls s :
  reaches (produce vals) ls s -> length ls + feed_left s <= length vals + 1.
Proof.
  clear DataSignerCrc32 DataSignerMd5.
  revert ls s. apply (reaches_ind (produce vals)
    (λ ls s, length ls + feed_left s <= length vals + 1)).
  { simpl. lia. }
  intros ls s t i l s' Hb Hstep. rewrite length_app. simpl.
  simpl in Hstep. unfold produce_step in Hstep.
  destruct t, i, s as [[|v' rest]|]; try done; simplify_eq; simpl in *; lia.
Qed.

Lemma consume_moves_bound ls s :
  reaches consume ls s -> length ls + sink_left s <= length (recvs ls) + 2.
Proof.
  clear DataSignerCrc32 DataSignerMd5.
  revert ls s. apply (reaches_ind consume
    (λ ls s, length ls + sink_left s <= length (recvs ls) + 2)).
  { simpl. unfold sink_left. simpl. lia. }
  intros ls s t i l s' Hb Hstep.
  rewrite length_app, recvs_snoc, length_app. simpl.
  simpl in Hstep. unfold consume_step in Hstep. unfold sink_left in *.
  destruct t, i; try done;
    destruct (sink_open s) eqn:Eo, (sink_ret s) eqn:Er; simpl in Hstep; simplify_eq; simpl; lia.
Qed.

(** A stage has sent no more values than it has received. *)
Lemma sh_sends_le ls s :
  reaches SingleHash ls s -> length (sends ls) <= length (recvs ls).
Proof.
  intros Hr. apply sh_reaches_inv in Hr.
  destruct (sh_inv_in _ _ Hr) as (nums & Hd & Hrecv).
  destruct (sh_outs_done _ _ Hd) as (done & Hsub & Hout).
  rewrite (sh_inv_out _ _ Hr), Hout, length_fmap.
  apply submseteq_length in Hsub.
  assert (length nums <= length (recvs ls)); [|lia].
  unfold sh_recvd in Hrecv. destruct (sh_main s).
  1,3,4: by rewrite Hrecv, length_fmap.
  - rewrite Hrecv, length_app, length_fmap. lia.
  - destruct Hrecv as (v & -> & _). rewrite length_app, length_fmap. lia.
Qed.

Lemma mh_sends_le ls s :
  reaches MultiHash ls s -> length (sends ls) <= length (recvs ls).
Proof.
  clear DataSignerMd5.
  intros Hr. apply mh_reaches_inv in Hr.
  destruct (mh_inv_in _ _ Hr) as (strs & Hd & Hrecv).
  destruct (mh_outs_done (mh_workers s)) as (done & Hsub & Hout).
  rewrite (mh_inv_out _ _ Hr), Hout, length_fmap.
  apply submseteq_length in Hsub. rewrite Hd in Hsub.
  assert (length strs <= length (recvs ls)); [|lia].
  unfold mh_recvd in Hrecv. destruct (mh_main s).
  1,3,4: by rewrite Hrecv, length_fmap.
  - rewrite Hrecv, length_app, length_fmap. lia.
  - destruct Hrecv as (v & -> & _). rewrite length_app, length_fmap. lia.
Qed.

(** How long the history of each job of the pipeline can get. *)
Lemma signer_hist_bound nums p a w :
  pinv (signer (VInt <$> nums)) p -> workers p !! a = Some w ->
  length (whist w) <=
    match a with
    | 0 => length nums + 1
    | 1 => 11 * length nums + 2
    | 2 => 25 * length nums + 2
    | 3 => 2 * length nums + 4
    | _ => 3
    end.
Proof.
  intros Hinv.
  assert (H0 : forall w, workers p !! 0 = Some w ->
            length (whist w) <= length nums + 1 /\
            length (sends (whist w)) <= length nums).
  { intros w0 Hw. destruct (worker_reaches _ _ _ _ _ Hinv Hw eq_refl) as [s Hr].
    pose proof (produce_moves_bound _ _ _ Hr) as Hb. rewrite length_fmap in Hb.
    destruct (proj1 (produce_sends _ _ _ Hr)) as [rest Hrest].
    apply (f_equal length) in Hrest. rewrite length_app, length_fmap in Hrest.
    split; lia. }
  assert (H1 : forall w, workers p !! 1 = Some w ->
            length (whist w) <= 11 * length nums + 2 /\
            length (sends (whist w)) <= length nums).
  { intros w1 Hw. destruct (worker_reaches _ _ _ _ _ Hinv Hw eq_refl) as [s Hr].
    destruct (prev_sends _ _ _ _ Hinv Hw) as (w0 & Hw0 & Hrs).
    pose proof (sh_moves_bound _ _ Hr) as Hb. pose proof (sh_sends_le _ _ Hr) as Hs.
    rewrite Hrs in Hb, Hs. destruct (H0 _ Hw0). split; lia. }
  assert (H2 : forall w, workers p !! 2 = Some w ->
            length (whist w) <= 25 * length nums + 2 /\
            length (sends (whist w)) <= length nums).
  { intros w2 Hw. destruct (worker_reaches _ _ _ _ _ Hinv Hw eq_refl) as [s Hr].
    destruct (prev_sends _ _ _ _ Hinv Hw) as (w1 & Hw1 & Hrs).
    pose proof (mh_moves_bound _ _ Hr) as Hb. pose proof (mh_sends_le _ _ Hr) as Hs.
    rewrite Hrs in Hb, Hs. destruct (H1 _ Hw1). split; lia. }
  assert (H3 : forall w, workers p !! 3 = Some w ->
            length (whist w) <= 2 * length nums + 4 /\
            length (sends (whist w)) <= 1).
  { intros w3 Hw. destruct (worker_reaches _ _ _ _ _ Hinv Hw eq_refl) as [s Hr].
    destruct (prev_sends _ _ _ _ Hinv Hw) as (w2 & Hw2 & Hrs).
    pose proof (cr_moves_bound _ _ Hr) as Hb. rewrite Hrs in Hb.
    destruct (H2 _ Hw2). split; [lia|].
    destruct (cr_sends _ _ Hr) as [->|(_ & strs & _ & ->)]; simpl; lia. }
  intros Hw. destruct a as [|[|[|[|[|a]]]]].
  - by apply H0.
  - by apply H1.
  - by apply H2.
  - by apply H3.
  - destruct (worker_reaches _ _ _ _ _ Hinv Hw eq_refl) as [s Hr].
    destruct (prev_sends _ _ _ _ Hinv Hw) as (w3 & Hw3 & Hrs).
    pose proof (consume_moves_bound _ _ Hr) as Hb. rewrite Hrs in Hb.
    destruct (H3 _ Hw3). lia.
  - by pose proof (pinv_job _ _ _ _ Hinv Hw).
Qed.

Lemma phase_rank_le (ph : wphase) : phase_rank ph <= 3.
Proof. destruct ph; simpl; lia. Qed.

Lemma signer_moves_bound nums es p :
  prun (ExecutePipeline (signer (VInt <$> nums))) es = Some p ->
  moves_made p <= 39 * length nums + 34.
Proof.
  intros Hrun. pose proof (prun_pinv _ _ _ Hrun) as Hinv.
  pose proof (signer_no_crash _ _ _ Hrun) as Hcr.
  pose proof (workers_le_jobs _ _ Hinv) as Hlen. simpl in Hlen.
  pose proof (signer_hist_bound nums p) as Hb.
  unfold moves_made. rewrite Hcr.
  assert (exec_rank (exec p) <= 2) by (destruct (exec p); simpl; lia).
  assert (Hsum : sum_list_with worker_rank (workers p) <= 39 * length nums + 27);
    [|lia].
  unfold worker_rank.
  destruct (workers p) as [|w0 [|w1 [|w2 [|w3 [|w4 [|w5 ws]]]]]]; simpl in *;
    try lia.
  all: try pose proof (Hb 0 _ Hinv eq_refl) as Hb0.
  all: try pose proof (Hb 1 _ Hinv eq_refl) as Hb1.
  all: try pose proof (Hb 2 _ Hinv eq_refl) as Hb2.
  all: try pose proof (Hb 3 _ Hinv eq_refl) as Hb3.
  all: try pose proof (Hb 4 _ Hinv eq_refl) as Hb4.
  all: try pose proof (phase_rank_le (wphase_of w0)).
  all: try pose proof (phase_rank_le (wphase_of w1)).
  all: try pose proof (phase_rank_le (wphase_of w2)).
  all: try pose proof (phase_rank_le (wphase_of w3)).
  all: try pose proof (phase_rank_le (wphase_of w4)).
  all: simpl in *; lia.
Qed.

Lemma prun_snoc p es e p1 p2 :
  prun p es = Some p1 -> pstep p1 e = Some p2 -> prun p (es ++ [e]) = Some p2.
Proof.
  intros H1 H2. eapply prun_app; [done|]. simpl. by rewrite H2.
Qed.

Lemma signer_finish nums k : forall es p,
  prun (ExecutePipeline (signer (VInt <$> nums))) es = Some p ->
  39 * length nums + 34 - moves_made p <= k ->
  exists es' p', prun p es' = Some p' /\ exec p' = EReturned.
Proof.
  induction k as [|k IH]; intros es p Hrun Hk.
  - destruct (signer_can_move _ _ _ Hrun) as [He|(e & p1 & Hstep)].
    + by exists [], p.
    + pose proof (moves_step _ _ _ Hstep).
      pose proof (signer_moves_bound _ _ _ (prun_snoc _ _ _ _ _ Hrun Hstep)). lia.
  - destruct (signer_can_move _ _ _ Hrun) as [He|(e & p1 & Hstep)].
    + by exists [], p.
    + pose proof (moves_step _ _ _ Hstep).
      destruct (IH _ _ (prun_snoc _ _ _ _ _ Hrun Hstep)) as (es' & p' & Hrun' & He');
        [lia|].
      exists (e :: es'), p'. simpl. rewrite Hstep. by split.
Qed.

(** X16.  Fed [n] integers, the pipeline of the assignment always comes to
    its end: whatever the scheduler does, a run has at most [39 n + 34]
    events, and from wherever it stands it can be carried on until
    [ExecutePipeline] returns, the final string having reached the last
    job. *)
Theorem signer_always_returns nums es p :
  prun (ExecutePipeline (signer (VInt <$> nums))) es = Some p ->
  length es <= 39 * length nums + 34 /\
  exists es' p',
    prun p es' = Some p' /\ exec p' = EReturned /\ crashed p' = None /\
    delivered p' = [VString (signatureOf nums)].
Proof.
  intros Hrun. split.
  - pose proof (moves_run _ _ _ Hrun) as Hm.
    pose proof (signer_moves_bound _ _ _ Hrun). lia.
  - destruct (signer_finish nums _ _ _ Hrun (Nat.le_refl _))
      as (es' & p' & Hrun' & He).
    pose proof (prun_app _ _ _ _ _ Hrun Hrun') as Hall.
    exists es', p'. split; [done|]. split; [done|].
    split; [by eapply signer_no_crash|].
    apply signer_returned; [by eapply prun_pinv|done].
Qed.
End Signer.

(** * The theorems at concrete inputs *)

Lemma checked_true {A} (chk : A -> bool) (o : option A) :
  checked chk o = true -> exists x, o = Some x /\ chk x = true.
Proof. destruct o as [x|]; simpl; [by exists x | discriminate]. Qed.

Lemma returned_true p : returned p = true -> exec p = EReturned.
Proof. unfold returned. by destruct (exec p). Qed.

Lemma has_worker_true a p :
  has_worker a p = true -> exists w, workers p !! a = Some w.
Proof. unfold has_worker. destruct (workers p !! a) as [w|]; [by exists w | discriminate]. Qed.

Lemma panicked_true a p :
  panicked a p = true ->
  exists w, workers p !! a = Some w /\ LPanic typeAssertionFailed ∈ whist w.
Proof.
  unfold panicked. destruct (workers p !! a) as [w|]; [|discriminate].
  intros H. apply bool_decide_eq_true in H. by exists w.
Qed.

Lemma received_true a vs p : received a vs p = true -> received_by p a = vs.
Proof.
  unfold received, received_by. destruct (workers p !! a) as [w|]; [|discriminate].
  intros H. by apply bool_decide_eq_true in H.
Qed.

(** SingleHash on 7 and -3, the second item finishing first. *)
Lemma SingleHash_emits_witness :
  exists ls s,
    reaches (SingleHash crc32_stub md5_stub) ls s /\
    recvs ls = VInt <$> [7; -3]%Z /\ sh_main s = MRet /\
    sends ls = [VString "c(-3)~c(m(-3))"; VString "c(7)~c(m(7))"] /\
    sends ls ≡ₚ [VString "c(7)~c(m(7))"; VString "c(-3)~c(m(-3))"].
Proof.
  assert (Hrun : exists ls s,
             run (SingleHash crc32_stub md5_stub) (jinit _) sh_demo_sched = Some (ls, s) /\
             recvs ls = VInt <$> [7; -3]%Z /\ sh_main s = MRet /\
             sends ls = [VString "c(-3)~c(m(-3))"; VString "c(7)~c(m(7))"]).
  { eexists _, _. split; [vm_compute; reflexivity|]. by repeat split. }
  destruct Hrun as (ls & s & Hrun & Hrecv & Hm & Hsend).
  assert (Hr : reaches (SingleHash crc32_stub md5_stub) ls s) by by exists sh_demo_sched.
  exists ls, s. split; [exact Hr|]. split; [exact Hrecv|]. split; [exact Hm|].
  split; [exact Hsend|].
  exact (proj2 (SingleHash_emits crc32_stub md5_stub [7; -3]%Z) ls s Hr Hrecv Hm).
Defined.

(** MultiHash on ["x"], the six goroutines finishing in the order
    5, 3, 1, 0, 2, 4: the six hashes are still joined in index order. *)
Lemma MultiHash_emits_witness :
  exists ls s,
    reaches (MultiHash crc32_stub) ls s /\
    recvs ls = VString <$> ["x"] /\ mh_main s = MRet /\
    sends ls ≡ₚ [VString "c(0x)c(1x)c(2x)c(3x)c(4x)c(5x)"].
Proof.
  assert (Hrun : exists ls s,
             run (MultiHash crc32_stub) (jinit _) mh_demo_sched = Some (ls, s) /\
             recvs ls = VString <$> ["x"] /\ mh_main s = MRet).
  { eexists _, _. split; [vm_compute; reflexivity|]. by split. }
  destruct Hrun as (ls & s & Hrun & Hrecv & Hm).
  assert (Hr : reaches (MultiHash crc32_stub) ls s) by by exists mh_demo_sched.
  exists ls, s. split; [exact Hr|]. split; [exact Hrecv|]. split; [exact Hm|].
  exact (proj2 (MultiHash_emits crc32_stub ["x"]) ls s Hr Hrecv Hm).
Defined.

(** CombineResults on ["b"], ["a"], ["ab"]. *)
Lemma CombineResults_emits_witness :
  exists ls s,
    reaches CombineResults ls s /\
    recvs ls = VString <$> ["b"; "a"; "ab"] /\ cr_at s = CrRet /\
    sends ls = [VString "a_ab_b"].
Proof.
  assert (Hrun : exists ls s,
             run CombineResults (jinit _) cr_demo_sched = Some (ls, s) /\
             recvs ls = VString <$> ["b"; "a"; "ab"] /\ cr_at s = CrRet).
  { eexists _, _. split; [vm_compute; reflexivity|]. by split. }
  destruct Hrun as (ls & s & Hrun & Hrecv & Hm).
  assert (Hr : reaches CombineResults ls s) by by exists cr_demo_sched.
  exists ls, s. split; [exact Hr|]. split; [exact Hrecv|]. split; [exact Hm|].
  exact (proj1 (proj2 (proj2 (CombineResults_emits ["b"; "a"; "ab"]))) ls s Hr Hrecv Hm).
Defined.

(** CombineResults when nothing was sent to it. *)
Lemma CombineResults_empty_input_witness :
  exists ls s,
    reaches CombineResults ls s /\ recvs ls = [] /\ cr_at s = CrRet /\
    sends ls = [VString ""].
Proof.
  exists [LEnd; LTau; LSend (VString ""); LRet], (CrState CrRet []).
  assert (Hr : reaches CombineResults [LEnd; LTau; LSend (VString ""); LRet]
                       (CrState CrRet [])).
  { exists [(Main, IClosed); (Main, INone); (Main, INone); (Main, INone)]. reflexivity. }
  split; [exact Hr|]. split; [reflexivity|]. split; [reflexivity|].
  exact (proj2 CombineResults_empty_input _ _ Hr eq_refl eq_refl).
Defined.

(** Two runs of the pipeline, on 0, 1 in turn and on 1, 0 with the second
    item overtaking the first: CombineResults receives the two strings in
    opposite orders, and the same string arrives at the sink. *)
Lemma signer_order_independent_witness :
  [0; 1]%Z ≡ₚ [1; 0]%Z /\
  exists p p',
    prun (ExecutePipeline (signer crc32_stub md5_stub (VInt <$> [0; 1]%Z))) run_in_turn
      = Some p /\
    prun (ExecutePipeline (signer crc32_stub md5_stub (VInt <$> [1; 0]%Z))) run_overtaking
      = Some p' /\
    exec p = EReturned /\ exec p' = EReturned /\
    received_by p 3 =
      (λ n, VString (multiHashOf crc32_stub (singleHashOf crc32_stub md5_stub (Itoa n))))
        <$> [0; 1]%Z /\
    received_by p' 3 =
      (λ n, VString (multiHashOf crc32_stub (singleHashOf crc32_stub md5_stub (Itoa n))))
        <$> [1; 0]%Z /\
    delivered p = delivered p' /\
    delivered p = [VString (signatureOf crc32_stub md5_stub [0; 1]%Z)].
Proof.
  assert (Hperm : [0; 1]%Z ≡ₚ [1; 0]%Z) by apply perm_swap.
  split; [exact Hperm|].
  destruct (signer_order_independent crc32_stub md5_stub _ _ Hperm)
    as (_ & _ & Hany & Hsame).
  destruct (checked_true
              (λ p, returned p &&
                    received 3 ((λ n, VString (multiHashOf crc32_stub
                                   (singleHashOf crc32_stub md5_stub (Itoa n))))
                                  <$> [0; 1]%Z) p)
              (prun (ExecutePipeline (signer crc32_stub md5_stub (VInt <$> [0; 1]%Z)))
                    run_in_turn))
    as (p & Hp & Hc); [vm_compute; reflexivity|].
  destruct (checked_true
              (λ p, returned p &&
                    received 3 ((λ n, VString (multiHashOf crc32_stub
                                   (singleHashOf crc32_stub md5_stub (Itoa n))))
                                  <$> [1; 0]%Z) p)
              (prun (ExecutePipeline (signer crc32_stub md5_stub (VInt <$> [1; 0]%Z)))
                    run_overtaking))
    as (p' & Hp' & Hc'); [vm_compute; reflexivity|].
  apply andb_prop in Hc as [He Hr]. apply andb_prop in Hc' as [He' Hr'].
  apply returned_true in He. apply returned_true in He'.
  apply received_true in Hr. apply received_true in Hr'.
  exists p, p'. split; [exact Hp|]. split; [exact Hp'|]. split; [exact He|].
  split; [exact He'|]. split; [exact Hr|]. split; [exact Hr'|]. split.
  - exact (Hsame _ _ _ _ Hp Hp' He He').
  - exact (proj2 (Hany _ _ Hp) He).
Defined.

(** Two integers are in SingleHash and the first worker is inside
    [DataSignerMd5]. *)
Lemma md5_never_concurrent_witness :
  exists p w,
    prun (ExecutePipeline (signer crc32_stub md5_stub [VInt 0; VInt 1])) run_two_items
      = Some p /\
    workers p !! 1 = Some w /\
    exists s : sh_state,
      existT (wjob w) (wst w) = existT (SingleHash crc32_stub md5_stub) s /\
      md5_in_flight s <= 1 /\
      (md5_in_flight s = 1 ->
       forall k wk, sh_workers s !! k = Some wk -> sh_at wk = ShLock ->
                    sh_step crc32_stub md5_stub s (Worker k) INone = None).
Proof.
  destruct (checked_true (has_worker 1)
              (prun (ExecutePipeline (signer crc32_stub md5_stub [VInt 0; VInt 1]))
                    run_two_items))
    as (p & Hp & Hc); [vm_compute; reflexivity|].
  apply has_worker_true in Hc as [w Hw]. exists p, w.
  split; [exact Hp|]. split; [exact Hw|].
  exact (md5_never_concurrent crc32_stub md5_stub _ _ _ _ Hp Hw).
Defined.

(** The same moment inside SingleHash: one call in flight, the second
    worker cannot take the mutex; it can once the first has unlocked. *)
Example two_items_one_call :
  exists ls s,
    run (SingleHash crc32_stub md5_stub) (jinit _) sh_two_items_sched = Some (ls, s) /\
    length (sh_workers s) = 2 /\ md5_in_flight s = 1 /\
    sh_step crc32_stub md5_stub s (Worker 1) INone = None /\
    exists ls' s' s'',
      run (SingleHash crc32_stub md5_stub) s (steps (Worker 0) 2) = Some (ls', s') /\
      md5_in_flight s' = 0 /\
      sh_step crc32_stub md5_stub s' (Worker 1) INone = Some (LTau, s'') /\
      md5_in_flight s'' = 1.
Proof.
  eexists _, _. split; [vm_compute; reflexivity|]. repeat split.
  eexists _, _, _. split; [vm_compute; reflexivity|]. by repeat split.
Qed.

(** SingleHash on 1 and then on the string ["1"]. *)
Lemma wrong_type_aborts_witness :
  exists ls s,
    reaches (SingleHash crc32_stub md5_stub) ls s /\
    VString "1" ∈ recvs ls /\ ~ is_int (VString "1") /\
    aborted (SingleHash crc32_stub md5_stub) ls s /\
    (exists pre, recvs ls = pre ++ [VString "1"]) /\
    S (length (sh_workers s)) = length (recvs ls).
Proof.
  assert (Hrun : exists ls s,
             run (SingleHash crc32_stub md5_stub) (jinit _) sh_fault_sched = Some (ls, s) /\
             recvs ls = [VInt 1; VString "1"]).
  { eexists _, _. split; [vm_compute; reflexivity|]. reflexivity. }
  destruct Hrun as (ls & s & Hrun & Hrecv).
  assert (Hr : reaches (SingleHash crc32_stub md5_stub) ls s) by by exists sh_fault_sched.
  assert (Hin : VString "1" ∈ recvs ls).
  { rewrite Hrecv. apply list_elem_of_In. simpl. tauto. }
  assert (Hv : ~ is_int (VString "1")) by (intros [n Hn]; discriminate Hn).
  exists ls, s. split; [exact Hr|]. split; [exact Hin|]. split; [exact Hv|].
  exact (proj1 (wrong_type_aborts crc32_stub md5_stub) ls s _ Hr Hin Hv).
Defined.

(** C6 as written fails: on [run_fault] SingleHash has panicked, and yet
    CombineResults has sent a string, built from the one item that got
    through, and the sink has received it. *)
Lemma fault_leaves_no_output_fails : ~ fault_leaves_no_output crc32_stub md5_stub.
Proof.
  intros Hclaim.
  destruct (checked_true
              (λ p, panicked 1 p &&
                    received 4 [VString (signatureOf crc32_stub md5_stub [1%Z])] p)
              (prun (ExecutePipeline (signer crc32_stub md5_stub [VInt 1; VOther 0]))
                    run_fault))
    as (p & Hp & Hc); [vm_compute; reflexivity|].
  apply andb_prop in Hc as [Hpanic Hout].
  apply panicked_true in Hpanic as (w & Hw & Hin).
  apply received_true in Hout.
  pose proof (Hclaim _ _ _ _ _ _ Hp Hw Hin) as Hnone.
  unfold delivered in Hnone. rewrite Hout in Hnone. discriminate Hnone.
Qed.




(** [ExecutePipeline()] panics at its first statement. *)
Lemma ExecutePipeline_no_jobs_witness :
  exists p,
    prun (ExecutePipeline []) [PExec] = Some p /\
    crashed p = Some indexOutOfRange /\ workers p = [].
Proof.
  eexists. split; [reflexivity|].
  destruct (proj1 ExecutePipeline_no_jobs [PExec] _ eq_refl) as [H|(_ & H)];
    [discriminate H | exact H].
Defined.

(** * The further properties at concrete inputs *)


(** The pipeline of two integers, run to its end: CombineResults has
    received what MultiHash has sent. *)
Lemma channel_delivers_in_order_witness :
  exists p wb,
    prun (ExecutePipeline (signer crc32_stub md5_stub [VInt 0; VInt 1])) run_in_turn
      = Some p /\
    workers p !! 3 = Some wb /\
    exists wa, workers p !! 2 = Some wa /\ wIn wb = Some (wOut wa) /\
               recvs (whist wb) = sends (whist wa).
Proof.
  destruct (checked_true (has_worker 3)
              (prun (ExecutePipeline (signer crc32_stub md5_stub [VInt 0; VInt 1]))
                    run_in_turn))
    as (p & Hp & Hc); [vm_compute; reflexivity|].
  apply has_worker_true in Hc as [wb Hw]. exists p, wb.
  split; [exact Hp|]. split; [exact Hw|].
  exact (channel_delivers_in_order _ _ _ _ _ Hp Hw).
Defined.

Lemma first_job_never_receives_witness :
  exists p w,
    prun (ExecutePipeline (signer crc32_stub md5_stub [VInt 0; VInt 1])) run_in_turn
      = Some p /\
    workers p !! 0 = Some w /\
    wIn w = None /\ recvs (whist w) = [] /\ (LEnd ∉ whist w) /\
    (forall t, pstep p (PEnd 0 t) = None) /\
    (forall a ts tr, pstep p (PXfer a ts 0 tr) = None).
Proof.
  destruct (checked_true (has_worker 0)
              (prun (ExecutePipeline (signer crc32_stub md5_stub [VInt 0; VInt 1]))
                    run_in_turn))
    as (p & Hp & Hc); [vm_compute; reflexivity|].
  apply has_worker_true in Hc as [w Hw]. exists p, w.
  split; [exact Hp|]. split; [exact Hw|].
  exact (first_job_never_receives _ _ _ _ Hp Hw).
Defined.

Lemma last_job_never_sends_witness :
  exists p w,
    prun (ExecutePipeline (signer crc32_stub md5_stub [VInt 0; VInt 1])) run_in_turn
      = Some p /\
    workers p !! 4 = Some w /\
    sends (whist w) = [] /\ (forall ts b tr, pstep p (PXfer 4 ts b tr) = None).
Proof.
  destruct (checked_true (has_worker 4)
              (prun (ExecutePipeline (signer crc32_stub md5_stub [VInt 0; VInt 1]))
                    run_in_turn))
    as (p & Hp & Hc); [vm_compute; reflexivity|].
  apply has_worker_true in Hc as [w Hw]. exists p, w.
  split; [exact Hp|]. split; [exact Hw|].
  exact (last_job_never_sends _ _ _ _ _ Hp Hw eq_refl).
Defined.

(** Two integers are in SingleHash: five channels, all open. *)
Lemma channels_closed_once_witness :
  exists p,
    prun (ExecutePipeline (signer crc32_stub md5_stub [VInt 0; VInt 1])) run_two_items
      = Some p /\
    chans p = [false; false; false; false; false] /\
    (forall a w, workers p !! a = Some w ->
       match wphase_of w with
       | WRun | WClose _ => chans p !! a = Some false
       | WDone _ | WExit | WFatal _ => chans p !! a = Some true
       end).
Proof.
  destruct (checked_true
              (λ p, bool_decide (chans p = [false; false; false; false; false]))
              (prun (ExecutePipeline (signer crc32_stub md5_stub [VInt 0; VInt 1]))
                    run_two_items))
    as (p & Hp & Hc); [vm_compute; reflexivity|].
  apply bool_decide_eq_true in Hc. exists p.
  split; [exact Hp|]. split; [exact Hc|].
  exact (proj1 (channels_closed_once _ _ _ Hp)).
Defined.

Lemma wg_counts_goroutines_witness :
  exists p,
    prun (ExecutePipeline (signer crc32_stub md5_stub [VInt 0; VInt 1])) run_two_items
      = Some p /\
    pwg p = 5 /\ pwg p = count pending (workers p).
Proof.
  destruct (checked_true (λ p, Nat.eqb (pwg p) 5)
              (prun (ExecutePipeline (signer crc32_stub md5_stub [VInt 0; VInt 1]))
                    run_two_items))
    as (p & Hp & Hc); [vm_compute; reflexivity|].
  apply Nat.eqb_eq in Hc. exists p. split; [exact Hp|]. split; [exact Hc|].
  exact (proj1 (wg_counts_goroutines _ _ _ Hp)).
Defined.

(** The three stages alone: all goroutines are started and nothing
    moves. *)
Lemma stage_as_first_job_never_returns_witness :
  exists p,
    prun (ExecutePipeline [SingleHash crc32_stub md5_stub; MultiHash crc32_stub;
                           CombineResults])
         (replicate 4 PExec) = Some p /\
    length (workers p) = 3 /\ exec p <> EReturned /\
    (forall w, workers p !! 0 = Some w -> whist w = [] /\ wphase_of w = WRun).
Proof.
  destruct (checked_true (λ p, Nat.eqb (length (workers p)) 3)
              (prun (ExecutePipeline [SingleHash crc32_stub md5_stub;
                                      MultiHash crc32_stub; CombineResults])
                    (replicate 4 PExec)))
    as (p & Hp & Hc); [vm_compute; reflexivity|].
  apply Nat.eqb_eq in Hc. exists p. split; [exact Hp|]. split; [exact Hc|].
  exact (stage_as_first_job_never_returns crc32_stub md5_stub _ _ _ _
           (or_introl eq_refl) Hp).
Defined.

(** SingleHash on 7 and -3, run to its return. *)
Lemma SingleHash_leaves_no_goroutine_witness :
  exists ls s,
    reaches (SingleHash crc32_stub md5_stub) ls s /\ sh_main s = MRet /\
    length (sh_workers s) = 2 /\
    length (sh_workers s) = length (recvs ls) /\
    Forall (λ w, sh_at w = ShExit /\ sh_ch2 w = SubExit) (sh_workers s) /\
    sh_mu s = false /\ sh_wg s = 0 /\
    (forall t i, sh_step crc32_stub md5_stub s t i = None).
Proof.
  assert (Hrun : exists ls s,
             run (SingleHash crc32_stub md5_stub) (jinit _) sh_demo_sched = Some (ls, s) /\
             sh_main s = MRet /\ length (sh_workers s) = 2).
  { eexists _, _. split; [vm_compute; reflexivity|]. by split. }
  destruct Hrun as (ls & s & Hrun & Hm & Hlen).
  assert (Hr : reaches (SingleHash crc32_stub md5_stub) ls s) by by exists sh_demo_sched.
  exists ls, s. split; [exact Hr|]. split; [exact Hm|]. split; [exact Hlen|].
  exact (SingleHash_leaves_no_goroutine crc32_stub md5_stub ls s Hr Hm).
Defined.

(** MultiHash on ["x"], run to its return. *)
Lemma MultiHash_leaves_no_goroutine_witness :
  exists ls s,
    reaches (MultiHash crc32_stub) ls s /\ mh_main s = MRet /\
    length (mh_workers s) = 1 /\
    length (mh_workers s) = length (recvs ls) /\
    Forall (λ w, mh_at w = MhExit /\ mh_subs w = replicate numHashes MsExit /\
                 wgIn w = 0 /\
                 multiRes w = (λ i, crc32_stub (Itoa (Z.of_nat i) +:+ mh_data w))
                                <$> seq 0 numHashes)
           (mh_workers s) /\
    mh_wg s = 0 /\
    (forall t i, mh_step crc32_stub s t i = None).
Proof.
  assert (Hrun : exists ls s,
             run (MultiHash crc32_stub) (jinit _) mh_demo_sched = Some (ls, s) /\
             mh_main s = MRet /\ length (mh_workers s) = 1).
  { eexists _, _. split; [vm_compute; reflexivity|]. by split. }
  destruct Hrun as (ls & s & Hrun & Hm & Hlen).
  assert (Hr : reaches (MultiHash crc32_stub) ls s) by by exists mh_demo_sched.
  exists ls, s. split; [exact Hr|]. split; [exact Hm|]. split; [exact Hlen|].
  exact (MultiHash_leaves_no_goroutine crc32_stub ls s Hr Hm).
Defined.



(** Two integers are in SingleHash and the first worker holds the mutex. *)
Lemma SingleHash_lock_discipline_witness :
  exists ls s,
    reaches (SingleHash crc32_stub md5_stub) ls s /\
    sh_mu s = true /\ sh_wg s = 2 /\
    (sh_mu s = true <->
     exists k w, sh_workers s !! k = Some w /\
                 (sh_at w = ShMd5 \/ sh_at w = ShUnlock)) /\
    (forall k k' w w',
       sh_workers s !! k = Some w -> sh_at w = ShMd5 \/ sh_at w = ShUnlock ->
       sh_workers s !! k' = Some w' -> sh_at w' = ShMd5 \/ sh_at w' = ShUnlock ->
       k = k') /\
    sh_wg s = count (λ w, bool_decide (sh_at w <> ShExit)) (sh_workers s) /\
    (forall k w, sh_workers s !! k = Some w -> sh_at w = ShDone -> 0 < sh_wg s).
Proof.
  assert (Hrun : exists ls s,
             run (SingleHash crc32_stub md5_stub) (jinit _) sh_two_items_sched
               = Some (ls, s) /\
             sh_mu s = true /\ sh_wg s = 2).
  { eexists _, _. split; [vm_compute; reflexivity|]. by split. }
  destruct Hrun as (ls & s & Hrun & Hmu & Hwg).
  assert (Hr : reaches (SingleHash crc32_stub md5_stub) ls s)
    by by exists sh_two_items_sched.
  exists ls, s. split; [exact Hr|]. split; [exact Hmu|]. split; [exact Hwg|].
  exact (SingleHash_lock_discipline crc32_stub md5_stub ls s Hr).
Defined.

(** The worker of MultiHash has started two goroutines and neither has
    written yet. *)
Lemma MultiHash_slots_settled_witness :
  exists ls s w,
    reaches (MultiHash crc32_stub) ls s /\ mh_workers s !! 0 = Some w /\
    mh_at w = MhFor 2 /\ mh_subs w = [MsCrc; MsCrc] /\
    length (multiRes w) = numHashes /\ length (mh_subs w) <= numHashes /\
    (forall i, i < numHashes ->
       multiRes w !! i =
         Some (match mh_subs w !! i with
               | Some MsDone | Some MsExit => crc32_stub (Itoa (Z.of_nat i) +:+ mh_data w)
               | _ => ""
               end)) /\
    wgIn w + count (λ sb, bool_decide (sb = MsExit)) (mh_subs w) = numHashes /\
    (forall i, mh_subs w !! i = Some MsDone -> 0 < wgIn w) /\
    ((exists res, mh_at w = MhSend res) \/ mh_at w = MhDone \/ mh_at w = MhExit ->
     mh_subs w = replicate numHashes MsExit).
Proof.
  assert (Hrun : exists ls s w,
             run (MultiHash crc32_stub) (jinit _) mh_closed_sched = Some (ls, s) /\
             mh_workers s !! 0 = Some w /\ mh_at w = MhFor 2 /\
             mh_subs w = [MsCrc; MsCrc]).
  { eexists _, _, _. split; [vm_compute; reflexivity|]. split; [reflexivity|].
    by split. }
  destruct Hrun as (ls & s & w & Hrun & Hw & Hat & Hsubs).
  assert (Hr : reaches (MultiHash crc32_stub) ls s) by by exists mh_closed_sched.
  assert (Hne : mh_at w <> MhInit) by (rewrite Hat; discriminate).
  exists ls, s, w. split; [exact Hr|]. split; [exact Hw|]. split; [exact Hat|].
  split; [exact Hsubs|].
  exact (MultiHash_slots_settled crc32_stub ls s 0 w Hr Hw Hne).
Defined.


Lemma signer_never_panics_witness :
  exists p,
    prun (ExecutePipeline (signer crc32_stub md5_stub (VInt <$> [0; 1]%Z)))
         run_overtaking = Some p /\
    crashed p = None /\
    (forall a w, workers p !! a = Some w ->
       (forall msg, LPanic msg ∉ whist w) /\
       (wphase_of w = WRun \/ wphase_of w = WClose None \/
        wphase_of w = WDone None \/ wphase_of w = WExit)).
Proof.
  destruct (checked_true (λ _, true)
              (prun (ExecutePipeline (signer crc32_stub md5_stub (VInt <$> [0; 1]%Z)))
                    run_overtaking))
    as (p & Hp & _); [vm_compute; reflexivity|].
  exists p. split; [exact Hp|].
  exact (signer_never_panics crc32_stub md5_stub _ _ _ Hp).
Defined.

(** Two integers are in SingleHash: [ExecutePipeline] has not returned,
    and something can move. *)
Lemma signer_never_hangs_witness :
  exists p,
    prun (ExecutePipeline (signer crc32_stub md5_stub (VInt <$> [0; 1]%Z)))
         run_two_items = Some p /\
    returned p = false /\
    (exec p = EReturned \/ exists e p', pstep p e = Some p').
Proof.
  destruct (checked_true (λ p, negb (returned p))
              (prun (ExecutePipeline (signer crc32_stub md5_stub (VInt <$> [0; 1]%Z)))
                    run_two_items))
    as (p & Hp & Hc); [vm_compute; reflexivity|].
  apply negb_true_iff in Hc. exists p. split; [exact Hp|]. split; [exact Hc|].
  exact (signer_never_hangs crc32_stub md5_stub _ _ _ Hp).
Defined.

Lemma signer_always_returns_witness :
  exists p,
    prun (ExecutePipeline (signer crc32_stub md5_stub (VInt <$> [0; 1]%Z)))
         run_two_items = Some p /\
    returned p = false /\
    length run_two_items <= 39 * 2 + 34 /\
    exists es' p',
      prun p es' = Some p' /\ exec p' = EReturned /\ crashed p' = None /\
      delivered p' = [VString (signatureOf crc32_stub md5_stub [0; 1]%Z)].
Proof.
  destruct (checked_true (λ p, negb (returned p))
              (prun (ExecutePipeline (signer crc32_stub md5_stub (VInt <$> [0; 1]%Z)))
                    run_two_items))
    as (p & Hp & Hc); [vm_compute; reflexivity|].
  apply negb_true_iff in Hc. exists p. split; [exact Hp|]. split; [exact Hc|].
  exact (signer_always_returns crc32_stub md5_stub _ _ _ Hp).
Defined.
